(** * Vibe-Wrapper: the staged-secret sanitizer and the auto-commit workflow

    A shallow embedding of [RepoHelpers.py] and [workflows.py].

    Python [str] values are lists of Unicode code points ([N]), [bytes]
    values lists of numbers below 256, Python integers are [Z], and
    dictionaries are [gmap]s.  What the program gets from outside (git, the
    GitPython library, the reasoning service, the Unicode tables) is an
    explicit parameter of the model.

    Part I is the program; Part II states and proves its properties. *)

From Stdlib Require Import ZArith NArith Ascii String List Lia Bool DecimalString.
From stdpp Require Import base list gmap strings sorting.

Local Open Scope N_scope.

(** * Part I: the program *)

(** ** Python strings *)

Abbreviation str := (list N).

Definition ch (a : ascii) : N := N_of_ascii a.

Definition py (s : string) : str := map N_of_ascii (list_ascii_of_string s).

Definition str_eqb (a b : str) : bool := bool_decide (a = b).

(** ** Character classes of [re] on [str] patterns *)

Definition rng (a b : ascii) (c : N) : bool := (ch a <=? c) && (c <=? ch b).
Definition one_of (s : string) (c : N) : bool := existsb (N.eqb c) (py s).

Definition upper_az (c : N) : bool := rng "A" "Z" c.
Definition lower_az (c : N) : bool := rng "a" "z" c.
Definition digit (c : N) : bool := rng "0" "9" c.
Definition alnum_ascii (c : N) : bool := upper_az c || lower_az c || digit c.

(** [\s] on a [str] pattern: the code points for which [str.isspace] holds. *)
Definition is_space (c : N) : bool :=
  ((9 <=? c) && (c <=? 13)) || ((28 <=? c) && (c <=? 32))
  || (c =? 133) || (c =? 160) || (c =? 5760)
  || ((8192 <=? c) && (c <=? 8202))
  || (c =? 8232) || (c =? 8233) || (c =? 8239) || (c =? 8287) || (c =? 12288).

(** Under [re.IGNORECASE] (Unicode matching) the ranges [A-Z]/[a-z] also
    match U+0130, U+0131, U+017F and U+212A. *)
Definition icase_extra (c : N) : bool :=
  (c =? 304) || (c =? 305) || (c =? 383) || (c =? 8490).

(** A lower-case ASCII letter of a pattern compiled with [re.IGNORECASE]. *)
Definition ci (a : ascii) (c : N) : bool :=
  (c =? ch a) || (c =? ch a - 32)
  || ((ch a =? ch "s") && (c =? 383))
  || ((ch a =? ch "k") && (c =? 8490))
  || ((ch a =? ch "i") && ((c =? 304) || (c =? 305))).

Definition dquote : N := 34.
Definition squote : N := 39.
Definition backtick : N := 96.

(** ** Regular expressions, as far as the patterns of the module use them *)

Inductive re : Type :=
| Chr (p : N -> bool)
| Seq (a b : re)
| Alt (a b : re)
| Rep (p : N -> bool) (lo : nat) (hi : option nat)
| Opt (a : re)
| Grp (n : nat) (a : re)
| Bref (n : nat)
| WordB
| NotBehind (p : N -> bool)
| NotAhead (p : N -> bool).

(** The literal string [s], each character matched exactly. *)
Fixpoint lit_of (l : str) : re :=
  match l with
  | [] => Opt (Rep (fun _ => false) 1 None)
  | [c] => Chr (N.eqb c)
  | c :: t => Seq (Chr (N.eqb c)) (lit_of t)
  end.
Definition Lit (s : string) : re := lit_of (py s).

(** A state of the backtracking matcher: the character before the cursor,
    the text from the cursor on, and the groups captured so far. *)
Record mst : Type := Mst {
  m_prev : option N;
  m_rest : str;
  m_grp : list (nat * str)
}.

Definition advance (n : nat) (st : mst) : mst :=
  Mst (match n with
       | O => m_prev st
       | S k => match m_rest st !! k with Some c => Some c | None => m_prev st end
       end)
      (drop n (m_rest st)) (m_grp st).

Fixpoint group (n : nat) (g : list (nat * str)) : option str :=
  match g with
  | [] => None
  | (k, v) :: t => if Nat.eqb k n then Some v else group n t
  end.

Fixpoint span (p : N -> bool) (hi : option nat) (s : str) : nat :=
  match hi with
  | Some O => O
  | _ =>
    match s with
    | c :: t => if p c then S (span p (Nat.pred <$> hi) t) else O
    | [] => O
    end
  end.

Definition is_prefix (g s : str) : bool := str_eqb (take (length g) s) g.

Section Matcher.

(** [str.isalnum] above the ASCII range: the Unicode database, not part of
    the program. *)
Variable uni_alnum : N -> bool.

(** [\w] on a [str] pattern. *)
Definition is_word (c : N) : bool :=
  if c <? 128 then alnum_ascii c || (c =? ch "_") else uni_alnum c.

Definition word_opt (o : option N) : bool :=
  match o with Some c => is_word c | None => false end.

(** All the ways [r] matches at the cursor, in the order in which the
    backtracking matcher of [re] tries them; the first one is the match. *)
Fixpoint run (r : re) (st : mst) : list mst :=
  match r with
  | Chr p =>
    match m_rest st with
    | c :: _ => if p c then [advance 1 st] else []
    | [] => []
    end
  | Seq a b => flat_map (run b) (run a st)
  | Alt a b => run a st ++ run b st
  | Rep p lo hi =>
    let k := span p hi (m_rest st) in
    map (fun n => advance n st) (rev (seq lo (S k - lo)))
  | Opt a => run a st ++ [st]
  | Grp n a =>
    map (fun st' =>
           Mst (m_prev st') (m_rest st')
               ((n, take (length (m_rest st) - length (m_rest st')) (m_rest st))
                  :: m_grp st'))
        (run a st)
  | Bref n =>
    match group n (m_grp st) with
    | Some g => if is_prefix g (m_rest st) then [advance (length g) st] else []
    | None => []
    end
  | WordB =>
    if xorb (word_opt (m_prev st)) (word_opt (head (m_rest st))) then [st] else []
  | NotBehind p =>
    match m_prev st with
    | Some c => if p c then [] else [st]
    | None => [st]
    end
  | NotAhead p =>
    match m_rest st with
    | c :: _ => if p c then [] else [st]
    | [] => [st]
    end
  end.

(** [rx.sub(repl, s)]: scan left to right, replace each leftmost match and
    resume after it.  The flag tells whether [repl] was called at all.  No
    pattern of the module matches the empty string ([run_min_len] below), so
    an empty match is treated as no match. *)
Fixpoint sub_go (r : re) (repl : mst -> str) (prev : option N) (s : str)
    (skip : nat) : str * bool :=
  match s with
  | [] => ([], false)
  | c :: t =>
    match skip with
    | S k => sub_go r repl (Some c) t k
    | O =>
      match head (run r (Mst prev s [])) with
      | Some m =>
        match (length s - length (m_rest m))%nat with
        | S k => let '(o, _) := sub_go r repl (Some c) t k in (repl m ++ o, true)
        | O => let '(o, b) := sub_go r repl (Some c) t 0 in (c :: o, b)
        end
      | None => let '(o, b) := sub_go r repl (Some c) t 0 in (c :: o, b)
      end
    end
  end.

Definition sub (r : re) (repl : mst -> str) (s : str) : str * bool :=
  sub_go r repl None s 0.

(** ** The patterns *)

Definition tok_cls (c : N) : bool := alnum_ascii c || one_of "_-" c.
Definition upper_digit (c : N) : bool := digit c || upper_az c.

(** The three-segment tail [X{10,}\.X{10,}\.X{8,}] of the JWT patterns. *)
Definition jwt3 : re :=
  Seq (Rep tok_cls 10 None) (Seq (Lit ".") (Seq (Rep tok_cls 10 None)
    (Seq (Lit ".") (Rep tok_cls 8 None)))).

Definition SECRET_TOKEN_PATTERNS : list re := [
  (* AKIA[0-9A-Z]{16} *)
  Seq (Lit "AKIA") (Rep upper_digit 16 (Some 16%nat));
  (* ASIA[0-9A-Z]{16} *)
  Seq (Lit "ASIA") (Rep upper_digit 16 (Some 16%nat));
  (* AIza[0-9A-Za-z_\-]{35} *)
  Seq (Lit "AIza") (Rep tok_cls 35 (Some 35%nat));
  (* ghp_[A-Za-z0-9]{36} *)
  Seq (Lit "ghp_") (Rep alnum_ascii 36 (Some 36%nat));
  (* github_pat_[A-Za-z0-9_]{82} *)
  Seq (Lit "github_pat_")
      (Rep (fun c => alnum_ascii c || (c =? ch "_")) 82 (Some 82%nat));
  (* xox[baprs]-[A-Za-z0-9-]{10,48} *)
  Seq (Lit "xox") (Seq (Chr (one_of "baprs")) (Seq (Lit "-")
      (Rep (fun c => alnum_ascii c || (c =? ch "-")) 10 (Some 48%nat))));
  (* sk_live_[0-9A-Za-z]{24,} *)
  Seq (Lit "sk_live_") (Rep alnum_ascii 24 None);
  (* sk-[A-Za-z0-9]{20,48} *)
  Seq (Lit "sk-") (Rep alnum_ascii 20 (Some 48%nat));
  (* (?i:Bearer\s+[A-Za-z0-9\-\._=]{20,}) *)
  Seq (Chr (ci "b")) (Seq (Chr (ci "e")) (Seq (Chr (ci "a")) (Seq (Chr (ci "r"))
      (Seq (Chr (ci "e")) (Seq (Chr (ci "r")) (Seq (Rep is_space 1 None)
      (Rep (fun c => alnum_ascii c || icase_extra c || one_of "-._=" c)
           20 None)))))));
  (* \bX{10,}\.X{10,}\.X{8,}\b with X = [A-Za-z0-9_-] *)
  Seq WordB (Seq jwt3 WordB);
  (* \beyJX{10,}\.X{10,}\.X{8,}\b *)
  Seq WordB (Seq (Lit "eyJ") (Seq jwt3 WordB));
  (* (?<!X)eyJX{10,}\.X{10,}\.X{8,}(?!X) *)
  Seq (NotBehind tok_cls) (Seq (Lit "eyJ") (Seq jwt3 (NotAhead tok_cls)));
  (* (?<!X)sk-[A-Za-z0-9]{8,19}(?!X) *)
  Seq (NotBehind tok_cls) (Seq (Lit "sk-")
      (Seq (Rep alnum_ascii 8 (Some 19%nat)) (NotAhead tok_cls)));
  (* (?<!X)eyJX{10,}\.X{10,}(?:\.X{8,})?(?!X) *)
  Seq (NotBehind tok_cls) (Seq (Lit "eyJ") (Seq (Rep tok_cls 10 None)
      (Seq (Lit ".") (Seq (Rep tok_cls 10 None)
      (Seq (Opt (Seq (Lit ".") (Rep tok_cls 8 None))) (NotAhead tok_cls))))))
].

Definition name_cls (c : N) : bool := alnum_ascii c || one_of "_.-" c.
Definition val_cls (c : N) : bool := alnum_ascii c || one_of "_-/+=" c.
Definition op_cls (c : N) : bool := one_of ":=" c.
Definition quote_cls (c : N) : bool := (c =? dquote) || (c =? squote).
Definition quote3_cls (c : N) : bool := quote_cls c || (c =? backtick).

(** [name\s*[:=]\s*], the tail of group 1 of both key/value patterns. *)
Definition kv_head (name : N -> bool) : re :=
  Seq (Rep name 2 None) (Seq (Rep is_space 0 None)
    (Seq (Chr op_cls) (Rep is_space 0 None))).

Definition kv1 : re :=
  Seq (Grp 1 (kv_head name_cls))
    (Seq (Grp 2 (Opt (Chr quote_cls)))
      (Seq (Grp 3 (Rep val_cls 16 None)) (Grp 4 (Bref 2)))).

(** The second pattern is compiled with [re.IGNORECASE].  Its group 2 holds
    at most one quote character, which has no case variants, so the
    backreference compares exactly. *)
Definition kv2 : re :=
  Seq (Grp 1 (Seq (Opt (Seq (Chr (ci "e")) (Seq (Chr (ci "x")) (Seq (Chr (ci "p"))
                   (Seq (Chr (ci "o")) (Seq (Chr (ci "r")) (Seq (Chr (ci "t"))
                   (Rep is_space 1 None))))))))
                (kv_head (fun c => name_cls c || icase_extra c))))
    (Seq (Grp 2 (Opt (Chr quote3_cls)))
      (Seq (Grp 3 (Seq (Chr (ci "s")) (Seq (Chr (ci "k")) (Seq (Lit "-")
             (Rep (fun c => alnum_ascii c || icase_extra c) 8 (Some 48%nat))))))
           (Grp 4 (Bref 2)))).

(** (pattern, g_prefix, g_open, g_value, g_suffix) *)
Definition KV_VALUE_PATTERNS : list (re * nat * nat * nat * nat) :=
  [(kv1, 1, 2, 3, 4)%nat; (kv2, 1, 2, 3, 4)%nat].

Definition api_key : str := py "api_key".

Definition or_empty (o : option str) : str := default [] o.

(** The closure [repl] of [_sanitize_text]. *)
Definition repl (g_prefix g_open g_suffix : nat) (m : mst) : str :=
  let openq := or_empty (group g_open (m_grp m)) in
  let closeq := or_empty (group g_suffix (m_grp m)) in
  or_empty (group g_prefix (m_grp m)) ++ openq ++ api_key ++ closeq.

Fixpoint alt_all (l : list re) : re :=
  match l with
  | [] => Chr (fun _ => false)
  | [r] => r
  | r :: t => Alt r (alt_all t)
  end.

Definition token_union : re := alt_all SECRET_TOKEN_PATTERNS.

(** The first loop of [_sanitize_text], over [KV_VALUE_PATTERNS]. *)
Definition kv_step (acc : str * bool) (p : re * nat * nat * nat * nat)
    : str * bool :=
  let '(s, changed) := acc in
  let '(rx, g_prefix, g_open, _, g_suffix) := p in
  let '(s2, called) := sub rx (repl g_prefix g_open g_suffix) s in
  let changed := changed || called in
  (s2, changed || negb (str_eqb s2 s)).

Definition kv_pass (s : str) : str * bool :=
  fold_left kv_step KV_VALUE_PATTERNS (s, false).

Definition _sanitize_text (s : str) : str * bool :=
  let '(s, changed) := kv_pass s in
  let before := s in
  let s := fst (sub token_union (fun _ => api_key) s) in
  (s, if negb (str_eqb s before) then true else changed).

End Matcher.

(** ** Chunking of a text for the reasoning service *)

Section ChunkingModel.
Local Open Scope Z_scope.

(** [len(s)] *)
Definition len {A} (s : list A) : Z := Z.of_nat (length s).

(** [s[i:j]], with Python's treatment of negative and overlong indices. *)
Definition clip (n k : Z) : Z :=
  if k <? 0 then Z.max (k + n) 0 else Z.min k n.

Definition slice {A} (s : list A) (i j : Z) : list A :=
  let i' := clip (len s) i in
  let j' := clip (len s) j in
  take (Z.to_nat (j' - i')) (drop (Z.to_nat i') s).

(** The [while] loop of [_chunk_text].  [None]: the loop did not end within
    [fuel] rounds. *)
Fixpoint chunk_loop (fuel : nat) (s : str) (max_chars overlap : Z) (i : Z)
    (out : list (Z * str)) : option (list (Z * str)) :=
  match fuel with
  | O => None
  | S fuel' =>
    let n := len s in
    if i <? n then
      let j := Z.min (i + max_chars) n in
      let out := out ++ [(i, slice s i j)] in
      if j =? n then Some out
      else chunk_loop fuel' s max_chars overlap (Z.max 0 (j - overlap)) out
    else Some out
  end.

(** [_chunk_text(s, max_chars, overlap)].  A loop that ends at all ends
    within [len(s)] rounds ([chunk_loop_ends], [chunk_loop_diverges]), so
    [None] stands for the call that does not return. *)
Definition _chunk_text (s : str) (max_chars overlap : Z)
    : option (list (Z * str)) :=
  if len s <=? max_chars then Some [(0, s)]
  else chunk_loop (S (length s)) s max_chars overlap 0 [].

End ChunkingModel.

(** ** Reconciling the findings of the reasoning service with a chunk *)

Section FindingsModel.
Local Open Scope Z_scope.

(** An item of [_extract_findings_from_response]. *)
Record finding : Type := Finding {
  f_start : Z;
  f_end : Z;
  f_kind : str;
  f_reason : str;
  f_snippet : str
}.

(** The first index at which [needle] occurs in [hay], if any. *)
Fixpoint find_at (needle hay : str) : option nat :=
  if is_prefix needle hay then Some O
  else match hay with
       | [] => None
       | _ :: t => S <$> find_at needle t
       end.

(** [hay.find(needle)] *)
Definition find (hay needle : str) : Z :=
  match find_at needle hay with
  | Some k => Z.of_nat k
  | None => -1
  end.

(** [needle in hay] *)
Definition contains (needle hay : str) : bool :=
  match find_at needle hay with Some _ => true | None => false end.

Fixpoint lstrip (s : str) : str :=
  match s with
  | c :: t => if is_space c then lstrip t else s
  | [] => []
  end.

(** [s.strip()] *)
Definition strip (s : str) : str := rev (lstrip (rev (lstrip s))).

(** The body of the loop over the findings of one chunk: the range
    appended to [all_ranges], if any. *)
Definition reconcile (base : Z) (chunk : str) (f : finding) : option (Z * Z) :=
  let s := f_start f in
  let e := f_end f in
  if (0 <=? s) && (s <? e) && (e <? len chunk) then
    let candidate := slice chunk s e in
    let snip := f_snippet f in
    let '(s, e, candidate) :=
      if negb (str_eqb snip []) && negb (contains snip candidate) then
        let idx := find chunk snip in
        if negb (idx =? -1) then
          (idx, idx + len snip, slice chunk idx (idx + len snip))
        else (s, e, candidate)
      else (s, e, candidate) in
    if 8 <=? len (strip candidate) then Some (base + s, base + e) else None
  else None.

(** The ranges one chunk contributes to [all_ranges]. *)
Definition chunk_ranges (base : Z) (chunk : str) (findings : list finding)
    : list (Z * Z) :=
  omap (reconcile base chunk) findings.

End FindingsModel.

(** ** Bytes and UTF-8 *)

(** A [bytes] value: numbers below 256. *)
Abbreviation bytes := (list N).

Definition cont (b : N) : bool := (128 <=? b) && (b <=? 191).

Definition surrogate (c : N) : bool := (55296 <=? c) && (c <=? 57343).

(** [data.decode("utf-8")]; [None] where it raises [UnicodeDecodeError]. *)
Fixpoint utf8_decode (b : bytes) : option str :=
  match b with
  | [] => Some []
  | b0 :: t =>
    if b0 <? 128 then cons b0 <$> utf8_decode t
    else if (194 <=? b0) && (b0 <=? 223) then
      match t with
      | b1 :: t1 =>
        if cont b1 then
          cons ((b0 - 192) * 64 + (b1 - 128)) <$> utf8_decode t1
        else None
      | _ => None
      end
    else if (224 <=? b0) && (b0 <=? 239) then
      match t with
      | b1 :: b2 :: t2 =>
        let c := (b0 - 224) * 4096 + (b1 - 128) * 64 + (b2 - 128) in
        if cont b1 && cont b2 && (2048 <=? c) && negb (surrogate c) then
          cons c <$> utf8_decode t2
        else None
      | _ => None
      end
    else if (240 <=? b0) && (b0 <=? 244) then
      match t with
      | b1 :: b2 :: b3 :: t3 =>
        let c := (b0 - 240) * 262144 + (b1 - 128) * 4096
                 + (b2 - 128) * 64 + (b3 - 128) in
        if cont b1 && cont b2 && cont b3 && (65536 <=? c) && (c <=? 1114111)
        then cons c <$> utf8_decode t3
        else None
      | _ => None
      end
    else None
  end.

(** The UTF-8 form of one code point; [None] for a surrogate (and above
    the code space). *)
Definition utf8_char (c : N) : option bytes :=
  if c <? 128 then Some [c]
  else if c <? 2048 then Some [192 + c / 64; 128 + c mod 64]
  else if c <? 65536 then
    if surrogate c then None
    else Some [224 + c / 4096; 128 + (c / 64) mod 64; 128 + c mod 64]
  else if c <? 1114112 then
    Some [240 + c / 262144; 128 + (c / 4096) mod 64;
          128 + (c / 64) mod 64; 128 + c mod 64]
  else None.

(** [s.encode("utf-8")]; [None] where it raises [UnicodeEncodeError]. *)
Fixpoint utf8_encode (s : str) : option bytes :=
  match s with
  | [] => Some []
  | c :: t =>
    match utf8_char c, utf8_encode t with
    | Some bc, Some bt => Some (bc ++ bt)
    | _, _ => None
    end
  end.

(** [s.encode("utf-8", errors="ignore")] *)
Fixpoint utf8_encode_ignore (s : str) : bytes :=
  match s with
  | [] => []
  | c :: t => default [] (utf8_char c) ++ utf8_encode_ignore t
  end.

(** ** The commit message *)

(** A dictionary appended by [sanitize_staged_secrets_in_index]. *)
Record sanitized_entry : Type := Sanitized {
  s_path : str;
  s_replaced : bool
}.

(** A dictionary appended by [llm_scan_staged_secrets_in_index]; each one
    has the key ["path"]. *)
Record llm_entry : Type := LlmEntry {
  r_path : str;
  r_replaced_count : Z;
  r_notes : list str
}.

(** What [client.models.generate_content] did: it raised, or it returned a
    response whose [text] attribute is [None] or a string. *)
Inductive service_reply : Type :=
| Raised
| Replied (text : option str).

(** [str(n)] in an f-string. *)
Definition dec (n : nat) : str := py (NilEmpty.string_of_uint (Nat.to_uint n)).

(** [sep.join(l)] *)
Fixpoint join (sep : str) (l : list str) : str :=
  match l with
  | [] => []
  | [x] => x
  | x :: t => x ++ sep ++ join sep t
  end.

(** [s.upper().startswith(L)] for an upper-case ASCII letter [L]: the first
    character is [L], its lower case, or (for [A]) U+1E9A, whose upper case
    is the two characters [A], U+02BE. *)
Definition upper_startswith (L : ascii) (s : str) : bool :=
  match s with
  | c :: _ => (c =? ch L) || (c =? ch L + 32)
              || ((ch L =? ch "A") && (c =? 7834))
  | [] => false
  end.

Definition count_status (L : ascii) (staged : list (str * str)) : nat :=
  length (List.filter (fun p => upper_startswith L (fst p)) staged).

Definition sec_paths (sanitized : list sanitized_entry)
    (llm_results : list llm_entry) : gset str :=
  list_to_set (map s_path sanitized) ∪ list_to_set (map r_path llm_results).

Definition nl : str := [10].

Definition _fallback_commit_message (staged : list (str * str))
    (sanitized : list sanitized_entry) (llm_results : list llm_entry) : str :=
  let added := count_status "A" staged in
  let modified := count_status "M" staged in
  let deleted := count_status "D" staged in
  let paths := sec_paths sanitized llm_results in
  let subject :=
    if bool_decide (paths = ∅) then py "chore: commit staged changes"
    else py "chore(security): sanitize secrets and commit changes" in
  let body :=
    (if negb (Nat.eqb added 0) || negb (Nat.eqb modified 0)
        || negb (Nat.eqb deleted 0)
     then [py "- files: +" ++ dec added ++ py " ~" ++ dec modified
           ++ py " -" ++ dec deleted]
     else [])
    ++ (if bool_decide (paths = ∅) then []
        else [py "- sanitized secrets in " ++ dec (size paths) ++ py " file(s)"])
    ++ [py "- auto-generated message (fallback)"] in
  subject ++ nl ++ nl ++ join nl body.

(** A line boundary of [str.splitlines], the pair CR LF apart. *)
Definition is_linebreak (c : N) : bool :=
  ((10 <=? c) && (c <=? 13)) || ((28 <=? c) && (c <=? 30))
  || (c =? 133) || (c =? 8232) || (c =? 8233).

Fixpoint splitlines_go (cur : str) (s : str) : list str :=
  match s with
  | [] => match cur with [] => [] | _ => [rev cur] end
  | c :: t =>
    if c =? 13 then
      match t with
      | 10 :: t' => rev cur :: splitlines_go [] t'
      | _ => rev cur :: splitlines_go [] t
      end
    else if is_linebreak c then rev cur :: splitlines_go [] t
    else splitlines_go (c :: cur) t
  end.

(** [s.splitlines()] *)
Definition splitlines (s : str) : list str := splitlines_go [] s.

(** [s.rstrip()] *)
Definition rstrip (s : str) : str := rev (lstrip (rev s)).

(** [s.replace(fence, "")] for the fence of three backticks. *)
Fixpoint remove_fences (s : str) : str :=
  match s with
  | 96 :: 96 :: 96 :: t => remove_fences t
  | c :: t => c :: remove_fences t
  | [] => []
  end.

Definition fence : str := [96; 96; 96].

(** The clean-up of the reply inside the [try] block: the normalized
    message, or [None] where the code raises [RuntimeError]. *)
Definition normalize_reply (text : option str) : option str :=
  let msg := strip (default [] text) in
  if str_eqb msg [] then None
  else
    let msg := if contains fence msg then strip (remove_fences msg) else msg in
    let lines := map rstrip (splitlines msg) in
    match lines with
    | [] => None
    | l0 :: rest =>
      if str_eqb l0 [] then None
      else
        let l0 := if (72 <? length l0)%nat then take 72 l0 else l0 in
        Some (join nl ([l0]
                       ++ match rest with
                          | [] => []
                          | l1 :: _ => if str_eqb l1 [] then [] else [[]]
                          end
                       ++ rest))
    end.

(** [generate_commit_message], from the staged name/status list on.  The
    context bundle and the prompt reach the service only. *)
Definition generate_commit_message (staged : list (str * str))
    (sanitized : option (list sanitized_entry))
    (llm_results : option (list llm_entry)) (reply : service_reply) : str :=
  match staged with
  | [] => py "chore: no-op (nothing staged)"
  | _ =>
    match reply with
    | Raised =>
      _fallback_commit_message staged (default [] sanitized)
                               (default [] llm_results)
    | Replied text =>
      match normalize_reply text with
      | Some msg => msg
      | None =>
        _fallback_commit_message staged (default [] sanitized)
                                 (default [] llm_results)
      end
    end
  end.

(** ** The staging area *)

(** An index entry at stage 0: mode bits and the id of the blob. *)
Record entry : Type := Entry {
  e_mode : Z;
  e_oid : str
}.

(** The repository as the two passes see it: the working tree, the index
    and the object store. *)
Record repo : Type := Repo {
  repo_worktree : gmap str bytes;
  repo_index : gmap str entry;
  repo_objects : gmap str bytes
}.

(** A finding-service reply for one chunk: the request raised (with the
    text of the exception), or the findings that
    [_extract_findings_from_response] reads from the reply; the JSON
    decoding itself is not modelled. *)
Inductive llm_reply : Type :=
| LlmRaised (e : str)
| LlmFindings (fs : list finding).

(** What the passes get from outside: the output of
    [git diff --name-only --cached] ([None] when it raises), the success of
    [git hash-object -w] and of [git update-index --cacheinfo] for a path,
    and the finding service. *)
Record env : Type := Env {
  diff_names : option (list str);
  hash_ok : str -> bool;
  update_ok : str -> bool;
  llm : str -> Z -> str -> llm_reply
}.

(** The progress of a pass: the repository, the list the pass returns, and
    the texts handed to detection so far ([_sanitize_text] in the pattern
    pass, the finding service in the semantic pass). *)
Record pass (R : Type) : Type := Pass {
  p_repo : repo;
  p_out : list R;
  p_seen : list str
}.
Arguments Pass {R} _ _ _.
Arguments p_repo {R} _.
Arguments p_out {R} _.
Arguments p_seen {R} _.

Definition _is_probably_text (data : bytes) : bool :=
  if bool_decide (0 ∈ data) then false
  else match utf8_decode data with Some _ => true | None => false end.

(** [data.decode("utf-8", errors="replace")], used on data that
    [_is_probably_text] has accepted, where it is the strict decoding. *)
Definition decode_replace (data : bytes) : str :=
  default [] (utf8_decode data).

(** The bytes staged for a path. *)
Definition staged_bytes (r : repo) (path : str) : option bytes :=
  e ← repo_index r !! path; repo_objects r !! e_oid e.

Definition default_mode : Z := 33188.

Definition _blob_mode_from_index (r : repo) (path : str) : Z :=
  match repo_index r !! path with
  | Some e => e_mode e
  | None => default_mode
  end.

(** [_apply_replacements_by_ranges]: the stable sort by start, descending,
    then one replacement per range that lies within the text. *)
Fixpoint insert_desc (x : Z * Z) (l : list (Z * Z)) : list (Z * Z) :=
  match l with
  | [] => [x]
  | y :: t => if (fst y <=? fst x)%Z then x :: l else y :: insert_desc x t
  end.

Definition sort_desc (l : list (Z * Z)) : list (Z * Z) :=
  foldr insert_desc [] l.

Definition replace_range (replacement : str) (out : str) (r : Z * Z) : str :=
  let '(s, e) := r in
  if ((0 <=? s) && (s <? e) && (e <=? len out))%Z
  then slice out 0 s ++ replacement ++ slice out e (len out)
  else out.

Definition _apply_replacements_by_ranges (text : str) (ranges : list (Z * Z))
    (replacement : str) : str :=
  fold_left (replace_range replacement) (sort_desc ranges) text.

Definition arrow : str := [32; 8594; 32].

Section Passes.

Variable uni_alnum : N -> bool.

(** What GitPython makes of the standard output of a git command; the
    library is not part of the program. *)
Variable git_output : bytes -> str.

(** The id [git hash-object] gives to a blob. *)
Variable hash_object : bytes -> str.

Variable E : env.

(** [repo.git.show(":" + path)]; [None] where it raises. *)
Definition git_show (r : repo) (path : str) : option str :=
  git_output <$> staged_bytes r path.

(** The staged blob as the passes read it, with the working-tree file as
    the fallback; [None] where the loop goes on to the next path. *)
Definition read_staged (r : repo) (path : str) : option bytes :=
  match git_show r path with
  | Some raw => Some (utf8_encode_ignore raw)
  | None => repo_worktree r !! path
  end.

Definition staged_paths (r : repo) : list str :=
  match diff_names E with
  | Some l => l
  | None => (map_to_list (repo_index r)).*1
  end.

(** [git hash-object -w --stdin] followed by
    [git update-index --cacheinfo mode blob path]: the repository after
    the two commands, and whether each succeeded. *)
Definition write_blob (r : repo) (path : str) (content : bytes)
    : repo * bool * bool :=
  if hash_ok E path then
    let blob_id := hash_object content in
    let r1 := Repo (repo_worktree r) (repo_index r)
                   (<[blob_id := content]> (repo_objects r)) in
    let mode := _blob_mode_from_index r1 path in
    if update_ok E path then
      (Repo (repo_worktree r1) (<[path := Entry mode blob_id]> (repo_index r1))
            (repo_objects r1), true, true)
    else (r1, true, false)
  else (r, false, false).

(** One round of the loop of [sanitize_staged_secrets_in_index]; [None]
    where an exception leaves the function. *)
Definition sanitize_step (ps : pass sanitized_entry) (path : str)
    : option (pass sanitized_entry) :=
  let r := p_repo ps in
  match repo_index r !! path with
  | None => Some ps
  | Some _ =>
    match read_staged r path with
    | None => Some ps
    | Some data =>
      if negb (_is_probably_text data) then Some ps
      else
        let text := decode_replace data in
        let '(sanitized, changed) := _sanitize_text uni_alnum text in
        let seen := p_seen ps ++ [text] in
        if negb changed then Some (Pass r (p_out ps) seen)
        else
          content ← utf8_encode sanitized;
          let '(r', _, updated) := write_blob r path content in
          Some (Pass r'
                     (if updated then p_out ps ++ [Sanitized path true]
                      else p_out ps)
                     seen)
    end
  end.

Fixpoint run_steps {R} (step : pass R -> str -> option (pass R))
    (paths : list str) (ps : pass R) : option (pass R) :=
  match paths with
  | [] => Some ps
  | p :: rest => ps' ← step ps p; run_steps step rest ps'
  end.

Definition sanitize_staged_secrets_in_index (r : repo)
    : option (pass sanitized_entry) :=
  run_steps sanitize_step (staged_paths r) (Pass r [] []).

(** The loop over the chunks of one file: the ranges, the notes, and the
    chunks sent to the service. *)
Definition scan_chunk (path : str) (acc : list (Z * Z) * list str * list str)
    (c : Z * str) : list (Z * Z) * list str * list str :=
  let '(all_ranges, notes, seen) := acc in
  let '(base, chunk) := c in
  match llm E path base chunk with
  | LlmFindings fs =>
    let kept := List.filter (fun f => bool_decide (is_Some (reconcile base chunk f))) fs in
    (all_ranges ++ chunk_ranges base chunk fs,
     notes ++ map (fun f => path ++ py ": " ++ f_kind f ++ arrow ++ f_reason f) kept,
     seen ++ [chunk])
  | LlmRaised e =>
    (all_ranges, notes ++ [py "LLM error on chunk: " ++ e], seen ++ [chunk])
  end.

(** One round of the loop of [llm_scan_staged_secrets_in_index]; [None]
    where the function does not return (an exception, or the chunking loop
    that does not end). *)
Definition llm_step (max_chars_per_call : Z) (ps : pass llm_entry) (path : str)
    : option (pass llm_entry) :=
  let r := p_repo ps in
  match repo_index r !! path with
  | None => Some ps
  | Some _ =>
    match read_staged r path with
    | None => Some ps
    | Some data =>
      if negb (_is_probably_text data) then Some ps
      else
        let text := decode_replace data in
        chunks ← _chunk_text text max_chars_per_call 200;
        let '(all_ranges, notes, seen) :=
          fold_left (scan_chunk path) chunks ([], [], p_seen ps) in
        match all_ranges with
        | [] => Some (Pass r (p_out ps) seen)
        | _ =>
          let new_text :=
            _apply_replacements_by_ranges text all_ranges (py "api_key_llm") in
          if str_eqb new_text text then Some (Pass r (p_out ps) seen)
          else
            content ← utf8_encode new_text;
            let '(r', hashed, updated) := write_blob r path content in
            Some (Pass r'
                       (p_out ps ++
                        [if updated
                         then LlmEntry path (len all_ranges) notes
                         else if hashed
                         then LlmEntry path 0 (notes ++ [py "update-index failed"])
                         else LlmEntry path 0 (notes ++ [py "hash-object failed"])])
                       seen)
        end
    end
  end.

Definition llm_scan_staged_secrets_in_index (r : repo)
    (max_chars_per_call : Z) : option (pass llm_entry) :=
  match staged_paths r with
  | [] => Some (Pass r [] [])
  | paths => run_steps (llm_step max_chars_per_call) paths (Pass r [] [])
  end.

End Passes.

(** ** The workflow [auto_commit] *)

(** The git commands the workflow issues against the repository. *)
Inductive action : Type := Fetch | AddAll | Commit | Push.

Inductive fetch_outcome : Type :=
| FetchDone            (* [remote.fetch()] returned *)
| FetchGitError        (* it raised [GitCommandError], caught in [fetch_from_remote] *)
| FetchRaised.         (* it raised anything else *)

Inductive push_outcome : Type :=
| PushDone             (* no error flag on the first [PushInfo] *)
| PushErrorFlag (summary : str)
| PushGitError         (* [GitCommandError], caught *)
| PushRaised.          (* anything else *)

(** What the workflow meets outside: whether the path is inside a
    repository, its remotes, and the outcome of each step it calls. *)
Record world : Type := World {
  w_is_repo : bool;
  w_remotes : list str;
  w_fetch : fetch_outcome;
  w_add_raises : bool;
  w_anything_staged : bool;
  w_sanitized : list sanitized_entry;
  w_llm_results : list llm_entry;
  w_commit_message : str;
  w_commit : option str;     (* [Some e]: [repo.index.commit] raised [e] *)
  w_push : push_outcome
}.

(** The dictionary [auto_commit] returns: [ok], one of [message], [warn]
    and [error], and [path]. *)
Inductive detail : Type :=
| Message (s : str)
| Warn (s : str)
| Error (s : str).

Record result : Type := Result {
  ok : bool;
  what : detail;
  path : option str
}.

Definition concat_paths {R} (get : R -> str) (sep : str) (l : list R) : str :=
  concat (map (fun i => get i ++ sep) l).

(** The text [return_message] after the two sanitization reports.  (The
    statement in the second loop of the [else] branch is garbled in the
    source; it is read as the [+=] of its sibling loop.) *)
Definition report (sanitized : list sanitized_entry)
    (llm_results : list llm_entry) : str :=
  let m1 :=
    match sanitized with
    | [] => []
    | _ => py "I've found and redacted secrets in the following files:" ++ nl
           ++ concat_paths s_path (py " ") sanitized ++ nl ++ nl
    end in
  match llm_results with
  | [] => m1
  | _ =>
    match m1 with
    | [] => py "I've found and redacte secrets in the following files:" ++ nl
            ++ concat_paths r_path [] llm_results
    | _ => m1 ++ py "I also found some trickier secrets in:" ++ nl
           ++ concat_paths r_path [] llm_results
    end
  end.

(** [auto_commit(repo_path)]: the git commands issued, in order, and the
    dictionary returned ([None] where an exception leaves the function). *)
Definition auto_commit (w : world) (repo_path : option str)
    : list action * option result :=
  match repo_path with
  | None | Some [] =>
    ([], Some (Result false
                 (Error (py "Please open Visual Studio Code first before trying this"))
                 repo_path))
  | Some p =>
    if negb (w_is_repo w) then
      ([], Some (Result false (Error (py "Not a git repository: " ++ p)) repo_path))
    else
      let fetched := match w_remotes w with [] => [] | _ => [Fetch] end in
      match w_remotes w, w_fetch w with
      | _ :: _, FetchRaised =>
        (fetched,
         Some (Result true (Warn (py "Repository does not have a remote: " ++ p))
                      repo_path))
      | _, _ =>
        if w_add_raises w then (fetched ++ [AddAll], None)
        else if negb (w_anything_staged w) then
          (fetched ++ [AddAll],
           Some (Result true (Message (py "Nothing to commit")) repo_path))
        else
          let return_message := report (w_sanitized w) (w_llm_results w) in
          match w_commit w with
          | Some e =>
            (fetched ++ [AddAll; Commit],
             Some (Result false
                     (Error (py "auto_commit failed while committing: " ++ e))
                     repo_path))
          | None =>
            let return_message :=
              return_message ++ nl ++ nl ++ nl
              ++ py "I've successfully commited the repository with the commit message:"
              ++ nl ++ w_commit_message w in
            match w_remotes w with
            | [] =>
              (fetched ++ [AddAll; Commit],
               Some (Result true (Message return_message) repo_path))
            | _ :: _ =>
              match w_push w with
              | PushDone =>
                (fetched ++ [AddAll; Commit; Push],
                 Some (Result true
                         (Message (return_message ++ nl ++
                            py "And your changes have successfully been pushed to remote"))
                         repo_path))
              | PushErrorFlag summary =>
                (fetched ++ [AddAll; Commit; Push],
                 Some (Result true
                         (Message (return_message ++ nl ++ nl ++
                            py "Unfortunatley it looks like we've ran into a push error. I got the error:"
                            ++ nl ++ summary))
                         repo_path))
              | PushGitError =>
                (fetched ++ [AddAll; Commit; Push],
                 Some (Result true (Message return_message) repo_path))
              | PushRaised => (fetched ++ [AddAll; Commit; Push], None)
              end
            end
          end
      end
  end.

(** ** Whether anything is staged *)

(** [anything_staged], from the output of
    [git diff --cached --name-only] on ([None] where the command raises)
    and from whether the index has entries. *)
Definition anything_staged (diff : option str) (index_entries : bool) : bool :=
  match diff with
  | Some out => match splitlines out with [] => false | _ => true end
  | None => index_entries
  end.

(** ** The context of the commit message *)

(** [ln.split("\t", 1)] where the line holds a tab: the text before the
    first tab and the text after it. *)
Fixpoint split_tab (s : str) : option (str * str) :=
  match s with
  | [] => None
  | c :: t =>
    if c =? 9 then Some ([], t)
    else (fun p => (c :: fst p, snd p)) <$> split_tab t
  end.

(** [_staged_name_status], from the output of
    [git diff --cached --name-status] on ([None] where the command
    raises). *)
Definition _staged_name_status (diff : option str) : list (str * str) :=
  match diff with
  | None => []
  | Some out =>
    omap (fun ln => p ← split_tab ln; Some (strip (fst p), strip (snd p)))
         (splitlines out)
  end.

(** [_staged_patch], from the output of [git diff --cached -U2] on. *)
Definition _staged_patch (diff : option str) (max_chars : Z) : str :=
  match diff with
  | None => []
  | Some patch =>
    if (len patch <=? max_chars)%Z then patch
    else slice patch 0 max_chars ++ nl ++ nl ++ py "[PATCH TRUNCATED]"
  end.

(** U+FFFD, the replacement character. *)
Definition fffd : N := 65533.

(** [data.decode("utf-8", errors="replace")] on any data: each maximal
    part of an ill-formed sequence gives one U+FFFD, and so does a sequence
    cut short by the end of the data. *)
Fixpoint utf8_decode_replace (b : bytes) : str :=
  match b with
  | [] => []
  | b0 :: t =>
    if b0 <? 128 then b0 :: utf8_decode_replace t
    else if (194 <=? b0) && (b0 <=? 223) then
      match t with
      | [] => [fffd]
      | b1 :: t1 =>
        if cont b1 then
          ((b0 - 192) * 64 + (b1 - 128)) :: utf8_decode_replace t1
        else fffd :: utf8_decode_replace t
      end
    else if (224 <=? b0) && (b0 <=? 239) then
      match t with
      | [] => [fffd]
      | b1 :: t1 =>
        if negb (cont b1) || (if b1 <? 160 then b0 =? 224 else b0 =? 237)
        then fffd :: utf8_decode_replace t
        else
          match t1 with
          | [] => [fffd]
          | b2 :: t2 =>
            if cont b2 then
              ((b0 - 224) * 4096 + (b1 - 128) * 64 + (b2 - 128))
                :: utf8_decode_replace t2
            else fffd :: utf8_decode_replace t1
          end
      end
    else if (240 <=? b0) && (b0 <=? 244) then
      match t with
      | [] => [fffd]
      | b1 :: t1 =>
        if negb (cont b1) || (if b1 <? 144 then b0 =? 240 else b0 =? 244)
        then fffd :: utf8_decode_replace t
        else
          match t1 with
          | [] => [fffd]
          | b2 :: t2 =>
            if negb (cont b2) then fffd :: utf8_decode_replace t1
            else
              match t2 with
              | [] => [fffd]
              | b3 :: t3 =>
                if cont b3 then
                  ((b0 - 240) * 262144 + (b1 - 128) * 4096
                   + (b2 - 128) * 64 + (b3 - 128))
                    :: utf8_decode_replace t3
                else fffd :: utf8_decode_replace t2
              end
          end
      end
    else fffd :: utf8_decode_replace t
  end.

(** [_read_small_file]: [None] stands for a path that is not a file, or
    whose reading raises. *)
Definition _read_small_file (file : option bytes) (limit : Z) : str :=
  match file with
  | None => []
  | Some data =>
    if (limit <? len data)%Z
    then utf8_decode_replace (slice data 0 limit) ++ nl ++ nl ++ py "[TRUNCATED]"
    else utf8_decode_replace data
  end.

(** ** The primary language of a repository *)

(** What [repo_root.rglob("*")] yields for a path: its last component,
    whether it is a file, and its size ([None] where [stat] raises). *)
Record dir_entry : Type := DirEntry {
  d_name : str;
  d_is_file : bool;
  d_size : option Z
}.

(** [exts[ext] = exts.get(ext, 0) + 1] on a dictionary, whose items keep
    the order in which the keys were first inserted. *)
Fixpoint bump (ext : str) (exts : list (str * nat)) : list (str * nat) :=
  match exts with
  | [] => [(ext, 1%nat)]
  | (k, n) :: t => if str_eqb k ext then (k, S n) :: t
                   else (k, n) :: bump ext t
  end.

(** [max(items, key=count)] from a first item on: the first of the items
    with the greatest count. *)
Fixpoint max_first (best : str * nat) (l : list (str * nat)) : str * nat :=
  match l with
  | [] => best
  | x :: t => if (snd best <? snd x)%nat then max_first x t
              else max_first best t
  end.

(** [ext.lstrip(".")] *)
Fixpoint lstrip_dots (s : str) : str :=
  match s with
  | c :: t => if c =? ch "." then lstrip_dots t else s
  | [] => []
  end.

Definition language_table : list (str * str) := [
  (py ".py", py "python"); (py ".js", py "javascript");
  (py ".ts", py "typescript"); (py ".go", py "go"); (py ".rb", py "ruby");
  (py ".rs", py "rust"); (py ".java", py "java"); (py ".cpp", py "cpp");
  (py ".c", py "c"); (py ".cs", py "csharp"); (py ".php", py "php")
].

Fixpoint assoc (k : str) (l : list (str * str)) : option str :=
  match l with
  | [] => None
  | (k', v) :: t => if str_eqb k' k then Some v else assoc k t
  end.

(** [table.get(ext, ext.lstrip("."))] *)
Definition language_of (ext : str) : str :=
  default (lstrip_dots ext) (assoc ext language_table).

Section PrimaryLanguage.

(** [p.suffix.lower()] for a path with the given last component: [pathlib]
    and the Unicode tables, not part of the program. *)
Variable suffix_lower : str -> str.

(** The extension an entry is counted under, if it is counted. *)
Definition counted (e : dir_entry) : option str :=
  if d_is_file e && negb (is_prefix (py ".") (d_name e)) then
    match d_size e with
    | Some n =>
      if (n <? 2000000)%Z then
        match suffix_lower (d_name e) with
        | [] => None
        | ext => Some ext
        end
      else None
    | None => None
    end
  else None.

(** The dictionary [exts] after the loop. *)
Definition count_exts (entries : list dir_entry) : list (str * nat) :=
  fold_left (fun exts e =>
               match counted e with
               | Some ext => bump ext exts
               | None => exts
               end) entries [].

Definition _primary_language (entries : list dir_entry) : str :=
  match count_exts entries with
  | [] => py "unknown"
  | x :: t => language_of (fst (max_first x t))
  end.

End PrimaryLanguage.

(** * Part II: properties *)

(** ** What a match consumes *)

(** The strings [r] can consume, whatever the context: lookarounds consume
    nothing and a backreference is left unconstrained. *)
Fixpoint lang (r : re) (c : str) : Prop :=
  match r with
  | Chr p => exists x, c = [x] /\ p x = true
  | Seq a b => exists c1 c2, c = c1 ++ c2 /\ lang a c1 /\ lang b c2
  | Alt a b => lang a c \/ lang b c
  | Rep p lo _ => forallb p c = true /\ (lo <= length c)%nat
  | Opt a => lang a c \/ c = []
  | Grp _ a => lang a c
  | Bref _ => True
  | WordB | NotBehind _ | NotAhead _ => c = []
  end.

Fixpoint min_len (r : re) : nat :=
  match r with
  | Chr _ => 1
  | Seq a b => min_len a + min_len b
  | Alt a b => Nat.min (min_len a) (min_len b)
  | Rep _ lo _ => lo
  | Grp _ a => min_len a
  | Opt _ | Bref _ | WordB | NotBehind _ | NotAhead _ => 0
  end.

Fixpoint no_grp (r : re) : bool :=
  match r with
  | Seq a b | Alt a b => no_grp a && no_grp b
  | Opt a => no_grp a
  | Grp _ _ => false
  | _ => true
  end.

Lemma lang_min_len r : forall c, lang r c -> (min_len r <= length c)%nat.
Proof.
  induction r; simpl; intros c H.
  - destruct H as (x & -> & _). simpl. lia.
  - destruct H as (c1 & c2 & -> & H1 & H2).
    apply IHr1 in H1. apply IHr2 in H2. rewrite length_app. lia.
  - destruct H as [H | H]; [apply IHr1 in H | apply IHr2 in H]; lia.
  - tauto.
  - lia.
  - auto.
  - lia.
  - lia.
  - lia.
  - lia.
Qed.

Lemma span_le p : forall s hi, (span p hi s <= length s)%nat.
Proof.
  induction s as [|c t IH]; intros hi; simpl.
  - destruct hi as [[|n]|]; simpl; lia.
  - destruct hi as [[|n]|]; simpl; try lia.
    + destruct (p c); simpl; [specialize (IH (Some n)); lia | lia].
    + destruct (p c); simpl; [specialize (IH None); lia | lia].
Qed.

Lemma span_forallb p : forall s hi n,
  (n <= span p hi s)%nat -> forallb p (take n s) = true.
Proof.
  induction s as [|c t IH]; intros hi n Hn.
  - destruct n; reflexivity.
  - destruct n as [|n]; [reflexivity|].
    simpl in Hn. destruct hi as [[|k]|]; simpl in Hn; try lia.
    + destruct (p c) eqn:E; [|lia]. simpl. rewrite E. simpl.
      apply (IH (Some k)). lia.
    + destruct (p c) eqn:E; [|lia]. simpl. rewrite E. simpl.
      apply (IH None). lia.
Qed.

Lemma in_desc n lo k : In n (rev (seq lo (S k - lo))) -> (lo <= n <= k)%nat.
Proof. rewrite <- in_rev, in_seq. lia. Qed.

Lemma advance_rest n st : m_rest (advance n st) = drop n (m_rest st).
Proof. reflexivity. Qed.

Lemma advance_grp n st : m_grp (advance n st) = m_grp st.
Proof. reflexivity. Qed.

Section MatcherFacts.

Variable uni_alnum : N -> bool.

Lemma run_lang r : forall st st',
  In st' (run uni_alnum r st) ->
  exists c, m_rest st = c ++ m_rest st' /\ lang r c.
Proof.
  induction r; simpl; intros st st' H.
  - destruct (m_rest st) as [|c t] eqn:E; [contradiction|].
    destruct (p c) eqn:Ep; [|contradiction].
    destruct H as [<-|[]]. exists [c]. rewrite advance_rest, E. simpl.
    rewrite drop_0. eauto.
  - apply in_flat_map in H as (s1 & H1 & H2).
    apply IHr1 in H1 as (c1 & E1 & L1). apply IHr2 in H2 as (c2 & E2 & L2).
    exists (c1 ++ c2). rewrite E1, E2, app_assoc. eauto 6.
  - apply in_app_iff in H as [H | H].
    + apply IHr1 in H as (c & E & L). eauto.
    + apply IHr2 in H as (c & E & L). eauto.
  - apply in_map_iff in H as (n & <- & Hn). apply in_desc in Hn.
    pose proof (span_le p (m_rest st) hi).
    exists (take n (m_rest st)). rewrite advance_rest, take_drop.
    repeat split.
    + apply (span_forallb p _ hi). lia.
    + rewrite length_take. lia.
  - apply in_app_iff in H as [H | [<- | []]].
    + apply IHr in H as (c & E & L). eauto.
    + exists []. auto.
  - apply in_map_iff in H as (s1 & <- & H1). simpl.
    apply IHr in H1 as (c & E & L). eauto.
  - destruct (group n (m_grp st)) as [g|]; [|contradiction].
    destruct (is_prefix g (m_rest st)); [|contradiction].
    destruct H as [<-|[]]. exists (take (length g) (m_rest st)).
    rewrite advance_rest, take_drop. auto.
  - destruct (xorb _ _); [|contradiction]. destruct H as [<-|[]]. exists []. auto.
  - destruct (m_prev st) as [c|]; [destruct (p c)|]; try contradiction;
      destruct H as [<-|[]]; exists []; auto.
  - destruct (m_rest st) as [|c t] eqn:E; [|destruct (p c)]; try contradiction;
      destruct H as [<-|[]]; exists []; rewrite ?E; auto.
Qed.

Lemma run_no_grp r : forall st st',
  no_grp r = true -> In st' (run uni_alnum r st) -> m_grp st' = m_grp st.
Proof.
  induction r; simpl; intros st st' G H; try discriminate.
  - destruct (m_rest st) as [|c t]; [contradiction|].
    destruct (p c); [|contradiction]. destruct H as [<-|[]]. reflexivity.
  - apply andb_true_iff in G as [G1 G2].
    apply in_flat_map in H as (s1 & H1 & H2).
    rewrite (IHr2 _ _ G2 H2). eauto.
  - apply andb_true_iff in G as [G1 G2].
    apply in_app_iff in H as [H | H]; eauto.
  - apply in_map_iff in H as (n & <- & _). reflexivity.
  - apply in_app_iff in H as [H | [<- | []]]; eauto.
  - destruct (group n (m_grp st)) as [g|]; [|contradiction].
    destruct (is_prefix g (m_rest st)); [|contradiction].
    destruct H as [<-|[]]. reflexivity.
  - destruct (xorb _ _); [|contradiction]. destruct H as [<-|[]]. reflexivity.
  - destruct (m_prev st) as [c|]; [destruct (p c)|]; try contradiction;
      destruct H as [<-|[]]; reflexivity.
  - destruct (m_rest st) as [|c t]; [|destruct (p c)]; try contradiction;
      destruct H as [<-|[]]; reflexivity.
Qed.

(** A match consumes at least [min_len r] characters. *)
Lemma run_min_len r st st' :
  In st' (run uni_alnum r st) ->
  (length (m_rest st') + min_len r <= length (m_rest st))%nat.
Proof.
  intros H. apply run_lang in H as (c & -> & L).
  apply lang_min_len in L. rewrite length_app. lia.
Qed.

Lemma run_Grp n a st s1 :
  no_grp a = true -> In s1 (run uni_alnum (Grp n a) st) ->
  exists c, m_rest st = c ++ m_rest s1 /\ lang a c /\
            m_grp s1 = (n, c) :: m_grp st.
Proof.
  simpl. intros G H. apply in_map_iff in H as (x & <- & H). simpl.
  pose proof (run_no_grp _ _ _ G H) as Eg.
  apply run_lang in H as (c & E & L). exists c. rewrite E, Eg.
  repeat split; auto. f_equal. f_equal.
  rewrite length_app, Nat.add_sub. apply take_app_length.
Qed.

(** Both key/value patterns have the shape [(A)(B)(C)(D)]. *)
Definition four (A B C D : re) : re :=
  Seq (Grp 1 A) (Seq (Grp 2 B) (Seq (Grp 3 C) (Grp 4 D))).

Lemma run_four A B C D st m :
  no_grp A = true -> no_grp B = true -> no_grp C = true -> no_grp D = true ->
  In m (run uni_alnum (four A B C D) st) ->
  exists g1 g2 g3 g4,
    m_rest st = g1 ++ g2 ++ g3 ++ g4 ++ m_rest m /\
    lang A g1 /\ lang B g2 /\ lang C g3 /\ lang D g4 /\
    m_grp m = (4%nat, g4) :: (3%nat, g3) :: (2%nat, g2) :: (1%nat, g1) :: m_grp st.
Proof.
  intros GA GB GC GD H. unfold four in H.
  change (run uni_alnum (Seq ?a ?b) ?s)
    with (flat_map (run uni_alnum b) (run uni_alnum a s)) in H.
  apply in_flat_map in H as (s1 & H1 & H).
  change (run uni_alnum (Seq ?a ?b) ?s)
    with (flat_map (run uni_alnum b) (run uni_alnum a s)) in H.
  apply in_flat_map in H as (s2 & H2 & H).
  change (run uni_alnum (Seq ?a ?b) ?s)
    with (flat_map (run uni_alnum b) (run uni_alnum a s)) in H.
  apply in_flat_map in H as (s3 & H3 & H4).
  apply run_Grp in H1 as (g1 & E1 & L1 & G1); [|assumption].
  apply run_Grp in H2 as (g2 & E2 & L2 & G2); [|assumption].
  apply run_Grp in H3 as (g3 & E3 & L3 & G3); [|assumption].
  apply run_Grp in H4 as (g4 & E4 & L4 & G4); [|assumption].
  exists g1, g2, g3, g4. rewrite E1, E2, E3, E4, G4, G3, G2, G1. auto 10.
Qed.

(** A replacement that is shorter than what it replaces makes [sub] either
    leave the text alone or shorten it. *)
Lemma sub_go_shrinks r rp :
  (forall prev s m, head (run uni_alnum r (Mst prev s [])) = Some m ->
     (length (rp m) < length s - length (m_rest m))%nat) ->
  forall s prev skip, (skip <= length s)%nat ->
    let '(o, b) := sub_go uni_alnum r rp prev s skip in
    if b then (length o + skip < length s)%nat else o = drop skip s.
Proof.
  intros Hrp. induction s as [|c t IH]; intros prev skip Hs.
  - simpl. destruct skip; reflexivity.
  - simpl in Hs. destruct skip as [|k].
    + cbn [sub_go].
      destruct (head (run uni_alnum r (Mst prev (c :: t) []))) as [m|] eqn:Hm.
      * apply Hrp in Hm.
        destruct (length (c :: t) - length (m_rest m))%nat as [|k] eqn:Ek.
        -- specialize (IH (Some c) 0%nat ltac:(lia)).
           destruct (sub_go uni_alnum r rp (Some c) t 0) as [o b].
           destruct b; simpl; [lia | rewrite IH, drop_0; reflexivity].
        -- simpl in Ek. specialize (IH (Some c) k ltac:(lia)).
           destruct (sub_go uni_alnum r rp (Some c) t k) as [o b].
           rewrite length_app. simpl.
           assert (length o + k <= length t)%nat.
           { destruct b; [lia | subst o; rewrite length_drop; lia]. }
           lia.
      * specialize (IH (Some c) 0%nat ltac:(lia)).
        destruct (sub_go uni_alnum r rp (Some c) t 0) as [o b].
        destruct b; simpl; [lia | rewrite IH, drop_0; reflexivity].
    + cbn [sub_go]. specialize (IH (Some c) k ltac:(lia)).
      destruct (sub_go uni_alnum r rp (Some c) t k) as [o b].
      destruct b; simpl; [lia | assumption].
Qed.

Lemma sub_shrinks r rp s :
  (forall prev s m, head (run uni_alnum r (Mst prev s [])) = Some m ->
     (length (rp m) < length s - length (m_rest m))%nat) ->
  let '(o, b) := sub uni_alnum r rp s in
  if b then (length o < length s)%nat else o = s.
Proof.
  intros H. pose proof (sub_go_shrinks r rp H s None 0%nat ltac:(lia)) as P.
  unfold sub. destruct (sub_go uni_alnum r rp None s 0) as [o b].
  destruct b; [lia | rewrite P, drop_0; reflexivity].
Qed.

Lemma head_In {A} (l : list A) x : head l = Some x -> In x l.
Proof. destruct l; simpl; [discriminate | intros [= ->]; auto]. Qed.

Lemma api_key_length : length api_key = 7%nat.
Proof. reflexivity. Qed.

Lemma repl_four m g1 g2 g3 g4 g :
  m_grp m = (4%nat, g4) :: (3%nat, g3) :: (2%nat, g2) :: (1%nat, g1) :: g ->
  repl 1 2 4 m = g1 ++ g2 ++ api_key ++ g4.
Proof. intros G. unfold repl. rewrite G. reflexivity. Qed.

(** The replacement of a key/value match is shorter than the match. *)
Lemma repl_shorter A B C D prev s m :
  no_grp A = true -> no_grp B = true -> no_grp C = true -> no_grp D = true ->
  (7 < min_len C)%nat ->
  head (run uni_alnum (four A B C D) (Mst prev s [])) = Some m ->
  (length (repl 1 2 4 m) < length s - length (m_rest m))%nat.
Proof.
  intros GA GB GC GD HC H. apply head_In in H.
  apply run_four in H as (g1 & g2 & g3 & g4 & E & _ & _ & L3 & _ & G);
    try assumption.
  simpl in E. subst s. rewrite (repl_four _ _ _ _ _ _ G).
  apply lang_min_len in L3.
  rewrite !length_app, api_key_length. lia.
Qed.

Lemma kv1_shorter prev s m :
  head (run uni_alnum kv1 (Mst prev s [])) = Some m ->
  (length (repl 1 2 4 m) < length s - length (m_rest m))%nat.
Proof. apply repl_shorter; try reflexivity. simpl. lia. Qed.

Lemma kv2_shorter prev s m :
  head (run uni_alnum kv2 (Mst prev s [])) = Some m ->
  (length (repl 1 2 4 m) < length s - length (m_rest m))%nat.
Proof. apply repl_shorter; try reflexivity. simpl. lia. Qed.

Lemma token_min_len : min_len token_union = 11%nat.
Proof. reflexivity. Qed.

Lemma token_shorter prev s m :
  head (run uni_alnum token_union (Mst prev s [])) = Some m ->
  (length api_key < length s - length (m_rest m))%nat.
Proof.
  intros H. apply head_In, run_min_len in H. simpl m_rest in H.
  rewrite token_min_len in H. rewrite api_key_length. lia.
Qed.

(** Where the text stands after some of the passes: untouched and not
    flagged, or flagged and strictly shorter than the input. *)
Definition tracked (s0 : str) (acc : str * bool) : Prop :=
  (snd acc = false /\ fst acc = s0) \/
  (snd acc = true /\ (length (fst acc) < length s0)%nat).

Lemma str_eqb_refl s : str_eqb s s = true.
Proof. unfold str_eqb. apply bool_decide_eq_true. reflexivity. Qed.

Lemma str_eqb_length a b : length a <> length b -> str_eqb a b = false.
Proof.
  intros H. unfold str_eqb. apply bool_decide_eq_false. congruence.
Qed.

Lemma kv_step_tracked s0 acc p :
  In p (KV_VALUE_PATTERNS) -> tracked s0 acc ->
  tracked s0 (kv_step uni_alnum acc p).
Proof.
  intros Hp T. destruct acc as [s ch]. unfold kv_step.
  assert (forall prev s m,
    head (run uni_alnum (fst (fst (fst (fst p)))) (Mst prev s [])) = Some m ->
    (length (repl (snd (fst (fst (fst p)))) (snd (fst (fst p))) (snd p) m)
       < length s - length (m_rest m))%nat) as Hs.
  { destruct Hp as [<-|[<-|[]]]; simpl; [apply kv1_shorter | apply kv2_shorter]. }
  destruct p as [[[[rx gp] go] gv] gs]. simpl in Hs.
  pose proof (sub_shrinks rx (repl gp go gs) s Hs) as P.
  destruct (sub uni_alnum rx (repl gp go gs) s) as [s2 called].
  unfold tracked in *. simpl in *.
  destruct called.
  - right. rewrite orb_true_r. simpl. split; [reflexivity|].
    destruct T as [[_ ->]|[_ T]]; lia.
  - subst s2. rewrite str_eqb_refl, !orb_false_r. simpl.
    destruct T as [[-> ->]|[-> T]]; auto.
Qed.

Lemma kv_pass_tracked s : tracked s (kv_pass uni_alnum s).
Proof.
  unfold kv_pass.
  assert (tracked s (s, false)) as T by (left; auto).
  revert T. generalize (s, false).
  assert (forall p, In p KV_VALUE_PATTERNS -> In p KV_VALUE_PATTERNS) as Hin
    by auto.
  revert Hin. generalize KV_VALUE_PATTERNS at 1 3.
  induction l as [|p l IH]; intros Hin acc T; simpl; [assumption|].
  apply IH; [intros q Hq; apply Hin; right; assumption|].
  apply kv_step_tracked; [apply Hin; left; reflexivity | assumption].
Qed.

Lemma _sanitize_text_tracked s : tracked s (_sanitize_text uni_alnum s).
Proof.
  unfold _sanitize_text. pose proof (kv_pass_tracked s) as T.
  destruct (kv_pass uni_alnum s) as [s1 ch].
  pose proof (sub_shrinks token_union (fun _ => api_key) s1 token_shorter) as P.
  destruct (sub uni_alnum token_union (fun _ => api_key) s1) as [s2 called].
  unfold tracked in *. simpl in *.
  destruct called.
  - right. rewrite str_eqb_length by lia. simpl. split; [reflexivity|].
    destruct T as [[_ ->]|[_ T]]; lia.
  - subst s2. rewrite str_eqb_refl. simpl. assumption.
Qed.

(** *** Computing the first match on a text given by its parts *)

(** [r] matches at [st], and its first match leaves [rest'] with the
    groups [grp']. *)
Definition first_is (r : re) (st : mst) (rest' : str)
    (grp' : list (nat * str)) : Prop :=
  exists s', head (run uni_alnum r st) = Some s' /\
             m_rest s' = rest' /\ m_grp s' = grp'.

Lemma span_app p c : forall r,
  forallb p c = true ->
  (forall x, head r = Some x -> p x = false) ->
  span p None (c ++ r) = length c.
Proof.
  induction c as [|x c IH]; intros r Hc Hr; simpl.
  - destruct r as [|y r]; [reflexivity|]. simpl. rewrite (Hr y); reflexivity.
  - simpl in Hc. apply andb_true_iff in Hc as [-> Hc]. f_equal. auto.
Qed.

Lemma first_Rep p lo st c r :
  m_rest st = c ++ r -> forallb p c = true ->
  (forall x, head r = Some x -> p x = false) ->
  (lo <= length c)%nat ->
  first_is (Rep p lo None) st r (m_grp st).
Proof.
  intros E Hc Hr Hlo. unfold first_is. simpl.
  rewrite E, span_app by assumption.
  replace (S (length c) - lo)%nat with (S (length c - lo)) by lia.
  rewrite seq_S, rev_app_distr. simpl.
  replace (lo + (length c - lo))%nat with (length c) by lia.
  eexists. split; [reflexivity|]. split; [|reflexivity].
  rewrite advance_rest, E. apply drop_app_length.
Qed.

Lemma first_Chr p st x r :
  m_rest st = x :: r -> p x = true -> first_is (Chr p) st r (m_grp st).
Proof.
  intros E Hx. unfold first_is. simpl. rewrite E, Hx.
  eexists. split; [reflexivity|]. split; [|reflexivity].
  rewrite advance_rest, E. reflexivity.
Qed.

Lemma first_Seq a b st r1 g1 r2 g2 :
  first_is a st r1 g1 ->
  (forall s1, m_rest s1 = r1 -> m_grp s1 = g1 -> first_is b s1 r2 g2) ->
  first_is (Seq a b) st r2 g2.
Proof.
  intros (s1 & H1 & E1 & G1) Hb.
  destruct (Hb s1 E1 G1) as (s2 & H2 & E2 & G2).
  exists s2. split; [|auto]. simpl.
  destruct (run uni_alnum a st) as [|x l]; [discriminate|].
  simpl in H1. injection H1 as ->. simpl.
  destruct (run uni_alnum b s1) as [|y l']; [discriminate|].
  simpl in *. assumption.
Qed.

Lemma first_Grp n a st c r1 g1 :
  first_is a st r1 g1 -> m_rest st = c ++ r1 ->
  first_is (Grp n a) st r1 ((n, c) :: g1).
Proof.
  intros (s1 & H1 & E1 & G1) E. unfold first_is. simpl.
  destruct (run uni_alnum a st) as [|x l]; [discriminate|].
  simpl in H1. injection H1 as ->. simpl.
  eexists. split; [reflexivity|]. simpl. split; [assumption|].
  rewrite E1, G1, E, length_app, Nat.add_sub, take_app_length. reflexivity.
Qed.

Lemma first_Opt_hit a st r g : first_is a st r g -> first_is (Opt a) st r g.
Proof.
  intros (s1 & H1 & E1 & G1). exists s1. split; [|auto]. simpl.
  destruct (run uni_alnum a st); [discriminate|]. assumption.
Qed.

Lemma first_Opt_miss a st :
  run uni_alnum a st = [] -> first_is (Opt a) st (m_rest st) (m_grp st).
Proof. intros E. exists st. simpl. rewrite E. auto. Qed.

Lemma first_Bref n st g r :
  group n (m_grp st) = Some g -> m_rest st = g ++ r ->
  first_is (Bref n) st r (m_grp st).
Proof.
  intros G E. unfold first_is. simpl. rewrite G.
  unfold is_prefix. rewrite E, take_app_length, str_eqb_refl.
  eexists. split; [reflexivity|]. split; [|reflexivity].
  rewrite advance_rest, E. apply drop_app_length.
Qed.

(** *** [sub] when the pattern matches nowhere, and when it matches all *)

Lemma sub_go_skip_all r rp : forall s prev skip,
  (length s <= skip)%nat -> sub_go uni_alnum r rp prev s skip = ([], false).
Proof.
  induction s as [|c t IH]; intros prev skip H; [reflexivity|].
  simpl in H. destruct skip as [|k]; [lia|]. simpl. apply IH. lia.
Qed.

Lemma sub_go_nomatch r rp : forall s prev,
  (forall pre suf, s = pre ++ suf ->
     forall pv, run uni_alnum r (Mst pv suf []) = []) ->
  sub_go uni_alnum r rp prev s 0 = (s, false).
Proof.
  induction s as [|c t IH]; intros prev H; [reflexivity|].
  cbn [sub_go]. rewrite (H [] (c :: t) eq_refl prev). simpl.
  rewrite IH; [reflexivity|].
  intros pre suf -> pv. apply (H (c :: pre) suf). reflexivity.
Qed.

Lemma sub_nomatch r rp s :
  (forall pre suf, s = pre ++ suf ->
     forall pv, run uni_alnum r (Mst pv suf []) = []) ->
  sub uni_alnum r rp s = (s, false).
Proof. apply sub_go_nomatch. Qed.

Lemma sub_whole r rp s g :
  s <> [] -> first_is r (Mst None s []) [] g ->
  exists m, m_grp m = g /\ sub uni_alnum r rp s = (rp m, true).
Proof.
  intros Hs (m & H & E & G). exists m. split; [assumption|].
  unfold sub. destruct s as [|c t]; [congruence|].
  cbn [sub_go]. rewrite H, E. simpl length. rewrite Nat.sub_0_r.
  rewrite sub_go_skip_all by lia. rewrite app_nil_r. reflexivity.
Qed.

End MatcherFacts.

(** *** Disjointness of the character classes *)

Ltac cls_unfold :=
  cbv [name_cls val_cls op_cls quote_cls quote3_cls is_space alnum_ascii
       upper_az lower_az digit rng one_of existsb py map list_ascii_of_string
       ch dquote squote backtick icase_extra ci] in *;
  repeat match goal with
         | |- context [N_of_ascii ?a] =>
           let v := eval vm_compute in (N_of_ascii a) in
           change (N_of_ascii a) with v
         end.

Ltac cls_prop :=
  rewrite ?orb_true_iff, ?andb_true_iff, ?N.leb_le, ?N.eqb_eq in *.

Ltac cls_excl :=
  let H := fresh in let H2 := fresh in
  intros H; apply not_true_iff_false; intros H2; revert H H2;
  cls_unfold; cls_prop; lia.

Lemma space_not_name c : is_space c = true -> name_cls c = false.
Proof. cls_excl. Qed.

Lemma op_not_name c : op_cls c = true -> name_cls c = false.
Proof. cls_excl. Qed.

Lemma space_not_op c : is_space c = true -> op_cls c = false.
Proof. cls_excl. Qed.

Lemma name_not_op c : name_cls c = true -> op_cls c = false.
Proof. cls_excl. Qed.

Lemma val_not_space c : val_cls c = true -> is_space c = false.
Proof. cls_excl. Qed.

Lemma val_not_quote c : val_cls c = true -> quote_cls c = false.
Proof. cls_excl. Qed.

Lemma quote_not_space c : quote_cls c = true -> is_space c = false.
Proof. cls_excl. Qed.

Lemma quote_not_val c : quote_cls c = true -> val_cls c = false.
Proof. cls_excl. Qed.

Lemma quote_not_op c : quote_cls c = true -> op_cls c = false.
Proof. cls_excl. Qed.

(** A text that is exactly one key/value occurrence. *)
Definition kv_line (name ws1 : str) (op : N) (ws2 q v : str) : str :=
  name ++ ws1 ++ [op] ++ ws2 ++ q ++ v ++ q.

Record kv_occurrence (name ws1 : str) (op : N) (ws2 q value : str) : Prop := {
  occ_name : forallb name_cls name = true;
  occ_name2 : (2 <= length name)%nat;
  occ_ws1 : forallb is_space ws1 = true;
  occ_op : op_cls op = true;
  occ_ws2 : forallb is_space ws2 = true;
  occ_q : q = [] \/ q = [dquote] \/ q = [squote];
  occ_val : forallb val_cls value = true;
  occ_val16 : (16 <= length value)%nat
}.

(** The blanket pass finds no vendor-shaped token in [s]. *)
Definition token_free (ua : N -> bool) (s : str) : Prop :=
  fst (sub ua token_union (fun _ => api_key) s) = s.

Lemma ci_s_not_space c : ci "s" c = true -> is_space c = false.
Proof. cls_excl. Qed.

Lemma ci_k_not_space c : ci "k" c = true -> is_space c = false.
Proof. cls_excl. Qed.

Lemma alnum_i_not_space c :
  alnum_ascii c || icase_extra c = true -> is_space c = false.
Proof. cls_excl. Qed.

Lemma head_app_or {A} (l r : list A) x :
  head (l ++ r) = Some x -> head l = Some x \/ (l = [] /\ head r = Some x).
Proof. destruct l; simpl; auto. Qed.

Lemma forallb_head {A} (P : A -> bool) l x :
  forallb P l = true -> head l = Some x -> P x = true.
Proof.
  destruct l; simpl; [discriminate|]. intros H [= ->].
  apply andb_true_iff in H. tauto.
Qed.

Lemma op_not_space c : op_cls c = true -> is_space c = false.
Proof.
  intros H. destruct (is_space c) eqn:E; [|reflexivity].
  apply space_not_op in E. congruence.
Qed.

Fixpoint cnt (P : N -> bool) (l : str) : nat :=
  match l with
  | [] => 0
  | c :: t => (if P c then 1 else 0) + cnt P t
  end.

Definition non_space (c : N) : bool := negb (is_space c).

Lemma cnt_app P l1 l2 : cnt P (l1 ++ l2) = (cnt P l1 + cnt P l2)%nat.
Proof. induction l1 as [|c t IH]; simpl; [reflexivity | rewrite IH; lia]. Qed.

Lemma cnt_le P l : (cnt P l <= length l)%nat.
Proof. induction l as [|c t IH]; simpl; [lia | destruct (P c); lia]. Qed.

Lemma cnt_all P l : forallb P l = true -> cnt P l = length l.
Proof.
  induction l as [|c t IH]; simpl; [reflexivity|].
  intros H. apply andb_true_iff in H as [-> H]. rewrite IH by assumption. lia.
Qed.

Lemma cnt_none P l : forallb (fun c => negb (P c)) l = true -> cnt P l = 0%nat.
Proof.
  induction l as [|c t IH]; simpl; [reflexivity|].
  intros H. apply andb_true_iff in H as [Hc H].
  apply negb_true_iff in Hc. rewrite Hc, IH by assumption. reflexivity.
Qed.

Lemma forallb_imp (P Q : N -> bool) l :
  (forall x, P x = true -> Q x = true) ->
  forallb P l = true -> forallb Q l = true.
Proof.
  intros H. induction l as [|c t IH]; simpl; [reflexivity|].
  intros E. apply andb_true_iff in E as [E1 E2].
  rewrite (H _ E1), IH by assumption. reflexivity.
Qed.

(** A text with a single character in [P] splits around it in one way. *)
Lemma split_unique (P : N -> bool) : forall l1 a l2 l1' a' l2',
  l1 ++ a :: l2 = l1' ++ a' :: l2' ->
  forallb (fun c => negb (P c)) l1 = true ->
  forallb (fun c => negb (P c)) l2 = true ->
  P a' = true -> l2 = l2'.
Proof.
  induction l1 as [|x l1 IH]; intros a l2 l1' a' l2' E H1 H2 Pa.
  - destruct l1' as [|b l1']; simpl in E; injection E as -> E; [assumption|].
    subst l2. rewrite forallb_app in H2. simpl in H2. rewrite Pa in H2.
    simpl in H2. rewrite andb_false_r in H2. discriminate.
  - simpl in H1. apply andb_true_iff in H1 as [Hx H1].
    destruct l1' as [|b l1']; simpl in E; injection E as -> E.
    + rewrite Pa in Hx. discriminate.
    + eapply IH; eassumption.
Qed.

Lemma lang_kv_head P g :
  lang (kv_head P) g ->
  exists x o sp, g = x ++ o :: sp /\ op_cls o = true.
Proof.
  simpl. intros (c1 & c2 & -> & _ & c3 & c4 & -> & _ & c5 & c6 & -> &
                 (o & -> & Ho) & _).
  exists (c1 ++ c3), o, c6. rewrite <- app_assoc. auto.
Qed.

Lemma run_Chr_miss ua p st :
  (forall x, head (m_rest st) = Some x -> p x = false) ->
  run ua (Chr p) st = [].
Proof.
  intros H. simpl. destruct (m_rest st) as [|c t]; [reflexivity|].
  rewrite (H c); reflexivity.
Qed.

Section KVLine.
Variable uni_alnum : N -> bool.
Variables (name ws1 : str) (op : N) (ws2 q value : str).
Hypothesis Hocc : kv_occurrence name ws1 op ws2 q value.

Lemma q_head_quote x : head q = Some x -> quote_cls x = true.
Proof.
  destruct (occ_q _ _ _ _ _ _ Hocc) as [-> | [-> | ->]]; simpl;
    [discriminate | intros [= <-]; reflexivity | intros [= <-]; reflexivity].
Qed.

Lemma after_q_not_space v x :
  (forall y, head v = Some y -> is_space y = false) ->
  head (q ++ v) = Some x -> is_space x = false.
Proof.
  intros Hv H. apply head_app_or in H as [H | [_ H]]; [|auto].
  apply quote_not_space, q_head_quote, H.
Qed.

Lemma kv_head_first st v :
  m_rest st = name ++ ws1 ++ [op] ++ ws2 ++ q ++ v ->
  (forall y, head v = Some y -> is_space y = false) ->
  first_is uni_alnum (kv_head name_cls) st (q ++ v) (m_grp st).
Proof.
  intros E Hv. destruct Hocc. unfold kv_head.
  eapply first_Seq.
  { eapply first_Rep; [exact E | assumption | | assumption].
    intros x H. apply head_app_or in H as [H | [_ H]].
    - apply space_not_name. eapply forallb_head; [|exact H]. assumption.
    - injection H as <-. apply op_not_name. assumption. }
  intros s1 E1 G1. rewrite <- G1. eapply first_Seq.
  { eapply first_Rep; [exact E1 | assumption | | lia].
    intros x [= <-]. apply op_not_space. assumption. }
  intros s2 E2 G2. rewrite <- G2. eapply first_Seq.
  { eapply first_Chr; [exact E2 | assumption]. }
  intros s3 E3 G3. rewrite <- G3.
  eapply first_Rep; [exact E3 | assumption | | lia].
  intros x H. eapply after_q_not_space; eassumption.
Qed.


Lemma value_head_val x : head value = Some x -> val_cls x = true.
Proof. apply forallb_head. apply Hocc. Qed.

Lemma q_not_val x : head q = Some x -> val_cls x = false.
Proof. intros H. apply quote_not_val, q_head_quote, H. Qed.

Definition kv_groups (v : str) : list (nat * str) :=
  [(4%nat, q); (3%nat, v); (2%nat, q);
   (1%nat, name ++ ws1 ++ [op] ++ ws2)].

(** On the occurrence, the first pattern matches the whole text. *)
Lemma kv1_first :
  first_is uni_alnum kv1 (Mst None (kv_line name ws1 op ws2 q value) [])
           [] (kv_groups value).
Proof.
  unfold kv1, kv_line, kv_groups.
  eapply first_Seq.
  { eapply first_Grp with (c := name ++ ws1 ++ [op] ++ ws2).
    - apply kv_head_first with (v := value ++ q); [reflexivity|].
      intros y H. apply head_app_or in H as [H | [_ H]].
      + apply val_not_space, value_head_val, H.
      + apply quote_not_space, q_head_quote, H.
    - simpl m_rest. rewrite <- !app_assoc. reflexivity. }
  intros s1 E1 G1. eapply first_Seq.
  { eapply first_Grp with (c := q); [|exact E1].
    destruct (occ_q _ _ _ _ _ _ Hocc) as [Eq | Eq].
    - replace (value ++ q) with (m_rest s1) by (rewrite E1, Eq; reflexivity).
      apply first_Opt_miss, run_Chr_miss. rewrite E1, Eq. simpl.
      intros x H. apply head_app_or in H as [H | [_ H]]; [|discriminate].
      apply val_not_quote, value_head_val, H.
    - apply first_Opt_hit.
      destruct Eq as [Eq | Eq]; rewrite Eq in E1 |- *;
        (eapply first_Chr; [exact E1 | reflexivity]). }
  intros s2 E2 G2. eapply first_Seq.
  { eapply first_Grp with (c := value).
    - eapply first_Rep with (c := value); [exact E2 | apply Hocc | | apply Hocc].
      intros x H. apply q_not_val, H.
    - exact E2. }
  intros s3 E3 G3.
  assert (m_grp s3 = [(3%nat, value); (2%nat, q);
                       (1%nat, name ++ ws1 ++ [op] ++ ws2)]) as G
    by (rewrite G3, G2, G1; reflexivity).
  rewrite <- G. eapply first_Grp with (c := q).
  - eapply first_Bref with (g := q).
    + rewrite G. reflexivity.
    + rewrite E3, app_nil_r. reflexivity.
  - rewrite E3, app_nil_r. reflexivity.
Qed.


(** The occurrence with [v] in the place of the value. *)
Lemma sub_kv1_line :
  sub uni_alnum kv1 (repl 1 2 4) (kv_line name ws1 op ws2 q value)
  = (kv_line name ws1 op ws2 q api_key, true).
Proof.
  assert (kv_line name ws1 op ws2 q value <> []) as Hne.
  { unfold kv_line. pose proof (occ_name2 _ _ _ _ _ _ Hocc) as H.
    intros E. apply (f_equal length) in E. rewrite length_app in E.
    simpl in E. lia. }
  destruct (sub_whole uni_alnum kv1 (repl 1 2 4) _ _ Hne kv1_first)
    as (m & G & ->).
  rewrite (repl_four _ _ _ _ _ _ G). unfold kv_line.
  rewrite <- !app_assoc. reflexivity.
Qed.

Lemma q_cases : q = [] \/ exists c, q = [c] /\ quote_cls c = true.
Proof.
  destruct (occ_q _ _ _ _ _ _ Hocc) as [-> | [-> | ->]]; eauto.
Qed.

Lemma redacted_no_op_left :
  forallb (fun c => negb (op_cls c)) (name ++ ws1) = true.
Proof.
  rewrite forallb_app. apply andb_true_iff. split.
  - eapply forallb_imp; [|apply Hocc]. intros x H.
    rewrite name_not_op; auto.
  - eapply forallb_imp; [|apply (occ_ws1 _ _ _ _ _ _ Hocc)]. intros x H.
    rewrite space_not_op; auto.
Qed.

Lemma redacted_no_op_right :
  forallb (fun c => negb (op_cls c)) (ws2 ++ q ++ api_key ++ q) = true.
Proof.
  assert (forallb (fun c => negb (op_cls c)) q = true) as Hq.
  { destruct q_cases as [-> | (c & -> & Hc)]; [reflexivity|].
    simpl. rewrite quote_not_op; auto. }
  rewrite !forallb_app. repeat (apply andb_true_iff; split);
    try assumption; try reflexivity.
  eapply forallb_imp; [|apply (occ_ws2 _ _ _ _ _ _ Hocc)]. intros x H.
  rewrite space_not_op; auto.
Qed.

Lemma redacted_tail_nonspace :
  (cnt non_space (ws2 ++ q ++ api_key ++ q) <= 9)%nat.
Proof.
  rewrite !cnt_app.
  rewrite (cnt_none non_space ws2).
  - assert (length q <= 1)%nat
      by (destruct q_cases as [-> | (c & -> & _)]; simpl; lia).
    pose proof (cnt_le non_space q).
    pose proof (cnt_le non_space api_key). rewrite api_key_length in *. lia.
  - eapply forallb_imp; [|apply (occ_ws2 _ _ _ _ _ _ Hocc)]. intros x H.
    unfold non_space. rewrite H. reflexivity.
Qed.

(** On the redacted occurrence, a pattern of the key/value shape whose
    value has ten or more characters, none of them white space, matches
    nowhere. *)
Lemma redacted_no_match A B C D :
  no_grp A = true -> no_grp B = true -> no_grp C = true -> no_grp D = true ->
  (forall g, lang A g -> exists x o sp, g = x ++ o :: sp /\ op_cls o = true) ->
  (forall g, lang C g -> (10 <= cnt non_space g)%nat) ->
  forall pre suf, kv_line name ws1 op ws2 q api_key = pre ++ suf ->
  forall pv, run uni_alnum (four A B C D) (Mst pv suf []) = [].
Proof.
  intros GA GB GC GD HA HC pre suf E pv.
  destruct (run uni_alnum (four A B C D) (Mst pv suf [])) as [|m l] eqn:R;
    [reflexivity|exfalso].
  assert (In m (run uni_alnum (four A B C D) (Mst pv suf []))) as H
    by (rewrite R; left; reflexivity).
  apply run_four in H as (g1 & g2 & g3 & g4 & Es & L1 & _ & L3 & _);
    try assumption.
  simpl in Es. apply HA in L1 as (x & o & sp & -> & Ho). apply HC in L3.
  assert (ws2 ++ q ++ api_key ++ q = sp ++ g2 ++ g3 ++ g4 ++ m_rest m) as T.
  { apply (split_unique op_cls (name ++ ws1) op _ (pre ++ x) o).
    - unfold kv_line in E. simpl in E. rewrite <- !app_assoc. simpl.
      rewrite E, Es, <- !app_assoc. reflexivity.
    - apply redacted_no_op_left.
    - apply redacted_no_op_right.
    - assumption. }
  pose proof redacted_tail_nonspace as Hn. rewrite T, !cnt_app in Hn. lia.
Qed.


Lemma kv1_value_nonspace g :
  lang (Rep val_cls 16 None) g -> (10 <= cnt non_space g)%nat.
Proof.
  simpl. intros [H L]. rewrite cnt_all; [lia|].
  eapply forallb_imp; [|exact H]. intros x Hx. unfold non_space.
  rewrite val_not_space; auto.
Qed.

Lemma kv2_value_nonspace g :
  lang (Seq (Chr (ci "s")) (Seq (Chr (ci "k")) (Seq (Lit "-")
         (Rep (fun c => alnum_ascii c || icase_extra c) 8 (Some 48%nat))))) g ->
  (10 <= cnt non_space g)%nat.
Proof.
  simpl. intros (c1 & c2 & -> & (x1 & -> & H1) & c3 & c4 & -> &
                 (x2 & -> & H2) & c5 & c6 & -> & _ & H & L).
  rewrite !cnt_app. simpl. unfold non_space at 1 2.
  rewrite (ci_s_not_space _ H1), (ci_k_not_space _ H2). simpl.
  rewrite (cnt_all non_space c6); [lia|].
  eapply forallb_imp; [|exact H]. intros x Hx. unfold non_space.
  rewrite alnum_i_not_space; auto.
Qed.

Lemma kv2_prefix_op g :
  lang (Seq (Opt (Seq (Chr (ci "e")) (Seq (Chr (ci "x")) (Seq (Chr (ci "p"))
              (Seq (Chr (ci "o")) (Seq (Chr (ci "r")) (Seq (Chr (ci "t"))
              (Rep is_space 1 None))))))))
            (kv_head (fun c => name_cls c || icase_extra c))) g ->
  exists x o sp, g = x ++ o :: sp /\ op_cls o = true.
Proof.
  intros (c1 & c2 & -> & _ & H).
  apply lang_kv_head in H as (x & o & sp & -> & Ho).
  exists (c1 ++ x), o, sp. rewrite <- app_assoc. auto.
Qed.

Lemma sub_kv1_redacted :
  sub uni_alnum kv1 (repl 1 2 4) (kv_line name ws1 op ws2 q api_key)
  = (kv_line name ws1 op ws2 q api_key, false).
Proof.
  apply sub_nomatch. apply redacted_no_match; try reflexivity.
  - apply lang_kv_head.
  - apply kv1_value_nonspace.
Qed.

Lemma sub_kv2_redacted :
  sub uni_alnum kv2 (repl 1 2 4) (kv_line name ws1 op ws2 q api_key)
  = (kv_line name ws1 op ws2 q api_key, false).
Proof.
  apply sub_nomatch. apply redacted_no_match; try reflexivity.
  - apply kv2_prefix_op.
  - apply kv2_value_nonspace.
Qed.

Hypothesis Htok : token_free uni_alnum (kv_line name ws1 op ws2 q api_key).

Lemma _sanitize_text_line :
  _sanitize_text uni_alnum (kv_line name ws1 op ws2 q value)
  = (kv_line name ws1 op ws2 q api_key, true).
Proof.
  unfold _sanitize_text, kv_pass, KV_VALUE_PATTERNS. cbn [fold_left].
  unfold kv_step at 2. rewrite sub_kv1_line. cbn [orb].
  unfold kv_step. rewrite sub_kv2_redacted, Htok, str_eqb_refl. reflexivity.
Qed.

Lemma _sanitize_text_redacted :
  _sanitize_text uni_alnum (kv_line name ws1 op ws2 q api_key)
  = (kv_line name ws1 op ws2 q api_key, false).
Proof.
  unfold _sanitize_text, kv_pass, KV_VALUE_PATTERNS. cbn [fold_left].
  unfold kv_step at 2. rewrite sub_kv1_redacted, str_eqb_refl. cbn [orb negb].
  unfold kv_step. rewrite sub_kv2_redacted, Htok, str_eqb_refl. reflexivity.
Qed.

End KVLine.


(** ** The pattern pass: the claims *)

(** A Unicode table for texts within ASCII: [is_word] consults it only
    above code point 127. *)
Definition ascii_only : N -> bool := fun _ => false.








(** ** The chunks of a text *)

Section Chunking.
Local Open Scope Z_scope.

(** The end of a chunk, in the coordinates of the whole text. *)
Definition chunk_end (c : Z * str) : Z := fst c + len (snd c).

(** What the loop appends from offset [i] on. *)
Inductive chain (s : str) (M O : Z) : Z -> list (Z * str) -> Prop :=
| chain_last i :
    len s <= i + M -> chain s M O i [(i, slice s i (len s))]
| chain_step i cs :
    i + M < len s -> chain s M O (i + M - O) cs ->
    chain s M O i ((i, slice s i (i + M)) :: cs).

Lemma slice_inside {A} (s : list A) i j :
  0 <= i <= j -> j <= len s ->
  slice s i j = take (Z.to_nat (j - i)) (drop (Z.to_nat i) s) /\
  len (slice s i j) = j - i.
Proof.
  intros Hi Hj. unfold slice, clip, len in *.
  destruct (Z.ltb_spec i 0); [lia|]. destruct (Z.ltb_spec j 0); [lia|].
  rewrite !Z.min_l by lia. split; [reflexivity|].
  rewrite length_take, length_drop. lia.
Qed.

Variables (M O : Z).
Hypothesis HO : 0 <= O < M.

Lemma chunk_loop_ends s : forall fuel i out,
  0 <= i < len s -> len s - i < Z.of_nat fuel ->
  exists cs, chunk_loop fuel s M O i out = Some (out ++ cs) /\ chain s M O i cs.
Proof.
  induction fuel as [|fuel IH]; intros i out Hi Hf; [lia|].
  cbn [chunk_loop]. destruct (Z.ltb_spec i (len s)); [|lia].
  destruct (Z.eqb_spec (Z.min (i + M) (len s)) (len s)) as [E|E].
  - rewrite E. eexists. split; [reflexivity|]. constructor. lia.
  - assert (i + M < len s) as Hlt by lia.
    rewrite Z.min_l by lia. rewrite Z.max_r by lia.
    destruct (IH (i + M - O) (out ++ [(i, slice s i (i + M))])) as (cs & -> & Hc);
      [lia | lia |].
    exists ((i, slice s i (i + M)) :: cs). rewrite <- app_assoc.
    split; [reflexivity|]. constructor; assumption.
Qed.

Lemma chain_head s i cs :
  chain s M O i cs -> exists c0, head cs = Some c0 /\ fst c0 = i.
Proof. intros [? H | ? ? H1 H2]; eexists; split; reflexivity. Qed.

Lemma chain_chunks s : forall i cs,
  chain s M O i cs -> 0 <= i < len s ->
  forall c, In c cs ->
    i <= fst c /\ snd c = slice s (fst c) (chunk_end c) /\
    chunk_end c <= len s /\ len (snd c) <= M.
Proof.
  induction 1 as [i H | i cs H Hc IH]; intros Hi c Hin.
  - destruct Hin as [<-|[]]. unfold chunk_end. simpl.
    destruct (slice_inside s i (len s)) as [_ E]; [lia | lia |].
    rewrite E. replace (i + (len s - i)) with (len s) by lia.
    repeat split; lia.
  - destruct Hin as [<-|Hin].
    + unfold chunk_end. simpl.
      destruct (slice_inside s i (i + M)) as [_ E]; [lia | lia |].
      rewrite E. replace (i + (i + M - i)) with (i + M) by lia.
      repeat split; lia.
    + destruct (IH ltac:(lia) c Hin) as (? & ? & ? & ?). repeat split; auto; lia.
Qed.

Lemma chain_next s : forall i cs,
  chain s M O i cs -> 0 <= i < len s ->
  forall k c c', cs !! k = Some c -> cs !! S k = Some c' ->
    fst c' = chunk_end c - O.
Proof.
  induction 1 as [i H | i cs H Hc IH]; intros Hi k c c' Hk Hk'.
  - destruct k; simpl in Hk'; discriminate.
  - destruct k as [|k].
    + simpl in Hk, Hk'. injection Hk as <-.
      destruct (chain_head _ _ _ Hc) as (c0 & E0 & F0).
      destruct cs as [|c1 cs']; [discriminate|]. simpl in E0, Hk'.
      injection E0 as ->. injection Hk' as <-. rewrite F0.
      unfold chunk_end. simpl.
      destruct (slice_inside s i (i + M)) as [_ E]; [lia | lia |]. lia.
    + simpl in Hk, Hk'. eapply IH; [lia | eassumption | eassumption].
Qed.

Lemma chain_last_end s : forall i cs,
  chain s M O i cs -> 0 <= i < len s ->
  exists cl, last cs = Some cl /\ chunk_end cl = len s.
Proof.
  induction 1 as [i H | i cs H Hc IH]; intros Hi.
  - eexists. split; [reflexivity|]. unfold chunk_end. simpl.
    destruct (slice_inside s i (len s)) as [_ E]; [lia | lia |]. lia.
  - destruct (IH ltac:(lia)) as (cl & El & Ee). exists cl. split; [|assumption].
    destruct cs as [|c1 cs']; [discriminate|]. exact El.
Qed.

(** A span no longer than the overlap lies within one chunk. *)
Lemma chain_contains s : forall i cs,
  chain s M O i cs -> 0 <= i < len s ->
  forall a b, i <= a <= b -> b <= len s -> b - a <= O ->
  exists c, In c cs /\ fst c <= a /\ b <= chunk_end c.
Proof.
  induction 1 as [i H | i cs H Hc IH]; intros Hi a b Ha Hb Hab.
  - eexists. split; [left; reflexivity|]. unfold chunk_end. simpl.
    destruct (slice_inside s i (len s)) as [_ E]; [lia | lia |]. lia.
  - destruct (Z_le_gt_dec b (i + M)) as [Hle | Hgt].
    + eexists. split; [left; reflexivity|]. unfold chunk_end. simpl.
      destruct (slice_inside s i (i + M)) as [_ E]; [lia | lia |]. lia.
    + destruct (IH ltac:(lia) a b ltac:(lia) Hb Hab) as (c & Hin & ?).
      exists c. split; [right; assumption | assumption].
Qed.

(** Every position of the text lies in a chunk. *)
Lemma chain_covers s : forall i cs,
  chain s M O i cs -> 0 <= i < len s ->
  forall p, i <= p < len s ->
  exists c, In c cs /\ fst c <= p < chunk_end c.
Proof.
  induction 1 as [i H | i cs H Hc IH]; intros Hi p Hp.
  - eexists. split; [left; reflexivity|]. unfold chunk_end. simpl.
    destruct (slice_inside s i (len s)) as [_ E]; [lia | lia |]. lia.
  - destruct (Z_lt_ge_dec p (i + M)) as [Hlt | Hge].
    + eexists. split; [left; reflexivity|]. unfold chunk_end. simpl.
      destruct (slice_inside s i (i + M)) as [_ E]; [lia | lia |]. lia.
    + destruct (IH ltac:(lia) p ltac:(lia)) as (c & Hin & ?).
      exists c. split; [right; assumption | assumption].
Qed.

Lemma _chunk_text_chain s :
  M < len s ->
  exists cs, _chunk_text s M O = Some cs /\ chain s M O 0 cs.
Proof.
  intros H. unfold _chunk_text. destruct (Z.leb_spec (len s) M); [lia|].
  destruct (chunk_loop_ends s (S (length s)) 0 []) as (cs & E & Hc).
  - lia.
  - unfold len. lia.
  - exists cs. split; assumption.
Qed.

End Chunking.

(** With an overlap that is not below [max_chars] the loop stays at
    offset 0 for ever. *)
Lemma chunk_loop_diverges s M O :
  (M <= O)%Z -> (M < len s)%Z -> (0 < len s)%Z ->
  forall fuel out, chunk_loop fuel s M O 0 out = None.
Proof.
  intros H1 H2 H3. induction fuel as [|fuel IH]; intros out; [reflexivity|].
  cbn [chunk_loop]. destruct (Z.ltb_spec 0 (len s)); [|lia].
  destruct (Z.eqb_spec (Z.min (0 + M) (len s)) (len s)); [lia|].
  rewrite Z.min_l by lia. rewrite Z.max_l by lia. apply IH.
Qed.

Example chunk_text_small :
  _chunk_text (py "abcdefghij") 4 1
  = Some [(0%Z, py "abcd"); (3%Z, py "defg"); (6%Z, py "ghij")].
Proof. reflexivity. Qed.

(** C7: with the default [max_chars = 60000] and [overlap = 200],
    [_chunk_text] returns; a text of at most 60000 characters gives the one
    chunk [(0, s)]; a longer text gives chunks that are the substrings at
    their offsets, starting at 0, each next one starting 200 characters
    before the end of the previous one, the last one ending at the end of
    the text; so every position is covered, and every span of at most 200
    characters lies within one chunk. *)
Theorem chunk_text_default (s : str) :
  exists cs, _chunk_text s 60000 200 = Some cs /\
    ((len s <= 60000)%Z -> cs = [(0%Z, s)]) /\
    ((60000 < len s)%Z ->
       (exists c0, head cs = Some c0 /\ fst c0 = 0%Z) /\
       (forall c, In c cs ->
          (0 <= fst c)%Z /\ snd c = slice s (fst c) (chunk_end c) /\
          (chunk_end c <= len s)%Z /\ (len (snd c) <= 60000)%Z) /\
       (forall k c c', cs !! k = Some c -> cs !! S k = Some c' ->
          fst c' = (chunk_end c - 200)%Z) /\
       (exists cl, last cs = Some cl /\ chunk_end cl = len s) /\
       (forall p, (0 <= p < len s)%Z ->
          exists c, In c cs /\ (fst c <= p < chunk_end c)%Z) /\
       (forall a b, (0 <= a <= b)%Z -> (b <= len s)%Z -> (b - a <= 200)%Z ->
          exists c, In c cs /\ (fst c <= a)%Z /\ (b <= chunk_end c)%Z)).
Proof.
  destruct (Z_le_gt_dec (len s) 60000) as [Hle | Hgt].
  - exists [(0%Z, s)]. split; [|split; [reflexivity | lia]].
    unfold _chunk_text. destruct (Z.leb_spec (len s) 60000); [reflexivity | lia].
  - destruct (_chunk_text_chain 60000 200 ltac:(lia) s ltac:(lia))
      as (cs & E & Hc).
    assert (0 <= 0 < len s)%Z as H0 by lia.
    exists cs. split; [assumption|]. split.
    + lia.
    + intros _. repeat split.
      * apply (chain_head _ _ _ _ _ Hc).
      * apply (chain_chunks 60000 200 ltac:(lia) _ _ _ Hc H0 c H).
      * apply (chain_chunks 60000 200 ltac:(lia) _ _ _ Hc H0 c H).
      * apply (chain_chunks 60000 200 ltac:(lia) _ _ _ Hc H0 c H).
      * apply (chain_chunks 60000 200 ltac:(lia) _ _ _ Hc H0 c H).
      * intros k c c'. apply (chain_next 60000 200 ltac:(lia) _ _ _ Hc H0).
      * apply (chain_last_end 60000 200 ltac:(lia) _ _ _ Hc H0).
      * apply (chain_covers 60000 200 ltac:(lia) _ _ _ Hc H0).
      * apply (chain_contains 60000 200 ltac:(lia) _ _ _ Hc H0).
Qed.

(** ** The findings kept *)

Section Findings.
Local Open Scope Z_scope.

(** [needle] occurs in [hay] at index [k]. *)
Definition occurs_at (needle hay : str) (k : nat) : Prop :=
  take (length needle) (drop k hay) = needle.

Lemma is_prefix_spec g s : is_prefix g s = true <-> take (length g) s = g.
Proof. unfold is_prefix, str_eqb. apply bool_decide_eq_true. Qed.

Lemma find_at_Some needle : forall hay k,
  find_at needle hay = Some k ->
  occurs_at needle hay k /\ (k + length needle <= length hay)%nat /\
  forall j, (j < k)%nat -> ~ occurs_at needle hay j.
Proof.
  induction hay as [|c t IH]; intros k H.
  - simpl in H. destruct (is_prefix needle []) eqn:E; [|discriminate].
    injection H as <-. apply is_prefix_spec in E.
    split; [exact E|]. split; [|lia].
    rewrite take_nil in E. subst needle. simpl. lia.
  - simpl in H. destruct (is_prefix needle (c :: t)) eqn:E.
    + injection H as <-. apply is_prefix_spec in E.
      split; [exact E|]. split; [|lia].
      apply (f_equal length) in E. rewrite length_take in E. lia.
    + destruct (find_at needle t) as [k'|] eqn:F; [|discriminate].
      simpl in H. injection H as <-.
      destruct (IH k' eq_refl) as (H1 & H2 & H3).
      split; [exact H1|]. split; [simpl; lia|].
      intros [|j] Hj.
      * unfold occurs_at. simpl. intros Ej. apply is_prefix_spec in Ej.
        congruence.
      * apply (H3 j). lia.
Qed.

Lemma find_at_None needle : forall hay,
  find_at needle hay = None -> forall j, ~ occurs_at needle hay j.
Proof.
  induction hay as [|c t IH]; intros H j.
  - simpl in H. destruct (is_prefix needle []) eqn:E; [discriminate|].
    unfold occurs_at. rewrite drop_nil. intros Ej.
    apply is_prefix_spec in Ej. congruence.
  - simpl in H. destruct (is_prefix needle (c :: t)) eqn:E; [discriminate|].
    destruct (find_at needle t) eqn:F; [discriminate|].
    destruct j as [|j].
    + unfold occurs_at. simpl. intros Ej. apply is_prefix_spec in Ej.
      congruence.
    + apply (IH eq_refl j).
Qed.

(** The span the code settles on for a finding whose declared span is
    valid: the first occurrence of the snippet in the chunk when the snippet
    is not empty, does not occur within the declared span and occurs in the
    chunk; the declared span otherwise. *)
Definition located (chunk : str) (f : finding) (s e : Z) : Prop :=
  let snip := f_snippet f in
  let declared := slice chunk (f_start f) (f_end f) in
  (snip <> [] /\ (forall j, ~ occurs_at snip declared j) /\
   exists k : nat, s = Z.of_nat k /\ e = s + len snip /\
     occurs_at snip chunk k /\ (s + len snip <= len chunk) /\
     forall j, (j < k)%nat -> ~ occurs_at snip chunk j)
  \/
  (s = f_start f /\ e = f_end f /\
   (snip = [] \/ (exists j, occurs_at snip declared j) \/
    (forall j, ~ occurs_at snip chunk j))).

Definition valid_span (chunk : str) (f : finding) : Prop :=
  0 <= f_start f < f_end f /\ f_end f < len chunk.

Lemma valid_span_dec chunk f :
  (0 <=? f_start f) && (f_start f <? f_end f) && (f_end f <? len chunk) = true
  <-> valid_span chunk f.
Proof.
  unfold valid_span. rewrite !andb_true_iff, Z.leb_le, !Z.ltb_lt. tauto.
Qed.

Lemma str_eqb_nil s : str_eqb s [] = true <-> s = [].
Proof. unfold str_eqb. apply bool_decide_eq_true. Qed.

(** The span and the candidate text the code settles on. *)
Lemma settle_located chunk f :
  exists s e,
    located chunk f s e /\
    (if negb (str_eqb (f_snippet f) []) &&
        negb (contains (f_snippet f) (slice chunk (f_start f) (f_end f)))
     then
       if negb (find chunk (f_snippet f) =? -1)
       then (find chunk (f_snippet f),
             find chunk (f_snippet f) + len (f_snippet f),
             slice chunk (find chunk (f_snippet f))
                   (find chunk (f_snippet f) + len (f_snippet f)))
       else (f_start f, f_end f, slice chunk (f_start f) (f_end f))
     else (f_start f, f_end f, slice chunk (f_start f) (f_end f)))
    = (s, e, slice chunk s e).
Proof.
  destruct (str_eqb (f_snippet f) []) eqn:En.
  { apply str_eqb_nil in En. exists (f_start f), (f_end f).
    split; [right; auto|reflexivity]. }
  assert (f_snippet f <> []) as Hn.
  { intros E. apply str_eqb_nil in E. congruence. }
  unfold contains, find.
  destruct (find_at (f_snippet f) (slice chunk (f_start f) (f_end f)))
    as [j|] eqn:Ec.
  { apply find_at_Some in Ec as (Hj & _). exists (f_start f), (f_end f).
    split; [right; eauto 6|reflexivity]. }
  simpl. destruct (find_at (f_snippet f) chunk) as [k|] eqn:Ef.
  - destruct (Z.eqb_spec (Z.of_nat k) (-1)); [lia|]. simpl.
    pose proof (find_at_None _ _ Ec) as Hnone.
    apply find_at_Some in Ef as (H1 & H2 & H3).
    exists (Z.of_nat k), (Z.of_nat k + len (f_snippet f)).
    split; [|reflexivity]. left. split; [assumption|]. split; [assumption|].
    exists k. unfold len. repeat split; auto. lia.
  - simpl. pose proof (find_at_None _ _ Ef) as Hnone.
    exists (f_start f), (f_end f). split; [right; auto|reflexivity].
Qed.

Lemma located_unique chunk f s e s' e' :
  located chunk f s e -> located chunk f s' e' -> s = s' /\ e = e'.
Proof.
  intros [(Hn & Hd & k & -> & -> & Hk & _ & Hmin) | (-> & -> & H)]
         [(Hn' & Hd' & k' & -> & -> & Hk' & _ & Hmin') | (-> & -> & H')].
  - assert (k = k') as ->; [|auto].
    destruct (Nat.lt_trichotomy k k') as [L | [L | L]]; [|assumption|].
    + exfalso. apply (Hmin' k L Hk).
    + exfalso. apply (Hmin k' L Hk').
  - exfalso. destruct H' as [E | [[j Hj] | Hno]];
      [congruence | apply (Hd j Hj) | apply (Hno k Hk)].
  - exfalso. destruct H as [E | [[j Hj] | Hno]];
      [congruence | apply (Hd' j Hj) | apply (Hno k' Hk')].
  - auto.
Qed.

(** C8, as stated, fails: a finding whose snippet occurs neither at the
    declared span nor anywhere else in the chunk keeps its declared span. *)
Lemma reconcile_keeps_unlocated :
  reconcile 100 (py "aaaaaaaaaaaaaaaaaaaa")
            (Finding 0 10 (py "token") [] (py "zzz")) = Some (100, 110) /\
  forall j, ~ occurs_at (py "zzz") (py "aaaaaaaaaaaaaaaaaaaa") j.
Proof.
  split; [reflexivity|]. apply find_at_None. reflexivity.
Qed.

(** C8, amended: a finding is kept only when its declared span satisfies
    [0 <= start < end < len(chunk)]; the span is then the declared one, or,
    when the snippet is not empty and does not occur within the declared
    span, the first occurrence of the snippet in the chunk, the declared span
    being kept when the snippet occurs nowhere; the finding is dropped when
    the text at the span, trimmed, has fewer than 8 characters, and kept
    otherwise; a kept finding gives the range [base + s, base + e). *)
Theorem reconcile_spec (base : Z) (chunk : str) (f : finding) :
  (forall a b, reconcile base chunk f = Some (a, b) ->
     valid_span chunk f /\
     exists s e, located chunk f s e /\ a = base + s /\ b = base + e /\
                 8 <= len (strip (slice chunk s e))) /\
  (reconcile base chunk f = None ->
     ~ valid_span chunk f \/
     exists s e, located chunk f s e /\ len (strip (slice chunk s e)) < 8) /\
  (forall s e, valid_span chunk f -> located chunk f s e ->
     8 <= len (strip (slice chunk s e)) ->
     reconcile base chunk f = Some (base + s, base + e)).
Proof.
  destruct (settle_located chunk f) as (s & e & Hl & E).
  unfold reconcile.
  destruct ((0 <=? f_start f) && (f_start f <? f_end f)
            && (f_end f <? len chunk)) eqn:V.
  - apply valid_span_dec in V. rewrite E.
    destruct (Z.leb_spec 8 (len (strip (slice chunk s e)))) as [H8|H8].
    + split; [|split]; [|discriminate|].
      * intros a b [= <- <-]. split; [assumption|]. exists s, e. auto.
      * intros s' e' _ Hl' _.
        destruct (located_unique _ _ _ _ _ _ Hl Hl') as [<- <-]. reflexivity.
    + split; [|split]; [discriminate| |].
      * intros _. right. exists s, e. auto.
      * intros s' e' _ Hl' H8'.
        destruct (located_unique _ _ _ _ _ _ Hl Hl') as [<- <-]. lia.
  - assert (~ valid_span chunk f) as Hv.
    { intros H. apply valid_span_dec in H. congruence. }
    split; [|split]; [discriminate|auto|tauto].
Qed.

Lemma reconcile_spec_witness :
  reconcile 1000 (py "xx secret=abcdefghijkl yy")
            (Finding 0 5 (py "token") [] (py "abcdefghijkl"))
  = Some (1000 + 10, 1000 + 22).
Proof.
  apply (proj2 (proj2 (reconcile_spec 1000 (py "xx secret=abcdefghijkl yy")
                         (Finding 0 5 (py "token") [] (py "abcdefghijkl")))) 10 22).
  - unfold valid_span. simpl. unfold len. simpl. lia.
  - left. split; [discriminate|]. split.
    + apply find_at_None. reflexivity.
    + exists 10%nat. split; [reflexivity|]. split; [reflexivity|].
      split; [reflexivity|]. split; [unfold len; simpl; lia|].
      intros j Hj.
      do 10 (destruct j as [|j]; [vm_compute; discriminate|]). lia.
  - vm_compute. discriminate.
Defined.

End Findings.

(** ** UTF-8: decoding undoes encoding *)

Ltac dlia := zify; Z.to_euclidean_division_equations; lia.

(** Decide the comparisons of the goal by arithmetic. *)
Ltac cmp_decide :=
  repeat match goal with
         | |- context [?a <=? ?b] =>
           first [ rewrite (proj2 (N.leb_le a b)) by dlia
                 | rewrite (proj2 (N.leb_gt a b)) by dlia ]
         | |- context [?a <? ?b] =>
           first [ rewrite (proj2 (N.ltb_lt a b)) by dlia
                 | rewrite (proj2 (N.ltb_ge a b)) by dlia ]
         end.

Lemma utf8_decode_char c bc rest :
  utf8_char c = Some bc ->
  utf8_decode (bc ++ rest) = cons c <$> utf8_decode rest.
Proof.
  unfold utf8_char, surrogate.
  destruct (N.ltb_spec c 128).
  { intros [= <-]. cbn [app utf8_decode]. cmp_decide. reflexivity. }
  destruct (N.ltb_spec c 2048).
  { intros [= <-]. cbn [app utf8_decode]. unfold cont. cmp_decide.
    cbn [andb]. f_equal. f_equal. dlia. }
  destruct (N.ltb_spec c 65536).
  { destruct (N.leb_spec 55296 c); destruct (N.leb_spec c 57343);
      cbn [andb]; try discriminate; try (exfalso; lia);
      intros [= <-]; cbn [app utf8_decode]; unfold cont, surrogate;
      replace ((224 + c / 4096 - 224) * 4096
               + (128 + (c / 64) mod 64 - 128) * 64 + (128 + c mod 64 - 128))
        with c by dlia;
      cmp_decide; reflexivity. }
  destruct (N.ltb_spec c 1114112); [|discriminate].
  intros [= <-]. cbn [app utf8_decode]. unfold cont.
  replace ((240 + c / 262144 - 240) * 262144
           + (128 + (c / 4096) mod 64 - 128) * 4096
           + (128 + (c / 64) mod 64 - 128) * 64 + (128 + c mod 64 - 128))
    with c by dlia.
  cmp_decide. reflexivity.
Qed.

(** Decoding undoes encoding. *)
Lemma utf8_decode_encode : forall s b,
  utf8_encode s = Some b -> utf8_decode b = Some s.
Proof.
  induction s as [|c t IH]; intros b H; simpl in H.
  - injection H as <-. reflexivity.
  - destruct (utf8_char c) as [bc|] eqn:Ec; [|discriminate].
    destruct (utf8_encode t) as [bt|]; [|discriminate].
    injection H as <-. rewrite (utf8_decode_char _ _ _ Ec), (IH bt eq_refl).
    reflexivity.
Qed.

(** A code point that [str.encode] accepts. *)
Definition encodable (c : N) : bool :=
  match utf8_char c with Some _ => true | None => false end.

Lemma utf8_encode_total : forall s,
  forallb encodable s = true -> exists b, utf8_encode s = Some b.
Proof.
  induction s as [|c t IH]; simpl; intros H; [eauto|].
  apply andb_true_iff in H as [Hc Ht]. unfold encodable in Hc.
  destruct (utf8_char c) as [bc|]; [|discriminate].
  destruct (IH Ht) as (bt & ->). eauto.
Qed.

Lemma encodable_small c : c < 55296 -> encodable c = true.
Proof.
  intros H. unfold encodable, utf8_char, surrogate.
  destruct (c <? 128); [reflexivity|]. destruct (c <? 2048); [reflexivity|].
  cmp_decide. reflexivity.
Qed.

Lemma utf8_decode_encodable : forall n b s,
  (length b <= n)%nat -> utf8_decode b = Some s ->
  forallb encodable s = true.
Proof.
  induction n as [|n IH]; intros b s Hn H.
  - destruct b; [|simpl in Hn; lia]. injection H as <-. reflexivity.
  - destruct b as [|b0 t]; [injection H as <-; reflexivity|].
    simpl in Hn. cbn [utf8_decode] in H.
    destruct (N.ltb_spec b0 128).
    { destruct (utf8_decode t) as [s'|] eqn:E; [|discriminate].
      injection H as <-. simpl. rewrite (IH t s') by (auto; lia).
      rewrite encodable_small by lia. reflexivity. }
    destruct ((194 <=? b0) && (b0 <=? 223)) eqn:E2.
    { destruct t as [|b1 t1]; [discriminate|].
      destruct (cont b1) eqn:C1; [|discriminate].
      destruct (utf8_decode t1) as [s'|] eqn:E; [|discriminate].
      injection H as <-. simpl in *. rewrite (IH t1 s') by (auto; lia).
      rewrite andb_true_r. apply encodable_small.
      unfold cont in C1. apply andb_true_iff in E2 as [? ?].
      apply andb_true_iff in C1 as [? ?].
      rewrite N.leb_le in *. lia. }
    destruct ((224 <=? b0) && (b0 <=? 239)) eqn:E3.
    { destruct t as [|b1 [|b2 t2]]; try discriminate.
      match type of H with
      | (if ?g then _ else _) = _ => destruct g eqn:G; [|discriminate]
      end.
      destruct (utf8_decode t2) as [s'|] eqn:E; [|discriminate].
      injection H as <-. simpl in Hn. cbn [forallb].
      rewrite (IH t2 s') by (auto; lia). rewrite andb_true_r.
      repeat (apply andb_true_iff in G as [G ?]).
      apply andb_true_iff in E3 as [? ?]. unfold cont in *.
      repeat match goal with
             | H : _ && _ = true |- _ => apply andb_true_iff in H as [? ?]
             end.
      rewrite N.leb_le in *.
      unfold encodable, utf8_char.
      match goal with H : negb ?x = true |- _ => apply negb_true_iff in H; rewrite H end.
      cmp_decide. reflexivity. }
    destruct ((240 <=? b0) && (b0 <=? 244)) eqn:E4; [|discriminate].
    destruct t as [|b1 [|b2 [|b3 t3]]]; try discriminate.
    match type of H with
    | (if ?g then _ else _) = _ => destruct g eqn:G; [|discriminate]
    end.
    destruct (utf8_decode t3) as [s'|] eqn:E; [|discriminate].
    injection H as <-. simpl in Hn. cbn [forallb].
    rewrite (IH t3 s') by (auto; lia). rewrite andb_true_r.
    repeat (apply andb_true_iff in G as [G ?]).
    rewrite N.leb_le in *.
    unfold encodable, utf8_char. cmp_decide. reflexivity.
Qed.

(** ** The fallback message *)

(** The service call failed: it raised, the reply is empty once stripped,
    or the reply has no first line once the fences are removed. *)
Definition reply_failed (reply : service_reply) : Prop :=
  match reply with
  | Raised => True
  | Replied text =>
    let msg := strip (default [] text) in
    msg = [] \/
    head (map rstrip (splitlines
            (if contains fence msg then strip (remove_fences msg) else msg)))
      = None \/
    head (map rstrip (splitlines
            (if contains fence msg then strip (remove_fences msg) else msg)))
      = Some []
  end.

Definition subject_plain : str := py "chore: commit staged changes".
Definition subject_security : str :=
  py "chore(security): sanitize secrets and commit changes".
Definition fallback_marker : str := py "- auto-generated message (fallback)".

Definition counts_line (staged : list (str * str)) : str :=
  py "- files: +" ++ dec (count_status "A" staged) ++ py " ~"
  ++ dec (count_status "M" staged) ++ py " -" ++ dec (count_status "D" staged).

Lemma normalize_reply_failed text :
  reply_failed (Replied text) -> normalize_reply text = None.
Proof.
  unfold reply_failed, normalize_reply.
  set (msg := strip (default [] text)).
  intros [E | H].
  - rewrite E. reflexivity.
  - destruct (str_eqb msg []); [reflexivity|].
    destruct (map rstrip (splitlines
                (if contains fence msg then strip (remove_fences msg) else msg)))
      as [|l0 rest]; [reflexivity|].
    destruct H as [H | H]; [discriminate|]. injection H as ->. reflexivity.
Qed.

Lemma sec_paths_empty sanitized llm_results :
  sec_paths sanitized llm_results = ∅ <-> sanitized = [] /\ llm_results = [].
Proof.
  unfold sec_paths. split.
  - intros H. split.
    + destruct sanitized as [|x t]; [reflexivity|]. exfalso.
      assert (s_path x ∈ (∅ : gset str)) as Hin; [|set_solver].
      rewrite <- H. simpl. set_solver.
    + destruct llm_results as [|x t]; [reflexivity|]. exfalso.
      assert (r_path x ∈ (∅ : gset str)) as Hin; [|set_solver].
      rewrite <- H. simpl. set_solver.
  - intros [-> ->]. simpl. set_solver.
Qed.

Lemma join_nonempty sep x t : x <> [] -> join sep (x :: t) <> [].
Proof.
  intros Hx. destruct x as [|c x]; [congruence|].
  destruct t; simpl; discriminate.
Qed.

Lemma _fallback_commit_message_nonempty staged sanitized llm_results :
  _fallback_commit_message staged sanitized llm_results <> [].
Proof.
  unfold _fallback_commit_message.
  destruct (bool_decide (sec_paths sanitized llm_results = ∅)); discriminate.
Qed.

Lemma normalize_reply_nonempty text msg :
  normalize_reply text = Some msg -> msg <> [].
Proof.
  unfold normalize_reply. destruct (str_eqb _ []); [discriminate|].
  destruct (map rstrip _) as [|l0 rest]; [discriminate|].
  destruct (str_eqb l0 []) eqn:E0; [discriminate|].
  assert (l0 <> []) as Hn.
  { intros ->. unfold str_eqb in E0. rewrite bool_decide_eq_false in E0.
    congruence. }
  assert ((if (72 <? length l0)%nat then take 72 l0 else l0) <> []) as Hx.
  { destruct (Nat.ltb_spec 72 (length l0)); [|assumption].
    destruct l0; [congruence|]. discriminate. }
  intros H. injection H as <-.
  apply (join_nonempty nl _ _ Hx).
Qed.

Lemma counts_guard (a m d : nat) (x : str) :
  (if negb (Nat.eqb a 0) || negb (Nat.eqb m 0) || negb (Nat.eqb d 0)
   then [x] else [])
  = (if bool_decide (a = 0%nat /\ m = 0%nat /\ d = 0%nat) then [] else [x]).
Proof.
  destruct (bool_decide (a = 0%nat /\ m = 0%nat /\ d = 0%nat)) eqn:E.
  - apply bool_decide_eq_true in E as (-> & -> & ->). reflexivity.
  - apply bool_decide_eq_false in E.
    destruct a, m, d; simpl; try reflexivity. exfalso. auto.
Qed.

(** C9, as stated, fails for the body: with staged entries that are
    neither added, modified nor deleted (a rename) the fallback body has no
    line of counts. *)
Lemma fallback_without_counts :
  generate_commit_message [(py "R100", py "new.txt")] None None Raised
  = subject_plain ++ nl ++ nl ++ fallback_marker.
Proof. vm_compute. reflexivity. Qed.

(** C9, amended: when the staged list is not empty and the service call
    fails (it raises, the reply is empty, the first line is invalid),
    [generate_commit_message] returns the fallback message; the fallback is
    the subject, plain or with the security scope when a file was touched by
    either sanitization pass, a blank line, and a body with the counts of
    added, modified and deleted files when one of them is not zero, the
    number of sanitized files when there is one, and the fallback marker;
    and the composer returns a non-empty message on every input. *)
Theorem generate_commit_message_fallback :
  (forall staged sanitized llm_results reply,
     staged <> [] -> reply_failed reply ->
     generate_commit_message staged sanitized llm_results reply
     = _fallback_commit_message staged (default [] sanitized)
                                (default [] llm_results)) /\
  (forall staged sanitized llm_results,
     _fallback_commit_message staged sanitized llm_results
     = (if bool_decide (sanitized = [] /\ llm_results = [])
        then subject_plain else subject_security)
       ++ nl ++ nl
       ++ join nl
            ((if bool_decide (count_status "A" staged = 0%nat /\
                              count_status "M" staged = 0%nat /\
                              count_status "D" staged = 0%nat)
              then [] else [counts_line staged])
             ++ (if bool_decide (sanitized = [] /\ llm_results = [])
                 then []
                 else [py "- sanitized secrets in "
                       ++ dec (size (sec_paths sanitized llm_results))
                       ++ py " file(s)"])
             ++ [fallback_marker])) /\
  (forall staged sanitized llm_results reply,
     generate_commit_message staged sanitized llm_results reply <> []).
Proof.
  split; [|split].
  - intros staged sanitized llm_results reply Hs Hf.
    unfold generate_commit_message. destruct staged as [|p t]; [congruence|].
    destruct reply as [|text]; [reflexivity|].
    rewrite (normalize_reply_failed _ Hf). reflexivity.
  - intros staged sanitized llm_results. unfold _fallback_commit_message.
    rewrite (bool_decide_ext _ _ (sec_paths_empty sanitized llm_results)).
    rewrite counts_guard. reflexivity.
  - intros staged sanitized llm_results reply. unfold generate_commit_message.
    destruct staged as [|p t]; [discriminate|].
    destruct reply as [|text]; [apply _fallback_commit_message_nonempty|].
    destruct (normalize_reply text) as [msg|] eqn:E.
    + apply (normalize_reply_nonempty _ _ E).
    + apply _fallback_commit_message_nonempty.
Qed.

Lemma generate_commit_message_fallback_witness :
  generate_commit_message
    [(py "M", py "a.py"); (py "A", py "b.py")]
    (Some [Sanitized (py "a.py") true]) None (Replied (Some fence))
  = subject_security ++ nl ++ nl ++ py "- files: +1 ~1 -0" ++ nl
    ++ py "- sanitized secrets in 1 file(s)" ++ nl ++ fallback_marker.
Proof.
  etransitivity.
  - apply (proj1 generate_commit_message_fallback).
    + discriminate.
    + right. left. reflexivity.
  - vm_compute. reflexivity.
Defined.

(** ** The passes preserve what can be encoded *)

Section Encodable.

Variable uni_alnum : N -> bool.
Variable P : N -> bool.

Lemma sub_go_forallb r rp :
  (forall prev s m, head (run uni_alnum r (Mst prev s [])) = Some m ->
     forallb P s = true -> forallb P (rp m) = true) ->
  forall s prev skip, forallb P s = true ->
    forallb P (fst (sub_go uni_alnum r rp prev s skip)) = true.
Proof.
  intros Hrp. induction s as [|c t IH]; intros prev skip Hs; [reflexivity|].
  pose proof Hs as Hs'. simpl in Hs'. apply andb_true_iff in Hs' as [Hc Ht].
  cbn [sub_go]. destruct skip as [|k]; [|apply IH; assumption].
  destruct (head (run uni_alnum r (Mst prev (c :: t) []))) as [m|] eqn:Hm.
  - destruct (length (c :: t) - length (m_rest m))%nat as [|k].
    + specialize (IH (Some c) 0%nat Ht).
      destruct (sub_go uni_alnum r rp (Some c) t 0) as [o b]. simpl in *.
      rewrite Hc, IH. reflexivity.
    + specialize (IH (Some c) k Ht).
      destruct (sub_go uni_alnum r rp (Some c) t k) as [o b]. simpl in *.
      rewrite forallb_app, IH, (Hrp _ _ _ Hm Hs). reflexivity.
  - specialize (IH (Some c) 0%nat Ht).
    destruct (sub_go uni_alnum r rp (Some c) t 0) as [o b]. simpl in *.
    rewrite Hc, IH. reflexivity.
Qed.

Hypothesis P_api_key : forallb P api_key = true.

Lemma repl_forallb A B C D prev s m :
  no_grp A = true -> no_grp B = true -> no_grp C = true -> no_grp D = true ->
  head (run uni_alnum (four A B C D) (Mst prev s [])) = Some m ->
  forallb P s = true -> forallb P (repl 1 2 4 m) = true.
Proof.
  intros GA GB GC GD H Hs. apply head_In in H.
  apply run_four in H as (g1 & g2 & g3 & g4 & E & _ & _ & _ & _ & G);
    try assumption.
  simpl in E. subst s. rewrite (repl_four _ _ _ _ _ _ G).
  rewrite !forallb_app in Hs. rewrite !forallb_app, P_api_key.
  repeat (apply andb_true_iff in Hs as [? Hs]).
  repeat (apply andb_true_iff; split); auto.
Qed.

Lemma kv_step_forallb acc p :
  In p KV_VALUE_PATTERNS -> forallb P (fst acc) = true ->
  forallb P (fst (kv_step uni_alnum acc p)) = true.
Proof.
  intros Hp Hs. destruct acc as [s ch]. unfold kv_step. simpl in Hs.
  destruct Hp as [<-|[<-|[]]].
  - pose proof (sub_go_forallb kv1 (repl 1 2 4)
                  ltac:(intros; eapply repl_forallb; eauto; reflexivity)
                  s None 0%nat Hs) as H.
    fold (sub uni_alnum kv1 (repl 1 2 4) s) in H.
    destruct (sub uni_alnum kv1 (repl 1 2 4) s). exact H.
  - pose proof (sub_go_forallb kv2 (repl 1 2 4)
                  ltac:(intros; eapply repl_forallb; eauto; reflexivity)
                  s None 0%nat Hs) as H.
    fold (sub uni_alnum kv2 (repl 1 2 4) s) in H.
    destruct (sub uni_alnum kv2 (repl 1 2 4) s). exact H.
Qed.

Lemma _sanitize_text_forallb s :
  forallb P s = true -> forallb P (fst (_sanitize_text uni_alnum s)) = true.
Proof.
  intros Hs. unfold _sanitize_text.
  assert (forallb P (fst (kv_pass uni_alnum s)) = true) as Hk.
  { unfold kv_pass, KV_VALUE_PATTERNS. cbn [fold_left].
    apply kv_step_forallb; [right; left; reflexivity|].
    apply kv_step_forallb; [left; reflexivity|]. exact Hs. }
  destruct (kv_pass uni_alnum s) as [s1 ch]. simpl in Hk. simpl.
  apply (sub_go_forallb token_union (fun _ => api_key)).
  - intros. exact P_api_key.
  - exact Hk.
Qed.

End Encodable.

Lemma slice_forallb {A} (P : A -> bool) (s : list A) i j :
  forallb P s = true -> forallb P (slice s i j) = true.
Proof.
  intros H. unfold slice.
  rewrite <- (take_drop (Z.to_nat (clip (len s) i)) s) in H.
  rewrite forallb_app in H. apply andb_true_iff in H as [_ H].
  rewrite <- (take_drop (Z.to_nat (clip (len s) j - clip (len s) i))
                        (drop (Z.to_nat (clip (len s) i)) s)) in H.
  rewrite forallb_app in H. apply andb_true_iff in H as [H _]. exact H.
Qed.

Lemma _apply_replacements_forallb (P : N -> bool) text ranges replacement :
  forallb P replacement = true -> forallb P text = true ->
  forallb P (_apply_replacements_by_ranges text ranges replacement) = true.
Proof.
  intros Hr. unfold _apply_replacements_by_ranges.
  generalize (sort_desc ranges). intros l. revert text.
  induction l as [|[s e] l IH]; intros text Ht; [exact Ht|].
  simpl. apply IH.
  destruct ((0 <=? s)%Z && (s <? e)%Z && (e <=? len text)%Z); [|exact Ht].
  rewrite !forallb_app, Hr, !slice_forallb by assumption. reflexivity.
Qed.

(** ** The passes and the repository *)

Lemma _chunk_text_total s M O :
  (0 <= O < M)%Z -> exists cs, _chunk_text s M O = Some cs.
Proof.
  intros H. destruct (Z_le_gt_dec (len s) M) as [Hle | Hgt].
  - exists [(0%Z, s)]. unfold _chunk_text.
    destruct (Z.leb_spec (len s) M); [reflexivity | lia].
  - destruct (_chunk_text_chain M O H s ltac:(lia)) as (cs & E & _). eauto.
Qed.

Lemma probably_text_decode data :
  _is_probably_text data = true ->
  utf8_decode data = Some (decode_replace data).
Proof.
  unfold _is_probably_text, decode_replace.
  destruct (bool_decide (0 ∈ data)); [discriminate|].
  destruct (utf8_decode data); [reflexivity | discriminate].
Qed.

Lemma decode_replace_encodable data :
  _is_probably_text data = true ->
  forallb encodable (decode_replace data) = true.
Proof.
  intros H. apply probably_text_decode in H.
  apply (utf8_decode_encodable (length data) data _ (Nat.le_refl _) H).
Qed.

(** The bytes written differ from the bytes read as soon as the text
    differs. *)
Lemma encode_differs data s content :
  _is_probably_text data = true -> s <> decode_replace data ->
  utf8_encode s = Some content -> content <> data.
Proof.
  intros Ht Hs He Ed. subst content.
  apply utf8_decode_encode in He. apply probably_text_decode in Ht.
  congruence.
Qed.

(** What [encode(errors="ignore")] gives always decodes: on the
    [repo.git.show] path only a NUL byte makes [_is_probably_text] say
    no. *)
Lemma utf8_decode_encode_ignore : forall s,
  exists t, utf8_decode (utf8_encode_ignore s) = Some t.
Proof.
  induction s as [|c s [t IH]]; simpl; [eauto|].
  destruct (utf8_char c) as [bc|] eqn:Ec; simpl; [|eauto].
  rewrite (utf8_decode_char _ _ _ Ec), IH. simpl. eauto.
Qed.

Lemma reencoded_is_text raw :
  _is_probably_text (utf8_encode_ignore raw)
  = negb (bool_decide (0 ∈ utf8_encode_ignore raw)).
Proof.
  unfold _is_probably_text. destruct (utf8_decode_encode_ignore raw) as [t ->].
  destruct (bool_decide _); reflexivity.
Qed.

Section PassFacts.

Variable uni_alnum : N -> bool.
Variable git_output : bytes -> str.
Variable hash_object : bytes -> str.
Variable E : env.

Local Abbreviation wblob := (write_blob hash_object E).
Local Abbreviation sstep := (sanitize_step uni_alnum git_output hash_object E).
Local Abbreviation lstep := (llm_step git_output hash_object E).
Local Abbreviation rstaged := (read_staged git_output).

Lemma write_blob_worktree r path content :
  repo_worktree (wblob r path content).1.1 = repo_worktree r.
Proof.
  unfold write_blob.
  destruct (hash_ok E path); [|reflexivity].
  destruct (update_ok E path); reflexivity.
Qed.

Lemma write_blob_updated r path content r' hashed :
  wblob r path content = (r', hashed, true) ->
  staged_bytes r' path = Some content.
Proof.
  unfold write_blob.
  destruct (hash_ok E path); [|intros [= ]].
  destruct (update_ok E path); intros [= <- _].
  unfold staged_bytes. simpl. rewrite lookup_insert_eq. simpl.
  rewrite lookup_insert_eq. reflexivity.
Qed.

Lemma write_blob_failed r path content :
  hash_ok E path = false \/ update_ok E path = false ->
  (wblob r path content).2 = false /\
  repo_index (wblob r path content).1.1 = repo_index r.
Proof.
  unfold write_blob.
  intros [H | H]; rewrite H.
  - auto.
  - destruct (hash_ok E path); auto.
Qed.

Lemma write_blob_index_other r path content q :
  q <> path ->
  repo_index (wblob r path content).1.1 !! q = repo_index r !! q.
Proof.
  intros Hq. unfold write_blob.
  destruct (hash_ok E path); [|reflexivity].
  destruct (update_ok E path); [|reflexivity].
  simpl. apply lookup_insert_ne. congruence.
Qed.

(** The staged bytes as the passes read them. *)
Lemma read_staged_blob r path blob :
  staged_bytes r path = Some blob ->
  rstaged r path = Some (utf8_encode_ignore (git_output blob)).
Proof.
  intros H. unfold read_staged, git_show. rewrite H. reflexivity.
Qed.

(** What one round of the pattern pass can do. *)
Inductive sanitize_outcome (ps : pass sanitized_entry) (path : str)
    : pass sanitized_entry -> Prop :=
| so_skipped :
    repo_index (p_repo ps) !! path = None \/
    rstaged (p_repo ps) path = None \/
    (exists data, rstaged (p_repo ps) path = Some data /\
                  _is_probably_text data = false) ->
    sanitize_outcome ps path ps
| so_clean data :
    rstaged (p_repo ps) path = Some data ->
    _is_probably_text data = true ->
    snd (_sanitize_text uni_alnum (decode_replace data)) = false ->
    sanitize_outcome ps path
      (Pass (p_repo ps) (p_out ps) (p_seen ps ++ [decode_replace data]))
| so_written data content :
    rstaged (p_repo ps) path = Some data ->
    _is_probably_text data = true ->
    snd (_sanitize_text uni_alnum (decode_replace data)) = true ->
    utf8_encode (fst (_sanitize_text uni_alnum (decode_replace data)))
      = Some content ->
    sanitize_outcome ps path
      (Pass (wblob (p_repo ps) path content).1.1
            (if (wblob (p_repo ps) path content).2
             then p_out ps ++ [Sanitized path true] else p_out ps)
            (p_seen ps ++ [decode_replace data])).

(** A round of the pattern pass always ends, in one of the three ways. *)
Lemma sanitize_step_outcome ps path :
  exists ps', sstep ps path = Some ps' /\ sanitize_outcome ps path ps'.
Proof.
  unfold sanitize_step.
  destruct (repo_index (p_repo ps) !! path) eqn:Ei;
    [|exists ps; split; [reflexivity | constructor; auto]].
  destruct (read_staged git_output (p_repo ps) path) as [data|] eqn:Er;
    [|exists ps; split; [reflexivity | constructor; auto]].
  destruct (_is_probably_text data) eqn:Et; cbn [negb];
    [|exists ps; split; [reflexivity | constructor; eauto 6]].
  pose proof (_sanitize_text_forallb uni_alnum encodable eq_refl _
                (decode_replace_encodable _ Et)) as Henc.
  destruct (_sanitize_text uni_alnum (decode_replace data))
    as [sanitized changed] eqn:Es.
  simpl in Henc. destruct changed; cbn [negb].
  - destruct (utf8_encode_total _ Henc) as (content & Ec). rewrite Ec.
    cbn [mbind option_bind].
    pose proof (so_written ps path data content Er Et) as H.
    rewrite Es in H. specialize (H eq_refl Ec).
    destruct (write_blob hash_object E (p_repo ps) path content)
      as [[r' hashed] updated].
    eexists. split; [reflexivity | exact H].
  - pose proof (so_clean ps path data Er Et) as H. rewrite Es in H.
    eexists. split; [reflexivity | exact (H eq_refl)].
Qed.

Lemma sanitize_outcome_worktree ps path ps' :
  sanitize_outcome ps path ps' ->
  repo_worktree (p_repo ps') = repo_worktree (p_repo ps).
Proof.
  intros [H | data H1 H2 H3 | data content H1 H2 H3 H4]; try reflexivity.
  apply write_blob_worktree.
Qed.

Lemma sanitize_outcome_index_other ps path ps' q :
  sanitize_outcome ps path ps' -> q <> path ->
  repo_index (p_repo ps') !! q = repo_index (p_repo ps) !! q.
Proof.
  intros [H | data H1 H2 H3 | data content H1 H2 H3 H4] Hq; try reflexivity.
  apply write_blob_index_other. exact Hq.
Qed.

Lemma app_one_neq {A} (l : list A) x : l <> l ++ [x].
Proof.
  intros H. apply (f_equal length) in H. rewrite length_app in H.
  simpl in H. lia.
Qed.

Lemma sanitize_differs s :
  snd (_sanitize_text uni_alnum s) = true ->
  fst (_sanitize_text uni_alnum s) <> s.
Proof.
  intros H. destruct (_sanitize_text_tracked uni_alnum s) as [[Hc _] | [_ Hl]].
  - congruence.
  - intros Heq. rewrite Heq in Hl. lia.
Qed.

Lemma sanitize_outcome_rewritten ps path ps' :
  sanitize_outcome ps path ps' ->
  p_out ps' = p_out ps ++ [Sanitized path true] ->
  exists data content,
    rstaged (p_repo ps) path = Some data /\
    staged_bytes (p_repo ps') path = Some content /\ content <> data.
Proof.
  intros [H | data H1 H2 H3 | data content H1 H2 H3 H4] Ho; simpl in Ho.
  - exfalso. apply (app_one_neq _ _ Ho).
  - exfalso. apply (app_one_neq _ _ Ho).
  - destruct (wblob (p_repo ps) path content) as [[r' hashed] updated] eqn:Ew.
    simpl in *. destruct updated; [|exfalso; apply (app_one_neq _ _ Ho)].
    exists data, content. split; [assumption|]. split.
    + apply (write_blob_updated _ _ _ _ _ Ew).
    + apply (encode_differs _ _ _ H2 (sanitize_differs _ H3) H4).
Qed.

Lemma sanitize_outcome_failed ps path ps' :
  hash_ok E path = false \/ update_ok E path = false ->
  sanitize_outcome ps path ps' ->
  repo_index (p_repo ps') = repo_index (p_repo ps) /\ p_out ps' = p_out ps.
Proof.
  intros Hf [H | data H1 H2 H3 | data content H1 H2 H3 H4]; auto.
  destruct (write_blob_failed (p_repo ps) path content Hf) as [-> Hi].
  simpl. auto.
Qed.

Lemma sanitize_outcome_binary ps path ps' data :
  rstaged (p_repo ps) path = Some data -> _is_probably_text data = false ->
  sanitize_outcome ps path ps' -> ps' = ps.
Proof.
  intros Hr Ht [H | d H1 H2 H3 | d c H1 H2 H3 H4]; [reflexivity | |];
    congruence.
Qed.

(** An invariant of the rounds is an invariant of the pass. *)
Lemma run_steps_invariant {R} (step : pass R -> str -> option (pass R))
    (I : pass R -> Prop) :
  (forall ps p ps', I ps -> step ps p = Some ps' -> I ps') ->
  forall paths ps ps', I ps -> run_steps step paths ps = Some ps' -> I ps'.
Proof.
  intros Hstep. induction paths as [|p rest IH]; intros ps ps' Hi H; simpl in H.
  - injection H as <-. exact Hi.
  - destruct (step ps p) as [ps1|] eqn:E1; [|discriminate]. simpl in H.
    eapply IH; [|exact H]. eapply Hstep; eassumption.
Qed.

(** The entry the semantic pass appends after the two git commands. *)
Definition llm_result (path : str) (all_ranges : list (Z * Z))
    (notes : list str) (hashed updated : bool) : llm_entry :=
  if updated then LlmEntry path (len all_ranges) notes
  else if hashed then LlmEntry path 0 (notes ++ [py "update-index failed"])
  else LlmEntry path 0 (notes ++ [py "hash-object failed"]).

(** What one round of the semantic pass can do. *)
Inductive llm_outcome (M : Z) (ps : pass llm_entry) (path : str)
    : pass llm_entry -> Prop :=
| lo_skipped :
    repo_index (p_repo ps) !! path = None \/
    rstaged (p_repo ps) path = None \/
    (exists data, rstaged (p_repo ps) path = Some data /\
                  _is_probably_text data = false) ->
    llm_outcome M ps path ps
| lo_clean data chunks all_ranges notes seen :
    rstaged (p_repo ps) path = Some data ->
    _is_probably_text data = true ->
    _chunk_text (decode_replace data) M 200 = Some chunks ->
    fold_left (scan_chunk E path) chunks ([], [], p_seen ps)
      = (all_ranges, notes, seen) ->
    all_ranges = [] \/
    _apply_replacements_by_ranges (decode_replace data) all_ranges
      (py "api_key_llm") = decode_replace data ->
    llm_outcome M ps path (Pass (p_repo ps) (p_out ps) seen)
| lo_written data chunks all_ranges notes seen content :
    rstaged (p_repo ps) path = Some data ->
    _is_probably_text data = true ->
    _chunk_text (decode_replace data) M 200 = Some chunks ->
    fold_left (scan_chunk E path) chunks ([], [], p_seen ps)
      = (all_ranges, notes, seen) ->
    all_ranges <> [] ->
    _apply_replacements_by_ranges (decode_replace data) all_ranges
      (py "api_key_llm") <> decode_replace data ->
    utf8_encode (_apply_replacements_by_ranges (decode_replace data)
                   all_ranges (py "api_key_llm")) = Some content ->
    llm_outcome M ps path
      (Pass (wblob (p_repo ps) path content).1.1
            (p_out ps ++ [llm_result path all_ranges notes
                            (wblob (p_repo ps) path content).1.2
                            (wblob (p_repo ps) path content).2])
            seen).

Lemma str_eqb_true a b : str_eqb a b = true <-> a = b.
Proof. unfold str_eqb. apply bool_decide_eq_true. Qed.

Lemma str_eqb_false a b : str_eqb a b = false <-> a <> b.
Proof. unfold str_eqb. apply bool_decide_eq_false. Qed.

(** A round of the semantic pass that ends, ends in one of the three
    ways. *)
Lemma llm_step_outcome M ps path ps' :
  lstep M ps path = Some ps' -> llm_outcome M ps path ps'.
Proof.
  unfold llm_step.
  destruct (repo_index (p_repo ps) !! path) eqn:Ei;
    [|intros [= <-]; constructor; auto].
  destruct (read_staged git_output (p_repo ps) path) as [data|] eqn:Er;
    [|intros [= <-]; constructor; auto].
  destruct (_is_probably_text data) eqn:Et; cbn [negb];
    [|intros [= <-]; constructor; eauto 6].
  destruct (_chunk_text (decode_replace data) M 200) as [chunks|] eqn:Ec;
    [|discriminate].
  cbn [mbind option_bind].
  destruct (fold_left (scan_chunk E path) chunks ([], [], p_seen ps))
    as [[all_ranges notes] seen] eqn:Ef.
  destruct all_ranges as [|rg rgs].
  { intros [= <-]. eapply lo_clean; eauto. }
  set (all_ranges := rg :: rgs) in *.
  destruct (str_eqb (_apply_replacements_by_ranges (decode_replace data)
                       all_ranges (py "api_key_llm")) (decode_replace data))
    eqn:En.
  { apply str_eqb_true in En. intros [= <-]. eapply lo_clean; eauto. }
  apply str_eqb_false in En.
  destruct (utf8_encode (_apply_replacements_by_ranges (decode_replace data)
                           all_ranges (py "api_key_llm")))
    as [content|] eqn:Ee; [|discriminate].
  cbn [mbind option_bind].
  pose proof (lo_written M ps path data chunks all_ranges notes seen content
                Er Et Ec Ef ltac:(discriminate) En Ee) as H.
  destruct (write_blob hash_object E (p_repo ps) path content)
    as [[r' hashed] updated].
  intros [= <-]. exact H.
Qed.

(** With [max_chars_per_call] above the overlap, a round of the semantic
    pass always ends. *)
Lemma llm_step_total M ps path :
  (200 < M)%Z -> exists ps', lstep M ps path = Some ps'.
Proof.
  intros HM. unfold llm_step.
  destruct (repo_index (p_repo ps) !! path); [|eauto].
  destruct (read_staged git_output (p_repo ps) path) as [data|]; [|eauto].
  destruct (_is_probably_text data) eqn:Et; cbn [negb]; [|eauto].
  destruct (_chunk_text_total (decode_replace data) M 200 ltac:(lia))
    as (chunks & ->).
  cbn [mbind option_bind].
  destruct (fold_left (scan_chunk E path) chunks ([], [], p_seen ps))
    as [[all_ranges notes] seen].
  destruct all_ranges as [|rg rgs]; [eauto|].
  destruct (str_eqb _ _); [eauto|].
  destruct (utf8_encode_total
              (_apply_replacements_by_ranges (decode_replace data)
                 (rg :: rgs) (py "api_key_llm"))) as (content & ->).
  { apply _apply_replacements_forallb; [reflexivity|].
    apply decode_replace_encodable. exact Et. }
  cbn [mbind option_bind].
  destruct (write_blob hash_object E (p_repo ps) path content)
    as [[r' hashed] updated].
  eauto.
Qed.

Lemma llm_outcome_worktree M ps path ps' :
  llm_outcome M ps path ps' ->
  repo_worktree (p_repo ps') = repo_worktree (p_repo ps).
Proof.
  intros [H | | ]; try reflexivity. apply write_blob_worktree.
Qed.

Lemma llm_outcome_index_other M ps path ps' q :
  llm_outcome M ps path ps' -> q <> path ->
  repo_index (p_repo ps') !! q = repo_index (p_repo ps) !! q.
Proof.
  intros [H | | ] Hq; try reflexivity.
  apply write_blob_index_other. exact Hq.
Qed.

Lemma len_nonempty {A} (l : list A) : l <> [] -> len l <> 0%Z.
Proof. destruct l; [congruence|]. unfold len. simpl. lia. Qed.

Lemma llm_outcome_rewritten M ps path ps' n notes :
  llm_outcome M ps path ps' ->
  p_out ps' = p_out ps ++ [LlmEntry path n notes] -> n <> 0%Z ->
  exists data content,
    rstaged (p_repo ps) path = Some data /\
    staged_bytes (p_repo ps') path = Some content /\ content <> data.
Proof.
  intros [H | data chunks rs ns seen H1 H2 H3 H4 H5
            | data chunks rs ns seen content H1 H2 H3 H4 H5 H6 H7] Ho Hn;
    simpl in Ho.
  - exfalso. apply (app_one_neq _ _ Ho).
  - exfalso. apply (app_one_neq _ _ Ho).
  - apply app_inj_tail in Ho as [_ Ho].
    destruct (wblob (p_repo ps) path content) as [[r' hashed] updated] eqn:Ew.
    simpl in *. unfold llm_result in Ho.
    destruct updated; [|destruct hashed; injection Ho as <- _; congruence].
    exists data, content. split; [assumption|]. split.
    + apply (write_blob_updated _ _ _ _ _ Ew).
    + apply (encode_differs _ _ _ H2 H6 H7).
Qed.

Lemma llm_outcome_failed M ps path ps' :
  hash_ok E path = false \/ update_ok E path = false ->
  llm_outcome M ps path ps' ->
  repo_index (p_repo ps') = repo_index (p_repo ps) /\
  (p_out ps' = p_out ps \/
   exists notes, p_out ps' = p_out ps ++ [LlmEntry path 0 notes]).
Proof.
  intros Hf [H | | data chunks rs ns seen content H1 H2 H3 H4 H5 H6 H7]; auto.
  destruct (write_blob_failed (p_repo ps) path content Hf) as [Hu Hi].
  simpl. split; [assumption|]. right. unfold llm_result. rewrite Hu.
  destruct ((wblob (p_repo ps) path content).1.2); eauto.
Qed.

Lemma llm_outcome_binary M ps path ps' data :
  rstaged (p_repo ps) path = Some data -> _is_probably_text data = false ->
  llm_outcome M ps path ps' -> ps' = ps.
Proof.
  intros Hr Ht [H | | ]; [reflexivity | |]; congruence.
Qed.

End PassFacts.

(** ** A concrete setting *)

(** GitPython's [Git.execute]: one trailing newline of the standard output
    is dropped, and the rest is decoded as UTF-8 with the
    [surrogateescape] handler, which turns each byte that does not decode
    into the code point U+DC00 + byte. *)
Definition strip_newline (b : bytes) : bytes :=
  match last b with
  | Some 10 => take (length b - 1) b
  | _ => b
  end.

Fixpoint decode_surrogateescape (b : bytes) : str :=
  match b with
  | [] => []
  | b0 :: t =>
    if b0 <? 128 then b0 :: decode_surrogateescape t
    else if (194 <=? b0) && (b0 <=? 223) then
      match t with
      | b1 :: t1 =>
        if cont b1 then
          ((b0 - 192) * 64 + (b1 - 128)) :: decode_surrogateescape t1
        else (56320 + b0) :: decode_surrogateescape t
      | _ => (56320 + b0) :: decode_surrogateescape t
      end
    else if (224 <=? b0) && (b0 <=? 239) then
      match t with
      | b1 :: b2 :: t2 =>
        let c := (b0 - 224) * 4096 + (b1 - 128) * 64 + (b2 - 128) in
        if cont b1 && cont b2 && (2048 <=? c) && negb (surrogate c) then
          c :: decode_surrogateescape t2
        else (56320 + b0) :: decode_surrogateescape t
      | _ => (56320 + b0) :: decode_surrogateescape t
      end
    else if (240 <=? b0) && (b0 <=? 244) then
      match t with
      | b1 :: b2 :: b3 :: t3 =>
        let c := (b0 - 240) * 262144 + (b1 - 128) * 4096
                 + (b2 - 128) * 64 + (b3 - 128) in
        if cont b1 && cont b2 && cont b3 && (65536 <=? c) && (c <=? 1114111)
        then c :: decode_surrogateescape t3
        else (56320 + b0) :: decode_surrogateescape t
      | _ => (56320 + b0) :: decode_surrogateescape t
      end
    else (56320 + b0) :: decode_surrogateescape t
  end.

Definition gitpython_output (b : bytes) : str :=
  decode_surrogateescape (strip_newline b).

(** An object store that names a blob by its content. *)
Definition content_id (b : bytes) : str := b.

Definition no_findings : str -> Z -> str -> llm_reply :=
  fun _ _ _ => LlmFindings [].

(** One staged file, the same in the working tree. *)
Definition one_file (path : str) (content : bytes) : repo :=
  Repo {[path := content]} {[path := Entry default_mode (content_id content)]}
       {[content_id content := content]}.

Definition secret_line : str :=
  py "OPENAI_KEY=sk-aaaaaaaaaaaaaaaaaaaaaaaaaaaaaaaa".

(** ** The passes: the claims *)

Section PassClaims.

Variable uni_alnum : N -> bool.
Variable git_output : bytes -> str.
Variable hash_object : bytes -> str.
Variable E : env.

Local Abbreviation sstep := (sanitize_step uni_alnum git_output hash_object E).
Local Abbreviation lstep := (llm_step git_output hash_object E).
Local Abbreviation rstaged := (read_staged git_output).

Lemma sanitize_step_is_outcome ps path ps' :
  sstep ps path = Some ps' ->
  sanitize_outcome uni_alnum git_output hash_object E ps path ps'.
Proof.
  intros H.
  destruct (sanitize_step_outcome uni_alnum git_output hash_object E ps path)
    as (ps1 & H1 & Ho).
  congruence.
Qed.

(** C2: neither pass writes to the working tree, round by round and as a
    whole; a round leaves the index entries of the other paths alone, and
    a round that reports a rewrite has repointed the index entry of its path
    to a blob whose bytes differ from the staged content it had read (the
    staged blob, as [repo.git.show] and the re-encoding hand it over). *)
Theorem worktree_never_mutated :
  (forall ps path ps',
     sstep ps path = Some ps' ->
     repo_worktree (p_repo ps') = repo_worktree (p_repo ps) /\
     (forall q, q <> path ->
        repo_index (p_repo ps') !! q = repo_index (p_repo ps) !! q) /\
     (p_out ps' = p_out ps ++ [Sanitized path true] ->
      exists data content,
        rstaged (p_repo ps) path = Some data /\
        (forall blob, staged_bytes (p_repo ps) path = Some blob ->
           data = utf8_encode_ignore (git_output blob)) /\
        staged_bytes (p_repo ps') path = Some content /\ content <> data)) /\
  (forall M ps path ps',
     lstep M ps path = Some ps' ->
     repo_worktree (p_repo ps') = repo_worktree (p_repo ps) /\
     (forall q, q <> path ->
        repo_index (p_repo ps') !! q = repo_index (p_repo ps) !! q) /\
     (forall n notes,
        p_out ps' = p_out ps ++ [LlmEntry path n notes] -> n <> 0%Z ->
        exists data content,
          rstaged (p_repo ps) path = Some data /\
          (forall blob, staged_bytes (p_repo ps) path = Some blob ->
             data = utf8_encode_ignore (git_output blob)) /\
          staged_bytes (p_repo ps') path = Some content /\ content <> data)) /\
  (forall r ps,
     sanitize_staged_secrets_in_index uni_alnum git_output hash_object E r
       = Some ps ->
     repo_worktree (p_repo ps) = repo_worktree r) /\
  (forall r M ps,
     llm_scan_staged_secrets_in_index git_output hash_object E r M = Some ps ->
     repo_worktree (p_repo ps) = repo_worktree r).
Proof.
  split; [|split; [|split]].
  - intros ps path ps' H. apply sanitize_step_is_outcome in H.
    split; [|split].
    + eapply sanitize_outcome_worktree; eassumption.
    + intros q. eapply sanitize_outcome_index_other; eassumption.
    + intros Ho.
      destruct (sanitize_outcome_rewritten _ _ _ _ _ _ _ H Ho)
        as (data & content & Hr & Hs & Hd).
      exists data, content. repeat split; auto.
      intros blob Hb.
      rewrite (read_staged_blob git_output _ _ _ Hb) in Hr. congruence.
  - intros M ps path ps' H. apply llm_step_outcome in H. split; [|split].
    + eapply llm_outcome_worktree; eassumption.
    + intros q. eapply llm_outcome_index_other; eassumption.
    + intros n notes Ho Hn.
      destruct (llm_outcome_rewritten _ _ _ _ _ _ _ _ _ H Ho Hn)
        as (data & content & Hr & Hs & Hd).
      exists data, content. repeat split; auto.
      intros blob Hb.
      rewrite (read_staged_blob git_output _ _ _ Hb) in Hr. congruence.
  - intros r ps H. unfold sanitize_staged_secrets_in_index in H.
    refine (run_steps_invariant sstep
              (fun ps => repo_worktree (p_repo ps) = repo_worktree r)
              _ _ (Pass r [] []) _ eq_refl H).
    intros ? ? ? Hi Hs. rewrite <- Hi.
    eapply sanitize_outcome_worktree, sanitize_step_is_outcome, Hs.
  - intros r M ps H. unfold llm_scan_staged_secrets_in_index in H.
    destruct (staged_paths E r) as [|p l] eqn:Ep; [injection H as <-; reflexivity|].
    refine (run_steps_invariant (lstep M)
              (fun ps => repo_worktree (p_repo ps) = repo_worktree r)
              _ _ (Pass r [] []) _ eq_refl H).
    intros ? ? ? Hi Hs. rewrite <- Hi.
    eapply llm_outcome_worktree, llm_step_outcome, Hs.
Qed.

(** C4: when [git hash-object] or [git update-index] fails for a path,
    the round of either pass ends without touching the index entry or the
    working tree, the pattern pass reports nothing for the path and the
    semantic pass at most an entry with no replacement and a note, and the
    pass goes on with the next path. *)
Theorem write_failure_skips_file (path : str) :
  hash_ok E path = false \/ update_ok E path = false ->
  (forall ps rest,
     exists ps1,
       sstep ps path = Some ps1 /\
       repo_index (p_repo ps1) = repo_index (p_repo ps) /\
       repo_worktree (p_repo ps1) = repo_worktree (p_repo ps) /\
       p_out ps1 = p_out ps /\
       run_steps sstep (path :: rest) ps = run_steps sstep rest ps1) /\
  (forall M ps rest,
     (200 < M)%Z ->
     exists ps1,
       lstep M ps path = Some ps1 /\
       repo_index (p_repo ps1) = repo_index (p_repo ps) /\
       repo_worktree (p_repo ps1) = repo_worktree (p_repo ps) /\
       (p_out ps1 = p_out ps \/
        exists notes, p_out ps1 = p_out ps ++ [LlmEntry path 0 notes]) /\
       run_steps (lstep M) (path :: rest) ps = run_steps (lstep M) rest ps1).
Proof.
  intros Hf. split.
  - intros ps rest.
    destruct (sanitize_step_outcome uni_alnum git_output hash_object E ps path)
      as (ps1 & H1 & Ho).
    exists ps1. split; [exact H1|].
    destruct (sanitize_outcome_failed _ _ _ _ _ _ _ Hf Ho) as [Hi Hout].
    repeat split; auto.
    + eapply sanitize_outcome_worktree; eassumption.
    + simpl. rewrite H1. reflexivity.
  - intros M ps rest HM.
    destruct (llm_step_total git_output hash_object E M ps path HM)
      as (ps1 & H1).
    pose proof (llm_step_outcome _ _ _ _ _ _ _ H1) as Ho.
    exists ps1. split; [exact H1|].
    destruct (llm_outcome_failed _ _ _ _ _ _ _ Hf Ho) as [Hi Hout].
    repeat split; auto.
    + eapply llm_outcome_worktree; eassumption.
    + simpl. rewrite H1. reflexivity.
Qed.

(** Data that [_is_probably_text] rejects is skipped by both passes:
    nothing is handed to detection and nothing changes. *)
Lemma binary_data_skipped_pattern ps path data :
  rstaged (p_repo ps) path = Some data -> _is_probably_text data = false ->
  sstep ps path = Some ps.
Proof.
  intros Hr Ht. unfold sanitize_step.
  destruct (repo_index (p_repo ps) !! path); [|reflexivity].
  rewrite Hr, Ht. reflexivity.
Qed.

Lemma binary_data_skipped_semantic M ps path data :
  rstaged (p_repo ps) path = Some data -> _is_probably_text data = false ->
  lstep M ps path = Some ps.
Proof.
  intros Hr Ht. unfold llm_step.
  destruct (repo_index (p_repo ps) !! path); [|reflexivity].
  rewrite Hr, Ht. reflexivity.
Qed.

End PassClaims.

(** The pattern replaced where every git command succeeds, and where
    [git hash-object] fails. *)
Definition env_ok : env :=
  Env None (fun _ => true) (fun _ => true) no_findings.
Definition env_hash_fails : env :=
  Env None (fun _ => false) (fun _ => true) no_findings.

Definition key_file : str := py "key.env".

(** The repository [one_file key_file secret_line] after the pattern
    pass. *)
Definition key_file_rewritten : pass sanitized_entry :=
  Pass (Repo {[key_file := secret_line]}
             {[key_file := Entry default_mode (py "OPENAI_KEY=api_key")]}
             (<[py "OPENAI_KEY=api_key" := py "OPENAI_KEY=api_key"]>
                {[secret_line := secret_line]}))
       [Sanitized key_file true] [secret_line].

Lemma worktree_never_mutated_witness :
  repo_worktree (p_repo key_file_rewritten)
  = repo_worktree (one_file key_file secret_line) /\
  (forall q, q <> key_file ->
     repo_index (p_repo key_file_rewritten) !! q
     = repo_index (one_file key_file secret_line) !! q) /\
  (p_out key_file_rewritten = [] ++ [Sanitized key_file true] ->
   exists data content,
     read_staged gitpython_output (one_file key_file secret_line) key_file
       = Some data /\
     (forall blob,
        staged_bytes (one_file key_file secret_line) key_file = Some blob ->
        data = utf8_encode_ignore (gitpython_output blob)) /\
     staged_bytes (p_repo key_file_rewritten) key_file = Some content /\
     content <> data).
Proof.
  apply (proj1 (worktree_never_mutated ascii_only gitpython_output content_id
                  env_ok)
               (Pass (one_file key_file secret_line) [] []) key_file
               key_file_rewritten).
  vm_compute. reflexivity.
Defined.

Lemma write_failure_skips_file_witness :
  exists ps1,
    sanitize_step ascii_only gitpython_output content_id env_hash_fails
      (Pass (one_file key_file secret_line) [] []) key_file = Some ps1 /\
    repo_index (p_repo ps1) = repo_index (one_file key_file secret_line) /\
    repo_worktree (p_repo ps1) = repo_worktree (one_file key_file secret_line) /\
    p_out ps1 = [] /\
    run_steps (sanitize_step ascii_only gitpython_output content_id
                 env_hash_fails)
      (key_file :: []) (Pass (one_file key_file secret_line) [] [])
    = run_steps (sanitize_step ascii_only gitpython_output content_id
                   env_hash_fails) [] ps1.
Proof.
  apply (proj1 (write_failure_skips_file ascii_only gitpython_output content_id
                  env_hash_fails key_file (or_introl eq_refl))
               (Pass (one_file key_file secret_line) [] []) []).
Defined.

(** C6, at a staged blob that is not UTF-8 and has no NUL byte: the byte
    that does not decode is lost on the way from [repo.git.show] through
    [encode(errors="ignore")], the rest passes [_is_probably_text], is
    handed to [_sanitize_text], and the staged content is rewritten. *)
Theorem invalid_utf8_blob_is_rewritten :
  utf8_decode (255 :: secret_line) = None /\
  _is_probably_text (255 :: secret_line) = false /\
  exists ps,
    sanitize_staged_secrets_in_index ascii_only gitpython_output content_id
      env_ok (one_file key_file (255 :: secret_line)) = Some ps /\
    p_seen ps = [secret_line] /\
    p_out ps = [Sanitized key_file true] /\
    staged_bytes (p_repo ps) key_file = Some (py "OPENAI_KEY=api_key").
Proof.
  split; [reflexivity|]. split; [reflexivity|].
  eexists. split; [vm_compute; reflexivity|].
  split; [reflexivity|]. split; [reflexivity|]. vm_compute. reflexivity.
Qed.

(** The semantic pass at work: the service flags a value that the pattern
    pass leaves alone (14 characters), and the staged blob is rewritten. *)
Definition flags_password : str -> Z -> str -> llm_reply :=
  fun _ _ _ =>
    LlmFindings [Finding 11 25 (py "password") (py "hard-coded password")
                         (py "hunter2hunter2")].

Example llm_scan_rewrites :
  exists ps,
    llm_scan_staged_secrets_in_index gitpython_output content_id
      (Env None (fun _ => true) (fun _ => true) flags_password)
      (one_file key_file (py "password = hunter2hunter2 # x")) 60000 = Some ps /\
    p_seen ps = [py "password = hunter2hunter2 # x"] /\
    p_out ps = [LlmEntry key_file 1
                  [key_file ++ py ": password" ++ arrow
                   ++ py "hard-coded password"]] /\
    staged_bytes (p_repo ps) key_file = Some (py "password = api_key_llm # x") /\
    repo_worktree (p_repo ps) !! key_file
    = Some (py "password = hunter2hunter2 # x").
Proof.
  eexists. split; [vm_compute; reflexivity|].
  repeat split; vm_compute; reflexivity.
Qed.

(** ** The workflow: the claims *)

Definition is_warn (d : detail) : bool :=
  match d with Warn _ => true | _ => false end.

Definition a_world : world :=
  World true [] FetchDone false true [] [] (py "chore: commit staged changes")
        None PushDone.




(** ** The pattern pass: how much a redaction takes away *)

Section Shrink.

Variable uni_alnum : N -> bool.

(** A replacement that is shorter than its match by [d] characters or more
    makes [sub] leave the text alone or shorten it by that much. *)
Lemma sub_go_shrinks_by (d : nat) r rp :
  (forall prev s m, head (run uni_alnum r (Mst prev s [])) = Some m ->
     (length (rp m) + d <= length s - length (m_rest m))%nat) ->
  forall s prev skip, (skip <= length s)%nat ->
    let '(o, b) := sub_go uni_alnum r rp prev s skip in
    if b then (length o + skip + d <= length s)%nat else o = drop skip s.
Proof.
  intros Hrp. induction s as [|c t IH]; intros prev skip Hs.
  - simpl. destruct skip; reflexivity.
  - simpl in Hs. destruct skip as [|k].
    + cbn [sub_go].
      destruct (head (run uni_alnum r (Mst prev (c :: t) []))) as [m|] eqn:Hm.
      * apply Hrp in Hm.
        destruct (length (c :: t) - length (m_rest m))%nat as [|k] eqn:Ek.
        -- specialize (IH (Some c) 0%nat ltac:(lia)).
           destruct (sub_go uni_alnum r rp (Some c) t 0) as [o b].
           destruct b; simpl; [lia | rewrite IH, drop_0; reflexivity].
        -- simpl in Ek. specialize (IH (Some c) k ltac:(lia)).
           destruct (sub_go uni_alnum r rp (Some c) t k) as [o b].
           rewrite length_app. simpl.
           assert (length o + k <= length t)%nat.
           { destruct b; [lia | subst o; rewrite length_drop; lia]. }
           lia.
      * specialize (IH (Some c) 0%nat ltac:(lia)).
        destruct (sub_go uni_alnum r rp (Some c) t 0) as [o b].
        destruct b; simpl; [lia | rewrite IH, drop_0; reflexivity].
    + cbn [sub_go]. specialize (IH (Some c) k ltac:(lia)).
      destruct (sub_go uni_alnum r rp (Some c) t k) as [o b].
      destruct b; simpl; [lia | assumption].
Qed.

Lemma repl_shorter_by (d : nat) A B C D prev s m :
  no_grp A = true -> no_grp B = true -> no_grp C = true -> no_grp D = true ->
  (7 + d <= min_len C)%nat ->
  head (run uni_alnum (four A B C D) (Mst prev s [])) = Some m ->
  (length (repl 1 2 4 m) + d <= length s - length (m_rest m))%nat.
Proof.
  intros GA GB GC GD HC H. apply head_In in H.
  apply run_four in H as (g1 & g2 & g3 & g4 & E & _ & _ & L3 & _ & G);
    try assumption.
  simpl in E. subst s. rewrite (repl_four _ _ _ _ _ _ G).
  apply lang_min_len in L3.
  rewrite !length_app, api_key_length. lia.
Qed.

Lemma kv1_shorter_by prev s m :
  head (run uni_alnum kv1 (Mst prev s [])) = Some m ->
  (length (repl 1 2 4 m) + 4 <= length s - length (m_rest m))%nat.
Proof. apply repl_shorter_by; first [reflexivity | simpl; lia]. Qed.

Lemma kv2_shorter_by prev s m :
  head (run uni_alnum kv2 (Mst prev s [])) = Some m ->
  (length (repl 1 2 4 m) + 4 <= length s - length (m_rest m))%nat.
Proof. apply repl_shorter_by; first [reflexivity | simpl; lia]. Qed.

(** Where the text stands after some of the passes: untouched and not
    flagged, or flagged and shorter than the input by 4 characters or
    more. *)
Definition tracked_by (d : nat) (s0 : str) (acc : str * bool) : Prop :=
  (snd acc = false /\ fst acc = s0) \/
  (snd acc = true /\ (length (fst acc) + d <= length s0)%nat).

Lemma kv_step_tracked_by s0 acc p :
  In p KV_VALUE_PATTERNS -> tracked_by 4 s0 acc ->
  tracked_by 4 s0 (kv_step uni_alnum acc p).
Proof.
  intros Hp T. destruct acc as [s ch]. unfold kv_step.
  assert (forall prev s m,
    head (run uni_alnum (fst (fst (fst (fst p)))) (Mst prev s [])) = Some m ->
    (length (repl (snd (fst (fst (fst p)))) (snd (fst (fst p))) (snd p) m) + 4
       <= length s - length (m_rest m))%nat) as Hs.
  { destruct Hp as [<-|[<-|[]]]; simpl; [apply kv1_shorter_by | apply kv2_shorter_by]. }
  destruct p as [[[[rx gp] go] gv] gs]. simpl in Hs.
  pose proof (sub_go_shrinks_by 4 rx (repl gp go gs) Hs s None 0%nat
                ltac:(lia)) as P.
  fold (sub uni_alnum rx (repl gp go gs) s) in P.
  destruct (sub uni_alnum rx (repl gp go gs) s) as [s2 called].
  unfold tracked_by in *. simpl in *.
  destruct called.
  - right. rewrite orb_true_r. simpl. split; [reflexivity|].
    destruct T as [[_ ->]|[_ T]]; lia.
  - rewrite drop_0 in P. subst s2. rewrite str_eqb_refl, !orb_false_r. simpl.
    destruct T as [[-> ->]|[-> T]]; auto.
Qed.

Lemma _sanitize_text_tracked_by s :
  tracked_by 4 s (_sanitize_text uni_alnum s).
Proof.
  unfold _sanitize_text.
  assert (tracked_by 4 s (kv_pass uni_alnum s)) as T.
  { unfold kv_pass, KV_VALUE_PATTERNS. cbn [fold_left].
    apply kv_step_tracked_by; [right; left; reflexivity|].
    apply kv_step_tracked_by; [left; reflexivity|]. left. auto. }
  destruct (kv_pass uni_alnum s) as [s1 ch].
  assert (forall prev s m,
    head (run uni_alnum token_union (Mst prev s [])) = Some m ->
    (length api_key + 4 <= length s - length (m_rest m))%nat) as Hs.
  { intros prev s' m H. apply head_In, run_min_len in H. simpl m_rest in H.
    rewrite token_min_len in H. rewrite api_key_length. lia. }
  pose proof (sub_go_shrinks_by 4 token_union (fun _ => api_key) Hs s1 None
                0%nat ltac:(lia)) as P.
  fold (sub uni_alnum token_union (fun _ => api_key) s1) in P.
  destruct (sub uni_alnum token_union (fun _ => api_key) s1) as [s2 called].
  unfold tracked_by in *. simpl in *.
  destruct called.
  - right. rewrite str_eqb_length by lia. simpl. split; [reflexivity|].
    destruct T as [[_ ->]|[_ T]]; lia.
  - rewrite drop_0 in P. subst s2. rewrite str_eqb_refl. simpl. assumption.
Qed.

(** No match of [r] starts in a text shorter than [min_len r]. *)
Lemma run_short r st :
  (length (m_rest st) < min_len r)%nat -> run uni_alnum r st = [].
Proof.
  intros H. destruct (run uni_alnum r st) as [|st' l] eqn:E; [reflexivity|].
  assert (In st' (run uni_alnum r st)) as Hin by (rewrite E; left; reflexivity).
  apply run_min_len in Hin. lia.
Qed.

Lemma sub_short r rp s :
  (length s < min_len r)%nat -> sub uni_alnum r rp s = (s, false).
Proof.
  intros H. apply sub_nomatch. intros pre suf -> pv. apply run_short.
  simpl. rewrite length_app in H. lia.
Qed.

End Shrink.

(** X1: [_sanitize_text] never lengthens a text: the text it returns is the
    input itself, with the flag [false], or a text shorter than the input by
    4 characters or more, with the flag [true]. *)
Theorem sanitize_text_shrinks (uni_alnum : N -> bool) (s : str) :
  _sanitize_text uni_alnum s = (s, false) \/
  (snd (_sanitize_text uni_alnum s) = true /\
   (length (fst (_sanitize_text uni_alnum s)) + 4 <= length s)%nat).
Proof.
  destruct (_sanitize_text_tracked_by uni_alnum s) as [[Hc Hs] | H].
  - left. destruct (_sanitize_text uni_alnum s). simpl in *. congruence.
  - right. exact H.
Qed.

(** X2: a text of fewer than 11 characters is returned as it is, with the
    flag [false]; 11 is the least such bound, the text [sk-abcdefgh] being
    replaced. *)
Theorem sanitize_text_short_unchanged (uni_alnum : N -> bool) (s : str) :
  (length s < 11)%nat ->
  _sanitize_text uni_alnum s = (s, false) /\
  _sanitize_text uni_alnum (py "sk-abcdefgh") = (py "api_key", true).
Proof.
  intros H. split; [|vm_compute; reflexivity].
  assert (forall rx, (11 <= min_len rx)%nat ->
            kv_step uni_alnum (s, false) (rx, 1, 2, 3, 4)%nat = (s, false)) as Hk.
  { intros rx Hrx. unfold kv_step.
    rewrite (sub_short uni_alnum rx) by lia.
    rewrite str_eqb_refl. reflexivity. }
  unfold _sanitize_text, kv_pass, KV_VALUE_PATTERNS. cbn [fold_left].
  rewrite (Hk kv1) by (simpl; lia). rewrite (Hk kv2) by (simpl; lia).
  rewrite (sub_short uni_alnum token_union) by (rewrite token_min_len; lia).
  cbn [fst]. rewrite str_eqb_refl. reflexivity.
Qed.

Lemma sanitize_text_short_unchanged_witness :
  _sanitize_text ascii_only (py "sk-abcdefg") = (py "sk-abcdefg", false) /\
  _sanitize_text ascii_only (py "sk-abcdefgh") = (py "api_key", true).
Proof.
  apply (sanitize_text_short_unchanged ascii_only (py "sk-abcdefg")).
  vm_compute. lia.
Defined.

(** X3: every character of the text [_sanitize_text] returns is a character
    of the input or of the redaction token. *)
Theorem sanitize_text_alphabet (uni_alnum : N -> bool) (s : str) :
  Forall (fun c => c ∈ s \/ c ∈ api_key) (fst (_sanitize_text uni_alnum s)).
Proof.
  pose (P := fun c : N => bool_decide (c ∈ s \/ c ∈ api_key)).
  assert (forall l, forallb P l = true <-> Forall (fun c => c ∈ s \/ c ∈ api_key) l)
    as HP.
  { intros l. rewrite forallb_forall, Forall_forall. unfold P.
    split; intros H c Hc.
    - apply list_elem_of_In in Hc. apply H in Hc.
      apply bool_decide_eq_true in Hc. exact Hc.
    - apply bool_decide_eq_true. apply H. apply list_elem_of_In. exact Hc. }
  apply HP. apply _sanitize_text_forallb.
  - apply HP. apply Forall_forall. auto.
  - apply HP. apply Forall_forall. auto.
Qed.

(** ** The passes: what is read, what is kept, what is reported *)

Lemma utf8_char_nul c bc : utf8_char c = Some bc -> (0 ∈ bc <-> c = 0).
Proof.
  unfold utf8_char. intros H.
  destruct (N.ltb_spec c 128).
  { injection H as <-. rewrite list_elem_of_singleton. split; congruence. }
  destruct (N.ltb_spec c 2048).
  { injection H as <-. rewrite !elem_of_cons, elem_of_nil. dlia. }
  destruct (N.ltb_spec c 65536).
  { destruct (surrogate c); [discriminate|]. injection H as <-.
    rewrite !elem_of_cons, elem_of_nil. dlia. }
  destruct (N.ltb_spec c 1114112); [|discriminate].
  injection H as <-. rewrite !elem_of_cons, elem_of_nil. dlia.
Qed.

Lemma utf8_char_of_nul : utf8_char 0 = Some [0].
Proof. reflexivity. Qed.

Lemma utf8_encode_ignore_nul raw : 0 ∈ utf8_encode_ignore raw <-> 0 ∈ raw.
Proof.
  induction raw as [|c t IH]; simpl; [reflexivity|].
  rewrite elem_of_app, elem_of_cons, IH.
  destruct (utf8_char c) as [bc|] eqn:Ec; simpl.
  - rewrite (utf8_char_nul _ _ Ec). intuition congruence.
  - rewrite elem_of_nil. split; [tauto|]. intros [Hc|H]; [|tauto].
    subst c. rewrite utf8_char_of_nul in Ec. discriminate.
Qed.

(** X4: the data that both passes build from the output of
    [repo.git.show] by [encode("utf-8", errors="ignore")] passes
    [_is_probably_text] exactly when the output holds no NUL character: the
    UTF-8 test of [_is_probably_text] cannot fail on it. *)
Theorem shown_blob_is_text_iff (raw : str) :
  _is_probably_text (utf8_encode_ignore raw) = true <-> 0 ∉ raw.
Proof.
  rewrite reencoded_is_text, negb_true_iff, bool_decide_eq_false.
  rewrite utf8_encode_ignore_nul. reflexivity.
Qed.

Lemma reencoded_nul_rejected raw :
  0 ∈ raw -> _is_probably_text (utf8_encode_ignore raw) = false.
Proof.
  intros H. rewrite reencoded_is_text. apply negb_false_iff.
  apply bool_decide_eq_true. apply utf8_encode_ignore_nul. exact H.
Qed.

Section PassInvariants.

Variable uni_alnum : N -> bool.
Variable git_output : bytes -> str.
Variable hash_object : bytes -> str.
Variable E : env.

Local Abbreviation wblob' := (write_blob hash_object E).
Local Abbreviation sstep' := (sanitize_step uni_alnum git_output hash_object E).
Local Abbreviation lstep' := (llm_step git_output hash_object E).
Local Abbreviation rstaged' := (read_staged git_output).

(** X5: a staged blob whose text, as [repo.git.show] returns it, holds a
    NUL character is skipped by a round of either pass: the repository, the
    list returned and the texts handed to detection stay as they are. *)
Theorem nul_blob_is_skipped (M : Z) (ps1 : pass sanitized_entry)
    (ps2 : pass llm_entry) (path : str) (blob1 blob2 : bytes) :
  staged_bytes (p_repo ps1) path = Some blob1 -> 0 ∈ git_output blob1 ->
  staged_bytes (p_repo ps2) path = Some blob2 -> 0 ∈ git_output blob2 ->
  sstep' ps1 path = Some ps1 /\ lstep' M ps2 path = Some ps2.
Proof.
  intros H1 N1 H2 N2. split.
  - apply (binary_data_skipped_pattern _ _ _ _ _ _
             (utf8_encode_ignore (git_output blob1))).
    + apply read_staged_blob. exact H1.
    + apply reencoded_nul_rejected. assumption.
  - apply (binary_data_skipped_semantic _ _ _ _ _ _
             (utf8_encode_ignore (git_output blob2))).
    + apply read_staged_blob. exact H2.
    + apply reencoded_nul_rejected. assumption.
Qed.

(** [git update-index --cacheinfo] is given the mode the path has in the
    index: the entry written has the mode of the entry it replaces. *)
Lemma write_blob_modes r path content e q :
  repo_index r !! path = Some e ->
  e_mode <$> repo_index (wblob' r path content).1.1 !! q
  = e_mode <$> repo_index r !! q.
Proof.
  intros He. unfold write_blob.
  destruct (hash_ok E path); [|reflexivity].
  destruct (update_ok E path); [|reflexivity].
  simpl. unfold _blob_mode_from_index. simpl. rewrite He.
  destruct (decide (q = path)) as [->|Hq].
  - rewrite lookup_insert_eq, He. reflexivity.
  - rewrite lookup_insert_ne by congruence. reflexivity.
Qed.

Lemma write_blob_reported r path content :
  (wblob' r path content).2 = true ->
  hash_ok E path = true /\ update_ok E path = true.
Proof.
  unfold write_blob.
  destruct (hash_ok E path); [|discriminate].
  destruct (update_ok E path); [auto | discriminate].
Qed.

Lemma sanitize_step_modes ps path ps' q :
  sstep' ps path = Some ps' ->
  e_mode <$> repo_index (p_repo ps') !! q
  = e_mode <$> repo_index (p_repo ps) !! q.
Proof.
  intros H. destruct (repo_index (p_repo ps) !! path) as [e|] eqn:Ei.
  - apply sanitize_step_is_outcome in H.
    destruct H as [H | data H1 H2 H3 | data content H1 H2 H3 H4];
      try reflexivity.
    simpl. eapply write_blob_modes; eassumption.
  - unfold sanitize_step in H. rewrite Ei in H. injection H as <-.
    reflexivity.
Qed.

Lemma llm_step_modes M ps path ps' q :
  lstep' M ps path = Some ps' ->
  e_mode <$> repo_index (p_repo ps') !! q
  = e_mode <$> repo_index (p_repo ps) !! q.
Proof.
  intros H. destruct (repo_index (p_repo ps) !! path) as [e|] eqn:Ei.
  - apply llm_step_outcome in H.
    destruct H as [H | | ]; try reflexivity.
    simpl. eapply write_blob_modes; eassumption.
  - unfold llm_step in H. rewrite Ei in H. injection H as <-. reflexivity.
Qed.

(** An invariant of the rounds over the paths of a list is an invariant of
    the pass over that list. *)
Lemma run_steps_invariant_in {R} (step : pass R -> str -> option (pass R))
    (I : pass R -> Prop) (all : list str) :
  (forall ps p ps', p ∈ all -> I ps -> step ps p = Some ps' -> I ps') ->
  forall paths ps ps', paths ⊆ all -> I ps ->
    run_steps step paths ps = Some ps' -> I ps'.
Proof.
  intros Hstep. induction paths as [|p rest IH]; intros ps ps' Hs Hi H;
    simpl in H.
  - injection H as <-. exact Hi.
  - destruct (step ps p) as [ps1|] eqn:E1; [|discriminate]. simpl in H.
    eapply (IH ps1).
    + intros x Hx. apply Hs. right. exact Hx.
    + eapply Hstep; [|exact Hi|exact E1]. apply Hs. left.
    + exact H.
Qed.

Lemma run_steps_total {R} (step : pass R -> str -> option (pass R)) :
  (forall ps p, exists ps', step ps p = Some ps') ->
  forall paths ps, exists ps', run_steps step paths ps = Some ps'.
Proof.
  intros Hstep. induction paths as [|p rest IH]; intros ps; simpl; [eauto|].
  destruct (Hstep ps p) as (ps1 & ->). simpl. apply IH.
Qed.

(** X6: neither pass adds a path to the index, removes one, or changes the
    mode of an entry: after a pass every path has the mode bits it had
    before. *)
Theorem passes_keep_paths_and_modes :
  (forall r ps q,
     sanitize_staged_secrets_in_index uni_alnum git_output hash_object E r
       = Some ps ->
     e_mode <$> repo_index (p_repo ps) !! q = e_mode <$> repo_index r !! q) /\
  (forall r M ps q,
     llm_scan_staged_secrets_in_index git_output hash_object E r M = Some ps ->
     e_mode <$> repo_index (p_repo ps) !! q = e_mode <$> repo_index r !! q).
Proof.
  split.
  - intros r ps q H. unfold sanitize_staged_secrets_in_index in H.
    refine (run_steps_invariant sstep'
              (fun ps => e_mode <$> repo_index (p_repo ps) !! q
                         = e_mode <$> repo_index r !! q)
              _ _ (Pass r [] []) _ eq_refl H).
    intros ? ? ? Hi Hs. rewrite <- Hi. eapply sanitize_step_modes, Hs.
  - intros r M ps q H. unfold llm_scan_staged_secrets_in_index in H.
    destruct (staged_paths E r) as [|p l] eqn:Ep;
      [injection H as <-; reflexivity|].
    refine (run_steps_invariant (lstep' M)
              (fun ps => e_mode <$> repo_index (p_repo ps) !! q
                         = e_mode <$> repo_index r !! q)
              _ _ (Pass r [] []) _ eq_refl H).
    intros ? ? ? Hi Hs. rewrite <- Hi. eapply llm_step_modes, Hs.
Qed.

(** What the pattern pass reports about a path. *)
Definition rewritten_entry (r : repo) (e : sanitized_entry) : Prop :=
  s_replaced e = true /\ s_path e ∈ staged_paths E r /\
  is_Some (repo_index r !! s_path e) /\
  hash_ok E (s_path e) = true /\ update_ok E (s_path e) = true.

(** X7: the pattern pass always returns: encoding the sanitized text
    cannot raise.  Each dictionary of the list it returns has
    [replaced = True] and names a staged path that is in the index and for
    which both git commands succeeded. *)
Theorem pattern_pass_returns (r : repo) :
  exists ps,
    sanitize_staged_secrets_in_index uni_alnum git_output hash_object E r
      = Some ps /\
    Forall (rewritten_entry r) (p_out ps).
Proof.
  unfold sanitize_staged_secrets_in_index.
  destruct (run_steps_total sstep') with (paths := staged_paths E r)
    (ps := Pass r [] [] : pass sanitized_entry) as (ps & H).
  { intros ps p.
    destruct (sanitize_step_outcome uni_alnum git_output hash_object E ps p)
      as (ps' & H & _). eauto. }
  exists ps. split; [exact H|].
  pose (I := fun ps : pass sanitized_entry =>
     (forall q, e_mode <$> repo_index (p_repo ps) !! q
                = e_mode <$> repo_index r !! q) /\
     Forall (rewritten_entry r) (p_out ps)).
  assert (I ps) as [_ HI]; [|exact HI].
  refine (run_steps_invariant_in sstep' I (staged_paths E r) _
            (staged_paths E r) (Pass r [] []) ps _ _ H).
  - intros ps0 p ps' Hp [Hm Ho] Hs. split.
    + intros q. rewrite <- Hm. eapply sanitize_step_modes, Hs.
    + destruct (repo_index (p_repo ps0) !! p) as [e|] eqn:Ei.
      * apply sanitize_step_is_outcome in Hs.
        destruct Hs as [ | | data content H1 H2 H3 H4]; try exact Ho. simpl.
        destruct ((wblob' (p_repo ps0) p content).2) eqn:Ew; [|exact Ho].
        apply Forall_app. split; [exact Ho|]. constructor; [|constructor].
        apply write_blob_reported in Ew as [Hh Hu].
        unfold rewritten_entry. simpl. repeat split; auto.
        specialize (Hm p). rewrite Ei in Hm. simpl in Hm.
        destruct (repo_index r !! p); [eauto | discriminate].
      * unfold sanitize_step in Hs. rewrite Ei in Hs. injection Hs as <-.
        exact Ho.
  - reflexivity.
  - split; [reflexivity | constructor].
Qed.

(** What the semantic pass reports about a path. *)
Definition scanned_entry (r : repo) (e : llm_entry) : Prop :=
  r_path e ∈ staged_paths E r /\ is_Some (repo_index r !! r_path e) /\
  (0 <= r_replaced_count e)%Z /\
  (r_replaced_count e <> 0%Z ->
   hash_ok E (r_path e) = true /\ update_ok E (r_path e) = true).

Lemma llm_result_entry path rs notes hashed updated :
  r_path (llm_result path rs notes hashed updated) = path /\
  (0 <= r_replaced_count (llm_result path rs notes hashed updated))%Z /\
  (r_replaced_count (llm_result path rs notes hashed updated) <> 0%Z ->
   updated = true).
Proof.
  unfold llm_result. destruct updated; [|destruct hashed]; simpl;
    repeat split; try (unfold len; lia); congruence.
Qed.

(** X8: with [max_chars_per_call] above the overlap of 200 the semantic
    pass always returns.  Each dictionary of the list it returns names a
    staged path that is in the index, and has a [replaced_count] that is not
    negative and is 0 unless both git commands succeeded for the path. *)
Theorem semantic_pass_returns (r : repo) (M : Z) :
  (200 < M)%Z ->
  exists ps,
    llm_scan_staged_secrets_in_index git_output hash_object E r M = Some ps /\
    Forall (scanned_entry r) (p_out ps).
Proof.
  intros HM.
  destruct (run_steps_total (lstep' M)) with (paths := staged_paths E r)
    (ps := Pass r [] [] : pass llm_entry) as (ps & H).
  { intros ps p. apply llm_step_total. exact HM. }
  exists ps. split.
  { unfold llm_scan_staged_secrets_in_index. revert H.
    destruct (staged_paths E r); intros H; exact H. }
  pose (I := fun ps : pass llm_entry =>
     (forall q, e_mode <$> repo_index (p_repo ps) !! q
                = e_mode <$> repo_index r !! q) /\
     Forall (scanned_entry r) (p_out ps)).
  assert (I ps) as [_ HI]; [|exact HI].
  refine (run_steps_invariant_in (lstep' M) I (staged_paths E r) _
            (staged_paths E r) (Pass r [] []) ps _ _ H).
  - intros ps0 p ps' Hp [Hm Ho] Hs. split.
    + intros q. rewrite <- Hm. eapply llm_step_modes, Hs.
    + destruct (repo_index (p_repo ps0) !! p) as [e|] eqn:Ei.
      * apply llm_step_outcome in Hs.
        destruct Hs as [ | | data chunks rs ns seen content H1 H2 H3 H4 H5 H6 H7];
          try exact Ho.
        simpl. apply Forall_app. split; [exact Ho|].
        constructor; [|constructor].
        destruct (llm_result_entry p rs ns
                    (wblob' (p_repo ps0) p content).1.2
                    (wblob' (p_repo ps0) p content).2) as (Hp1 & Hp2 & Hp3).
        unfold scanned_entry. rewrite Hp1.
        split; [exact Hp|]. split; [|split; [exact Hp2|]].
        -- specialize (Hm p). rewrite Ei in Hm. simpl in Hm.
           destruct (repo_index r !! p); [eauto | discriminate].
        -- intros Hne. apply Hp3 in Hne. apply write_blob_reported in Hne.
           exact Hne.
      * unfold llm_step in Hs. rewrite Ei in Hs. injection Hs as <-.
        exact Ho.
  - reflexivity.
  - split; [reflexivity | constructor].
Qed.

(** X9: with [max_chars_per_call] at most the overlap of 200, a round of
    the semantic pass on a text file that is not empty and longer than
    [max_chars_per_call] does not return: the loop of [_chunk_text] goes back
    to offset 0 after each chunk, for ever. *)
Theorem small_budget_never_returns (M : Z) (ps : pass llm_entry) (path : str)
    (e : entry) (data : bytes) :
  repo_index (p_repo ps) !! path = Some e ->
  rstaged' (p_repo ps) path = Some data ->
  _is_probably_text data = true ->
  (M <= 200)%Z -> (M < len (decode_replace data))%Z ->
  (0 < len (decode_replace data))%Z ->
  lstep' M ps path = None /\
  forall fuel out, chunk_loop fuel (decode_replace data) M 200 0 out = None.
Proof.
  intros Hi Hr Ht HM Hl H0.
  pose proof (chunk_loop_diverges (decode_replace data) M 200 HM Hl H0) as Hd.
  split; [|exact Hd].
  unfold llm_step. rewrite Hi, Hr, Ht. cbn [negb]. unfold _chunk_text.
  destruct (Z.leb_spec (len (decode_replace data)) M); [lia|].
  rewrite Hd. reflexivity.
Qed.

(** A reply of the service that adds no range: the request raised, or no
    finding of the reply is kept. *)
Definition adds_no_range (path : str) (base : Z) (chunk : str) : Prop :=
  match llm E path base chunk with
  | LlmRaised _ => True
  | LlmFindings fs => chunk_ranges base chunk fs = []
  end.

Lemma scan_adds_no_range path chunks :
  (forall base chunk, adds_no_range path base chunk) ->
  forall acc, (fold_left (scan_chunk E path) chunks acc).1.1 = acc.1.1.
Proof.
  intros Hn. induction chunks as [|[base chunk] cs IH]; intros acc;
    [reflexivity|].
  simpl. rewrite IH. destruct acc as [[rs ns] seen]. simpl.
  specialize (Hn base chunk). unfold adds_no_range in Hn.
  destruct (llm E path base chunk); simpl; [reflexivity|].
  rewrite Hn, app_nil_r. reflexivity.
Qed.

(** X10: when every request for a file raises, or returns findings of which
    none is kept, the round of the semantic pass leaves the repository and
    the list returned as they are: the notes about the requests that raised
    are dropped with the file. *)
Theorem no_kept_range_no_entry (M : Z) (ps : pass llm_entry) (path : str) :
  (200 < M)%Z ->
  (forall base chunk, adds_no_range path base chunk) ->
  exists ps', lstep' M ps path = Some ps' /\
              p_repo ps' = p_repo ps /\ p_out ps' = p_out ps.
Proof.
  intros HM Hn. unfold llm_step.
  destruct (repo_index (p_repo ps) !! path); [|eauto].
  destruct (read_staged git_output (p_repo ps) path) as [data|]; [|eauto].
  destruct (_is_probably_text data); cbn [negb]; [|eauto].
  destruct (_chunk_text_total (decode_replace data) M 200 ltac:(lia))
    as (chunks & ->).
  cbn [mbind option_bind].
  pose proof (scan_adds_no_range path chunks Hn ([], [], p_seen ps)) as Hf.
  destruct (fold_left (scan_chunk E path) chunks ([], [], p_seen ps))
    as [[all_ranges notes] seen].
  simpl in Hf. subst all_ranges. eauto.
Qed.

(** X11: what a pass stages for a path it reports as rewritten is the
    UTF-8 form of the text it computed: the blob decodes to the text
    [_sanitize_text] returned for the staged text in the pattern pass; in
    the semantic pass, to the staged text with the ranges replaced that the
    scan of its chunks collected, [replaced_count] being their number and
    the notes of the entry those of the scan. *)
Theorem rewritten_blob_decodes_to_result :
  (forall ps path ps',
     sstep' ps path = Some ps' ->
     p_out ps' = p_out ps ++ [Sanitized path true] ->
     exists data content,
       rstaged' (p_repo ps) path = Some data /\
       staged_bytes (p_repo ps') path = Some content /\
       utf8_decode content
       = Some (fst (_sanitize_text uni_alnum (decode_replace data)))) /\
  (forall M ps path ps' n notes,
     lstep' M ps path = Some ps' ->
     p_out ps' = p_out ps ++ [LlmEntry path n notes] -> n <> 0%Z ->
     exists data content chunks ranges,
       rstaged' (p_repo ps) path = Some data /\
       _chunk_text (decode_replace data) M 200 = Some chunks /\
       fold_left (scan_chunk E path) chunks ([], [], p_seen ps)
       = (ranges, notes, p_seen ps') /\
       len ranges = n /\
       staged_bytes (p_repo ps') path = Some content /\
       utf8_decode content
       = Some (_apply_replacements_by_ranges (decode_replace data) ranges
                 (py "api_key_llm"))).
Proof.
  split.
  - intros ps path ps' H Ho. apply sanitize_step_is_outcome in H.
    destruct H as [H | data H1 H2 H3 | data content H1 H2 H3 H4];
      simpl in Ho; try (exfalso; apply (app_one_neq _ _ Ho)).
    destruct (wblob' (p_repo ps) path content) as [[r' hashed] updated] eqn:Ew.
    simpl in *. destruct updated; [|exfalso; apply (app_one_neq _ _ Ho)].
    exists data, content. split; [exact H1|]. split.
    + apply (write_blob_updated _ _ _ _ _ _ _ Ew).
    + apply utf8_decode_encode. exact H4.
  - intros M ps path ps' n notes H Ho Hn. apply llm_step_outcome in H.
    destruct H as [H | data chunks rs ns seen H1 H2 H3 H4 H5
                     | data chunks rs ns seen content H1 H2 H3 H4 H5 H6 H7];
      simpl in Ho; try (exfalso; apply (app_one_neq _ _ Ho)).
    apply app_inj_tail in Ho as [_ Ho].
    destruct (wblob' (p_repo ps) path content) as [[r' hashed] updated] eqn:Ew.
    simpl in *. unfold llm_result in Ho.
    destruct updated; [|destruct hashed; injection Ho as <- _; congruence].
    injection Ho as <- <-.
    exists data, content, chunks, rs.
    split; [exact H1|]. split; [exact H3|]. split; [exact H4|].
    split; [reflexivity|]. split.
    + apply (write_blob_updated _ _ _ _ _ _ _ Ew).
    + apply utf8_decode_encode. exact H7.
Qed.

End PassInvariants.

Definition nul_file : bytes := py "key=" ++ [0] ++ secret_line.

Lemma nul_blob_is_skipped_witness :
  sanitize_step ascii_only gitpython_output content_id env_ok
    (Pass (one_file key_file nul_file) [] []) key_file
  = Some (Pass (one_file key_file nul_file) [] []) /\
  llm_step gitpython_output content_id env_ok 60000
    (Pass (one_file key_file nul_file) [] []) key_file
  = Some (Pass (one_file key_file nul_file) [] []).
Proof.
  apply (nul_blob_is_skipped ascii_only gitpython_output content_id env_ok
           60000 (Pass (one_file key_file nul_file) [] [])
           (Pass (one_file key_file nul_file) [] []) key_file
           nul_file nul_file).
  - reflexivity.
  - apply list_elem_of_In. vm_compute. do 4 right. left. reflexivity.
  - reflexivity.
  - apply list_elem_of_In. vm_compute. do 4 right. left. reflexivity.
Defined.

Lemma semantic_pass_returns_witness :
  exists ps,
    llm_scan_staged_secrets_in_index gitpython_output content_id env_ok
      (one_file key_file secret_line) 60000 = Some ps /\
    Forall (scanned_entry env_ok (one_file key_file secret_line)) (p_out ps).
Proof.
  apply (semantic_pass_returns gitpython_output content_id env_ok
           (one_file key_file secret_line) 60000).
  lia.
Defined.

Lemma small_budget_never_returns_witness :
  llm_step gitpython_output content_id env_ok 0
    (Pass (one_file key_file secret_line) [] []) key_file = None /\
  forall fuel out,
    chunk_loop fuel (decode_replace secret_line) 0 200 0 out = None.
Proof.
  apply (small_budget_never_returns gitpython_output content_id env_ok 0
           (Pass (one_file key_file secret_line) [] []) key_file
           (Entry default_mode (content_id secret_line)) secret_line).
  - reflexivity.
  - vm_compute. reflexivity.
  - vm_compute. reflexivity.
  - lia.
  - vm_compute. reflexivity.
  - vm_compute. reflexivity.
Defined.

(** A service that is out of reach. *)
Definition env_service_down : env :=
  Env None (fun _ => true) (fun _ => true)
      (fun _ _ _ => LlmRaised (py "timed out")).

Lemma no_kept_range_no_entry_witness :
  exists ps',
    llm_step gitpython_output content_id env_service_down 60000
      (Pass (one_file key_file secret_line) [] []) key_file = Some ps' /\
    p_repo ps' = one_file key_file secret_line /\ p_out ps' = [].
Proof.
  apply (no_kept_range_no_entry gitpython_output content_id env_service_down
           60000 (Pass (one_file key_file secret_line) [] []) key_file).
  - lia.
  - intros base chunk. exact I.
Defined.

Lemma rewritten_blob_decodes_to_result_witness :
  exists data content,
    read_staged gitpython_output (one_file key_file secret_line) key_file
      = Some data /\
    staged_bytes (p_repo key_file_rewritten) key_file = Some content /\
    utf8_decode content
    = Some (fst (_sanitize_text ascii_only (decode_replace data))).
Proof.
  apply (proj1 (rewritten_blob_decodes_to_result ascii_only gitpython_output
                  content_id env_ok)
               (Pass (one_file key_file secret_line) [] []) key_file
               key_file_rewritten).
  - vm_compute. reflexivity.
  - reflexivity.
Defined.

(** ** The ranges of the semantic pass *)

Section Ranges.
Local Open Scope Z_scope.

Lemma lstrip_length s : (length (lstrip s) <= length s)%nat.
Proof.
  induction s as [|c t IH]; simpl; [lia|].
  destruct (is_space c); simpl; lia.
Qed.

Lemma strip_length s : (length (strip s) <= length s)%nat.
Proof.
  unfold strip. rewrite length_rev.
  pose proof (lstrip_length (rev (lstrip s))) as H1.
  pose proof (lstrip_length s) as H2. rewrite length_rev in H1. lia.
Qed.

(** A range that is kept lies within the chunk and spans 8 characters or
    more. *)
Lemma reconcile_bounds base chunk f a b :
  reconcile base chunk f = Some (a, b) ->
  base <= a /\ a + 8 <= b /\ b <= base + len chunk.
Proof.
  destruct (settle_located chunk f) as (s & e & Hl & E).
  unfold reconcile.
  destruct ((0 <=? f_start f) && (f_start f <? f_end f)
            && (f_end f <? len chunk)) eqn:V; [|discriminate].
  apply valid_span_dec in V. destruct V as [V1 V2]. rewrite E.
  destruct (Z.leb_spec 8 (len (strip (slice chunk s e)))) as [H8|H8];
    [|discriminate].
  intros [= <- <-].
  assert (0 <= s <= e /\ e <= len chunk) as (Hs & He).
  { destruct Hl as [(_ & _ & k & -> & -> & _ & Hk & _) | (-> & -> & _)];
      unfold len in *; lia. }
  destruct (slice_inside chunk s e Hs He) as [_ Hlen].
  pose proof (strip_length (slice chunk s e)) as Hst. unfold len in *. lia.
Qed.

Lemma omap_step {A B} (f : A -> option B) x l :
  omap f (x :: l)
  = match f x with Some y => y :: omap f l | None => omap f l end.
Proof. reflexivity. Qed.

Lemma length_omap_le {A B} (f : A -> option B) l :
  (length (omap f l) <= length l)%nat.
Proof.
  induction l as [|x l IH]; [simpl; lia|].
  rewrite omap_step. destruct (f x); simpl; lia.
Qed.

(** X12: the ranges a chunk contributes lie within the chunk, moved by the
    offset of the chunk, and span 8 characters or more each; there is at
    most one range for each finding of the reply. *)
Theorem kept_ranges_in_chunk (base : Z) (chunk : str) (fs : list finding) :
  Forall (fun r => base <= fst r /\ fst r + 8 <= snd r /\
                   snd r <= base + len chunk)
         (chunk_ranges base chunk fs) /\
  (length (chunk_ranges base chunk fs) <= length fs)%nat.
Proof.
  split; [|apply length_omap_le].
  apply Forall_forall. intros [a b] Hin. unfold chunk_ranges in Hin.
  apply list_elem_of_omap in Hin as (f & _ & Hf).
  apply reconcile_bounds in Hf. exact Hf.
Qed.

Lemma _chunk_text_bounds text M O chunks :
  0 <= O < M -> _chunk_text text M O = Some chunks ->
  forall c, In c chunks -> 0 <= fst c /\ fst c + len (snd c) <= len text.
Proof.
  intros HO H c Hc. destruct (Z_le_gt_dec (len text) M) as [Hle | Hgt].
  - unfold _chunk_text in H. destruct (Z.leb_spec (len text) M); [|lia].
    injection H as <-. destruct Hc as [<-|[]]. simpl. lia.
  - destruct (_chunk_text_chain M O HO text ltac:(lia)) as (cs & E & Hch).
    rewrite E in H. injection H as <-.
    destruct (chain_chunks M O HO _ _ _ Hch ltac:(lia) c Hc) as (H1 & _ & H3 & _).
    unfold chunk_end in H3. lia.
Qed.

Definition in_text (text : str) (r : Z * Z) : Prop :=
  0 <= fst r /\ fst r + 8 <= snd r /\ snd r <= len text.

Lemma scan_chunk_in_text (E : env) path text chunks :
  (forall c, In c chunks -> 0 <= fst c /\ fst c + len (snd c) <= len text) ->
  forall acc, Forall (in_text text) acc.1.1 ->
    Forall (in_text text) (fold_left (scan_chunk E path) chunks acc).1.1.
Proof.
  induction chunks as [|[base chunk] cs IH]; intros Hc acc Ha; [exact Ha|].
  simpl. apply IH; [intros c H; apply Hc; right; exact H|].
  destruct acc as [[rs ns] seen]. simpl in *.
  destruct (llm E path base chunk); simpl; [exact Ha|].
  apply Forall_app. split; [exact Ha|]. apply Forall_forall.
  intros [a b] Hin. unfold chunk_ranges in Hin.
  apply list_elem_of_omap in Hin as (f & _ & Hf).
  apply reconcile_bounds in Hf.
  destruct (Hc (base, chunk) (or_introl eq_refl)) as [H1 H2].
  unfold in_text. simpl in *. lia.
Qed.

(** X13: every range the loop over the chunks of a text collects lies
    within the text and spans 8 characters or more, whatever the service
    answers. *)
Theorem collected_ranges_in_text (E : env) (path text : str) (M : Z)
    (seen0 : list str) (chunks : list (Z * str)) (ranges : list (Z * Z))
    (notes seen : list str) :
  200 < M ->
  _chunk_text text M 200 = Some chunks ->
  fold_left (scan_chunk E path) chunks ([], [], seen0) = (ranges, notes, seen) ->
  Forall (fun r => 0 <= fst r /\ fst r + 8 <= snd r /\ snd r <= len text) ranges.
Proof.
  intros HM Hc Hf.
  pose proof (scan_chunk_in_text E path text chunks
                (_chunk_text_bounds text M 200 chunks ltac:(lia) Hc)
                ([], [], seen0) ltac:(constructor)) as H.
  rewrite Hf in H. exact H.
Qed.

(** *** Replacing by ranges *)

Lemma slice_prefix {A} (s : list A) j :
  0 <= j <= len s -> slice s 0 j = take (Z.to_nat j) s.
Proof.
  intros H. destruct (slice_inside s 0 j ltac:(lia) ltac:(lia)) as [-> _].
  rewrite Z.sub_0_r. reflexivity.
Qed.

Lemma slice_suffix {A} (s : list A) i :
  0 <= i <= len s -> slice s i (len s) = drop (Z.to_nat i) s.
Proof.
  intros H. destruct (slice_inside s i (len s) ltac:(lia) ltac:(lia)) as [-> _].
  apply take_ge. rewrite length_drop. unfold len. lia.
Qed.

Lemma replace_range_valid replacement out s e :
  0 <= s < e -> e <= len out ->
  replace_range replacement out (s, e)
  = take (Z.to_nat s) out ++ replacement ++ drop (Z.to_nat e) out.
Proof.
  intros Hs He. unfold replace_range.
  destruct (Z.leb_spec 0 s); [|lia]. destruct (Z.ltb_spec s e); [|lia].
  destruct (Z.leb_spec e (len out)); [|lia]. simpl.
  rewrite slice_prefix, slice_suffix by lia. reflexivity.
Qed.

Lemma replace_range_invalid replacement out s e :
  ~ (0 <= s < e /\ e <= len out) ->
  replace_range replacement out (s, e) = out.
Proof.
  intros H. unfold replace_range.
  destruct (Z.leb_spec 0 s); [|reflexivity].
  destruct (Z.ltb_spec s e); [|reflexivity].
  destruct (Z.leb_spec e (len out)); [lia | reflexivity].
Qed.

(** Ranges in ascending order from [pos] on: each one is not empty and
    ends before the next one begins, the last one within [n]. *)
Fixpoint ascending (pos n : Z) (l : list (Z * Z)) : Prop :=
  match l with
  | [] => pos <= n
  | r :: t => pos <= fst r < snd r /\ ascending (snd r) n t
  end.

(** The text between the ranges. *)
Fixpoint gaps (text : str) (pos : Z) (l : list (Z * Z)) : list str :=
  match l with
  | [] => [slice text pos (len text)]
  | r :: t => slice text pos (fst r) :: gaps text (snd r) t
  end.

Lemma ascending_le pos n l : ascending pos n l -> pos <= n.
Proof.
  revert pos. induction l as [|r t IH]; intros pos H; simpl in H; [exact H|].
  destruct H as [H1 H2]. apply IH in H2. lia.
Qed.

Lemma ascending_bounds pos n l :
  ascending pos n l -> forall r, r ∈ l -> pos <= fst r < snd r /\ snd r <= n.
Proof.
  revert pos. induction l as [|x t IH]; intros pos H r Hr.
  - apply elem_of_nil in Hr. contradiction.
  - simpl in H. destruct H as [H1 H2].
    apply elem_of_cons in Hr as [->|Hr].
    + apply ascending_le in H2. lia.
    + destruct (IH _ H2 r Hr). lia.
Qed.

Lemma join_cons sep x l : l <> [] -> join sep (x :: l) = x ++ sep ++ join sep l.
Proof. destruct l; [congruence | reflexivity]. Qed.

Lemma gaps_nonempty text pos l : gaps text pos l <> [].
Proof. destruct l; discriminate. Qed.

(** The ranges taken from the last one to the first. *)
Lemma ascending_fold replacement text : forall l pos,
  0 <= pos -> ascending pos (len text) l ->
  fold_left (replace_range replacement) (rev l) text
  = take (Z.to_nat pos) text ++ join replacement (gaps text pos l).
Proof.
  induction l as [|[s e] t IH]; intros pos Hp Ha; simpl in Ha.
  - simpl. rewrite slice_suffix by lia. rewrite take_drop. reflexivity.
  - destruct Ha as [Hs Ha]. simpl in Hs.
    pose proof (ascending_le _ _ _ Ha) as He. simpl in He.
    cbn [rev]. rewrite fold_left_app. cbn [fold_left].
    rewrite (IH e ltac:(lia) Ha).
    assert (length (take (Z.to_nat e) text) = Z.to_nat e) as Hl.
    { rewrite length_take. unfold len in He. lia. }
    rewrite replace_range_valid;
      [|lia|unfold len in *; rewrite length_app, Hl; lia].
    rewrite take_app_le by lia. rewrite take_take.
    rewrite drop_app_length' by (symmetry; exact Hl).
    simpl gaps. rewrite join_cons by apply gaps_nonempty.
    destruct (slice_inside text pos s ltac:(lia) ltac:(lia)) as [-> _].
    rewrite (app_assoc (take (Z.to_nat pos) text)), take_take_drop.
    replace (Z.to_nat s `min` Z.to_nat e)%nat with (Z.to_nat s) by lia.
    replace (Z.to_nat pos + Z.to_nat (s - pos))%nat with (Z.to_nat s) by lia.
    reflexivity.
Qed.

Lemma elem_of_rev {A} (x : A) l : x ∈ rev l <-> x ∈ l.
Proof. rewrite !list_elem_of_In, <- in_rev. reflexivity. Qed.

(** [sorted(ranges, key=start, reverse=True)] *)
Definition starts_desc (x y : Z * Z) : Prop := fst y <= fst x.

Lemma insert_desc_perm x l : insert_desc x l ≡ₚ x :: l.
Proof.
  induction l as [|y t IH]; simpl; [reflexivity|].
  destruct (fst y <=? fst x); [reflexivity|].
  rewrite IH. apply Permutation_swap.
Qed.

Lemma sort_desc_perm l : sort_desc l ≡ₚ l.
Proof.
  induction l as [|x t IH]; simpl; [reflexivity|].
  unfold sort_desc in *. simpl. rewrite insert_desc_perm, IH. reflexivity.
Qed.

Lemma insert_desc_sorted x l :
  StronglySorted starts_desc l -> StronglySorted starts_desc (insert_desc x l).
Proof.
  induction 1 as [|y t Ht IH Hy]; simpl.
  - repeat constructor.
  - destruct (Z.leb_spec (fst y) (fst x)) as [Hle|Hgt].
    + constructor; [constructor; assumption|].
      constructor; [exact Hle|].
      eapply Forall_impl; [exact Hy|]. unfold starts_desc. intros z Hz. lia.
    + constructor; [exact IH|].
      rewrite insert_desc_perm. constructor; [unfold starts_desc; lia | exact Hy].
Qed.

Lemma sort_desc_sorted l : StronglySorted starts_desc (sort_desc l).
Proof.
  induction l as [|x t IH]; [constructor|].
  unfold sort_desc in *. simpl. apply insert_desc_sorted. exact IH.
Qed.

Lemma ascending_rev_sorted pos n l :
  ascending pos n l -> StronglySorted starts_desc (rev l).
Proof.
  revert pos. induction l as [|x t IH]; intros pos H; [constructor|].
  simpl in H. destruct H as [H1 H2]. simpl.
  apply StronglySorted_app. split; [|split].
  - intros x1 x2 Hx1 Hx2. apply list_elem_of_singleton in Hx2 as ->.
    rewrite elem_of_rev in Hx1.
    destruct (ascending_bounds _ _ _ H2 x1 Hx1). unfold starts_desc. lia.
  - eapply IH, H2.
  - repeat constructor.
Qed.

Lemma ascending_start_inj pos n l :
  ascending pos n l ->
  forall x y, x ∈ l -> y ∈ l -> fst x = fst y -> x = y.
Proof.
  revert pos. induction l as [|r t IH]; intros pos H x y Hx Hy Hxy.
  - apply elem_of_nil in Hx. contradiction.
  - simpl in H. destruct H as [H1 H2].
    apply elem_of_cons in Hx as [->|Hx]; apply elem_of_cons in Hy as [->|Hy].
    + reflexivity.
    + destruct (ascending_bounds _ _ _ H2 y Hy). lia.
    + destruct (ascending_bounds _ _ _ H2 x Hx). lia.
    + eapply IH; eassumption.
Qed.

Lemma sort_desc_ascending pos n l ranges :
  ascending pos n l -> ranges ≡ₚ l -> sort_desc ranges = rev l.
Proof.
  intros Ha Hp. symmetry.
  apply (StronglySorted_unique_strong starts_desc).
  - intros x1 x2 Hx1 Hx2 R1 R2.
    rewrite elem_of_rev in Hx1.
    rewrite sort_desc_perm, Hp in Hx2.
    apply (ascending_start_inj _ _ _ Ha); [exact Hx1 | exact Hx2|].
    unfold starts_desc in *. lia.
  - eapply ascending_rev_sorted, Ha.
  - apply sort_desc_sorted.
  - rewrite sort_desc_perm, Hp. symmetry. apply Permutation_rev.
Qed.

(** X14: for ranges that are not empty, lie within the text and do not
    overlap, given in any order, [_apply_replacements_by_ranges] returns the
    text between the ranges with the replacement in the place of each
    range: the pieces of the text outside the ranges, joined by the
    replacement. *)
Theorem disjoint_ranges_replaced (text : str) (ranges l : list (Z * Z))
    (replacement : str) :
  ascending 0 (len text) l -> ranges ≡ₚ l ->
  _apply_replacements_by_ranges text ranges replacement
  = join replacement (gaps text 0 l).
Proof.
  intros Ha Hp. unfold _apply_replacements_by_ranges.
  rewrite (sort_desc_ascending _ _ _ _ Ha Hp).
  rewrite (ascending_fold replacement text l 0 ltac:(lia) Ha). reflexivity.
Qed.

Lemma disjoint_ranges_replaced_witness :
  _apply_replacements_by_ranges (py "a=12345678 b=abcdefgh.")
    [(13, 21); (2, 10)] (py "api_key_llm")
  = py "a=api_key_llm b=api_key_llm.".
Proof.
  apply (disjoint_ranges_replaced (py "a=12345678 b=abcdefgh.")
           [(13, 21); (2, 10)] [(2, 10); (13, 21)] (py "api_key_llm")).
  - simpl. unfold len. simpl. lia.
  - apply Permutation_swap.
Defined.

Lemma fold_invalid replacement : forall l text,
  Forall (fun r => ~ (0 <= fst r < snd r /\ snd r <= len text)) l ->
  fold_left (replace_range replacement) l text = text.
Proof.
  induction l as [|[s e] t IH]; intros text H; [reflexivity|].
  apply Forall_cons in H as [H1 H2]. cbn [fold_left].
  rewrite replace_range_invalid by exact H1. apply IH. exact H2.
Qed.

(** X15: ranges that are empty, reversed, or not within the text are
    ignored: when no range satisfies [0 <= start < end <= len(text)] the
    text is returned as it is. *)
Theorem invalid_ranges_ignored (text : str) (ranges : list (Z * Z))
    (replacement : str) :
  Forall (fun r => ~ (0 <= fst r < snd r /\ snd r <= len text)) ranges ->
  _apply_replacements_by_ranges text ranges replacement = text.
Proof.
  intros H. unfold _apply_replacements_by_ranges. apply fold_invalid.
  rewrite sort_desc_perm. exact H.
Qed.

Lemma invalid_ranges_ignored_witness :
  _apply_replacements_by_ranges (py "password") [(3, 3); (5, 2); (-1, 4); (0, 9)]
    (py "api_key_llm") = py "password".
Proof.
  apply (invalid_ranges_ignored (py "password")
           [(3, 3); (5, 2); (-1, 4); (0, 9)] (py "api_key_llm")).
  repeat constructor; unfold len; simpl; lia.
Defined.

(** X16: the ranges are applied one after the other to the text as it
    stands, so a range that is listed twice is applied twice: with a
    replacement not longer than the range, the second application removes
    the characters that follow the range, as many as the range is longer
    than the replacement. *)
Theorem repeated_range_applied_twice (text : str) (s e : Z)
    (replacement : str) :
  0 <= s < e -> len replacement <= e - s ->
  2 * e - s - len replacement <= len text ->
  _apply_replacements_by_ranges text [(s, e); (s, e)] replacement
  = slice text 0 s ++ replacement
    ++ slice text (2 * e - s - len replacement) (len text).
Proof.
  intros Hs Hr Ht. unfold _apply_replacements_by_ranges.
  assert (sort_desc [(s, e); (s, e)] = [(s, e); (s, e)]) as ->.
  { unfold sort_desc. cbn [foldr insert_desc fst]. rewrite Z.leb_refl.
    reflexivity. }
  cbn [fold_left].
  rewrite (replace_range_valid replacement text s e) by lia.
  assert (length (take (Z.to_nat s) text) = Z.to_nat s) as Hl.
  { rewrite length_take. unfold len in *. lia. }
  rewrite replace_range_valid;
    [|lia|unfold len in *; rewrite !length_app, Hl, length_drop; lia].
  rewrite take_app_le by lia. rewrite take_take.
  replace (Z.to_nat s `min` Z.to_nat s)%nat with (Z.to_nat s) by lia.
  rewrite slice_prefix, slice_suffix by (unfold len in *; lia).
  f_equal. f_equal.
  rewrite drop_app_ge by lia. rewrite Hl.
  rewrite drop_app_ge by (unfold len in *; lia).
  rewrite drop_drop. f_equal. unfold len in *. lia.
Qed.

Lemma repeated_range_applied_twice_witness :
  _apply_replacements_by_ranges (py "k=0123456789abcdef # shown twice")
    [(2, 18); (2, 18)] (py "api_key_llm")
  = py "k=api_key_llmown twice".
Proof.
  apply (repeated_range_applied_twice (py "k=0123456789abcdef # shown twice")
           2 18 (py "api_key_llm")).
  - lia.
  - unfold len. simpl. lia.
  - unfold len. simpl. lia.
Defined.

End Ranges.

Lemma collected_ranges_in_text_witness :
  Forall (fun r => (0 <= fst r)%Z /\ (fst r + 8 <= snd r)%Z /\
                   (snd r <= len (py "password = hunter2hunter2 # x"))%Z)
         [(11, 25)%Z].
Proof.
  apply (collected_ranges_in_text
           (Env None (fun _ => true) (fun _ => true) flags_password) key_file
           (py "password = hunter2hunter2 # x") 60000 []
           [(0%Z, py "password = hunter2hunter2 # x")] [(11, 25)%Z]
           [key_file ++ py ": password" ++ arrow ++ py "hard-coded password"]
           [py "password = hunter2hunter2 # x"]).
  - lia.
  - reflexivity.
  - reflexivity.
Defined.

(** ** The commit message: subject line and layout *)

(** The first line of a message: the text before the first newline. *)
Fixpoint first_line (s : str) : str :=
  match s with
  | [] => []
  | c :: t => if c =? 10 then [] else c :: first_line t
  end.

Definition no_break (c : N) : bool := negb (is_linebreak c).

Lemma first_line_app a r :
  forallb no_break a = true -> first_line (a ++ nl ++ r) = a.
Proof.
  change (nl ++ r) with (10 :: r).
  induction a as [|c a IH]; intros H; [reflexivity|].
  simpl in H. apply andb_true_iff in H as [Hc Ha]. simpl.
  destruct (N.eqb_spec c 10) as [->|_]; [discriminate|].
  rewrite (IH Ha). reflexivity.
Qed.

Lemma first_line_all a : forallb no_break a = true -> first_line a = a.
Proof.
  induction a as [|c a IH]; intros H; [reflexivity|].
  simpl in H. apply andb_true_iff in H as [Hc Ha]. simpl.
  destruct (N.eqb_spec c 10) as [->|_]; [discriminate|].
  rewrite (IH Ha). reflexivity.
Qed.

Lemma first_line_join l0 more :
  forallb no_break l0 = true -> first_line (join nl (l0 :: more)) = l0.
Proof.
  intros H. destruct more as [|l1 more]; simpl.
  - apply first_line_all. exact H.
  - apply (first_line_app l0 _ H).
Qed.

Lemma linebreak_is_space c : is_linebreak c = true -> is_space c = true.
Proof.
  unfold is_linebreak, is_space.
  rewrite !orb_true_iff, !andb_true_iff, !N.leb_le, !N.eqb_eq. lia.
Qed.

Lemma forallb_rev {A} (P : A -> bool) l : forallb P (rev l) = forallb P l.
Proof.
  induction l as [|x l IH]; [reflexivity|].
  simpl. rewrite forallb_app, IH. simpl. rewrite andb_true_r. apply andb_comm.
Qed.

Lemma lstrip_forallb (P : N -> bool) s :
  forallb P s = true -> forallb P (lstrip s) = true.
Proof.
  induction s as [|c t IH]; intros H; [reflexivity|].
  simpl. destruct (is_space c); [|exact H].
  simpl in H. apply andb_true_iff in H as [_ H]. auto.
Qed.

Lemma rstrip_forallb (P : N -> bool) s :
  forallb P s = true -> forallb P (rstrip s) = true.
Proof.
  intros H. unfold rstrip. rewrite forallb_rev. apply lstrip_forallb.
  rewrite forallb_rev. exact H.
Qed.

(** No line of [splitlines] holds a line boundary. *)
Lemma splitlines_go_no_break : forall n s cur,
  (length s <= n)%nat -> forallb no_break cur = true ->
  Forall (fun l => forallb no_break l = true) (splitlines_go cur s).
Proof.
  induction n as [|n IH]; intros s cur Hn Hc.
  - destruct s; [|simpl in Hn; lia]. simpl.
    destruct cur; [constructor|]. repeat constructor.
    rewrite forallb_rev. exact Hc.
  - destruct s as [|c t].
    + simpl. destruct cur; [constructor|]. repeat constructor.
      rewrite forallb_rev. exact Hc.
    + simpl in Hn. cbn [splitlines_go].
      destruct (N.eqb_spec c 13) as [->|Hc13].
      * assert (forallb no_break (rev cur) = true) as Hr
          by (rewrite forallb_rev; exact Hc).
        destruct t as [|d t']; [repeat constructor; exact Hr|].
        destruct (N.eq_dec d 10) as [->|Hd].
        -- constructor; [exact Hr|]. apply IH; [simpl in Hn; lia | reflexivity].
        -- assert (forall X Y : list str,
                     match d with 10 => X | _ => Y end = Y) as Hm.
           { intros X Y. destruct d as [|p]; [reflexivity|].
             do 4 (destruct p; try reflexivity). congruence. }
           rewrite Hm. constructor; [exact Hr|].
           apply IH; [lia | reflexivity].
      * destruct (is_linebreak c) eqn:Eb.
        -- constructor; [rewrite forallb_rev; exact Hc|].
           apply IH; [lia | reflexivity].
        -- apply IH; [lia|]. simpl. unfold no_break at 1. rewrite Eb. exact Hc.
Qed.

Lemma lstrip_cases s :
  lstrip s = [] \/ exists c t, lstrip s = c :: t /\ is_space c = false.
Proof.
  induction s as [|c t IH]; [left; reflexivity|].
  simpl. destruct (is_space c) eqn:E; [exact IH|]. right. eauto.
Qed.

Lemma rstrip_cases s :
  rstrip s = [] \/ exists t c, rstrip s = t ++ [c] /\ is_space c = false.
Proof.
  unfold rstrip. destruct (lstrip_cases (rev s)) as [->|(c & t & -> & Hc)].
  - left. reflexivity.
  - right. exists (rev t), c. split; [reflexivity | exact Hc].
Qed.

Lemma strip_cases s :
  strip s = [] \/ exists t c, strip s = t ++ [c] /\ is_space c = false.
Proof. apply (rstrip_cases (lstrip s)). Qed.

Lemma rstrip_keeps t c : is_space c = false -> rstrip (t ++ [c]) = t ++ [c].
Proof.
  intros H. unfold rstrip. rewrite rev_app_distr. simpl. rewrite H.
  simpl. rewrite rev_involutive. reflexivity.
Qed.

(** The last line of a text that ends in a character that is not white
    space ends in that character. *)
Lemma splitlines_go_last c : is_space c = false ->
  forall n s cur, (length s <= n)%nat ->
  exists init l, splitlines_go cur (s ++ [c]) = init ++ [l ++ [c]].
Proof.
  intros Hc.
  assert (is_linebreak c = false) as Hb.
  { destruct (is_linebreak c) eqn:E; [|reflexivity].
    apply linebreak_is_space in E. congruence. }
  assert (c <> 13) as H13 by (intros ->; discriminate).
  assert (c <> 10) as H10 by (intros ->; discriminate).
  assert (forall cur, splitlines_go cur [c] = [] ++ [rev cur ++ [c]]) as Hone.
  { intros cur. cbn [splitlines_go].
    destruct (N.eqb_spec c 13); [contradiction|]. rewrite Hb. reflexivity. }
  induction n as [|n IH]; intros s cur Hn.
  - destruct s; [|simpl in Hn; lia]. simpl app. rewrite Hone. eauto.
  - destruct s as [|d t]; [simpl app; rewrite Hone; eauto|].
    simpl in Hn. simpl app. cbn [splitlines_go].
    destruct (N.eqb_spec d 13) as [->|Hd13].
    + destruct t as [|d' t'].
      * cbn [app].
        assert (forall X Y : list str,
                  match c with 10 => X | _ => Y end = Y) as Hm.
        { intros X Y. destruct c as [|p]; [reflexivity|].
          do 4 (destruct p; try reflexivity). congruence. }
        rewrite Hm. rewrite Hone. exists [rev cur], []. reflexivity.
      * cbn [app]. destruct (N.eq_dec d' 10) as [->|Hd'].
        -- destruct (IH t' [] ltac:(simpl in Hn; lia)) as (init & l & ->).
           exists (rev cur :: init), l. reflexivity.
        -- assert (forall X Y : list str,
                     match d' with 10 => X | _ => Y end = Y) as Hm.
           { intros X Y. destruct d' as [|p]; [reflexivity|].
             do 4 (destruct p; try reflexivity). congruence. }
           rewrite Hm.
           destruct (IH (d' :: t') [] ltac:(simpl in *; lia)) as (init & l & E).
           simpl app in E. rewrite E.
           exists (rev cur :: init), l. reflexivity.
    + destruct (is_linebreak d).
      * destruct (IH t [] ltac:(lia)) as (init & l & ->).
        exists (rev cur :: init), l. reflexivity.
      * apply IH. lia.
Qed.

(** The lines that [normalize_reply] joins. *)
Definition normalized (l0 : str) (rest : list str) : str :=
  join nl ([if (72 <? length l0)%nat then take 72 l0 else l0]
           ++ match rest with
              | [] => []
              | l1 :: _ => if str_eqb l1 [] then [] else [[]]
              end
           ++ rest).

Lemma normalize_reply_lines text msg :
  normalize_reply text = Some msg ->
  exists l0 rest,
    l0 <> [] /\ forallb no_break l0 = true /\
    (exists x, last (l0 :: rest) = Some x /\ x <> []) /\
    msg = normalized l0 rest.
Proof.
  unfold normalize_reply.
  destruct (str_eqb (strip (default [] text)) []); [discriminate|].
  assert (exists y,
    (if contains fence (strip (default [] text))
     then strip (remove_fences (strip (default [] text)))
     else strip (default [] text)) = strip y) as (y & ->).
  { destruct (contains fence (strip (default [] text))); eauto. }
  destruct (map rstrip (splitlines (strip y))) as [|l0 rest] eqn:El;
    [discriminate|].
  destruct (str_eqb l0 []) eqn:E0; [discriminate|].
  intros [= <-]. exists l0, rest.
  apply str_eqb_false in E0. split; [exact E0|].
  pose proof (splitlines_go_no_break (length (strip y)) (strip y) []
                (Nat.le_refl _) eq_refl) as Hnb.
  fold (splitlines (strip y)) in Hnb.
  split; [|split; [|reflexivity]].
  - destruct (splitlines (strip y)) as [|x xs]; [discriminate|].
    injection El as <- _. apply Forall_cons in Hnb as [Hx _].
    apply rstrip_forallb. exact Hx.
  - destruct (strip_cases y) as [Ey|(t & c & Ey & Hc)].
    + rewrite Ey in El. discriminate.
    + rewrite Ey in El. unfold splitlines in El.
      destruct (splitlines_go_last c Hc (length t) t [] (Nat.le_refl _))
        as (init & l & Es).
      rewrite Es, map_app in El. simpl in El.
      rewrite (rstrip_keeps _ _ Hc) in El. rewrite <- El.
      exists (l ++ [c]). split; [apply last_snoc|].
      destruct l; discriminate.
Qed.

Lemma take72_props l0 :
  l0 <> [] -> forallb no_break l0 = true ->
  let s := if (72 <? length l0)%nat then take 72 l0 else l0 in
  s <> [] /\ (length s <= 72)%nat /\ forallb no_break s = true.
Proof.
  intros Hn Hb. simpl. destruct (Nat.ltb_spec 72 (length l0)) as [H|H].
  - split; [|split].
    + destruct l0; [simpl in H; lia | discriminate].
    + rewrite length_take. lia.
    + rewrite <- (take_drop 72 l0), forallb_app in Hb.
      apply andb_true_iff in Hb as [Hb _]. exact Hb.
  - auto.
Qed.

(** X17: the message [generate_commit_message] returns always has a first
    line that is not empty and has at most 72 characters, whether it is the
    reply of the service, the fallback message or the message for an empty
    staging area. *)
Theorem commit_subject_bounded (staged : list (str * str))
    (sanitized : option (list sanitized_entry))
    (llm_results : option (list llm_entry)) (reply : service_reply) :
  (0 < length (first_line (generate_commit_message staged sanitized
                             llm_results reply)) <= 72)%nat.
Proof.
  assert (forall st sa lr,
    (0 < length (first_line (_fallback_commit_message st sa lr)) <= 72)%nat)
    as Hfb.
  { intros st sa lr. unfold _fallback_commit_message.
    destruct (bool_decide (sec_paths sa lr = ∅)).
    - rewrite (first_line_app (py "chore: commit staged changes"))
        by reflexivity. simpl. lia.
    - rewrite (first_line_app
                 (py "chore(security): sanitize secrets and commit changes"))
        by reflexivity. simpl. lia. }
  unfold generate_commit_message. destruct staged as [|p staged].
  { vm_compute. lia. }
  destruct reply as [|text]; [apply Hfb|].
  destruct (normalize_reply text) as [msg|] eqn:En; [|apply Hfb].
  apply normalize_reply_lines in En as (l0 & rest & H0 & Hb & _ & ->).
  destruct (take72_props l0 H0 Hb) as (Hs & Hl & Hn).
  unfold normalized. cbn [app]. rewrite first_line_join by exact Hn.
  destruct (if (72 <? length l0)%nat then take 72 l0 else l0);
    [congruence | simpl in *; lia].
Qed.

Lemma join_last_nonempty l x :
  last l = Some x -> x <> [] -> join nl l <> [].
Proof.
  destruct l as [|y [|z l]]; simpl.
  - discriminate.
  - intros [= ->] H. exact H.
  - intros _ _. destruct y; discriminate.
Qed.

(** X18: a reply that [generate_commit_message] accepts is returned as a
    subject line of 1 to 72 characters, alone or followed by an empty line
    and a body that is not empty. *)
Theorem normalized_message_layout (text : option str) (msg : str) :
  normalize_reply text = Some msg ->
  exists subject,
    (0 < length subject <= 72)%nat /\ first_line msg = subject /\
    (msg = subject \/
     exists body, body <> [] /\ msg = subject ++ nl ++ nl ++ body).
Proof.
  intros H.
  apply normalize_reply_lines in H as (l0 & rest & H0 & Hb & (x & Hx & Hxn) & ->).
  destruct (take72_props l0 H0 Hb) as (Hs & Hl & Hn).
  unfold normalized.
  set (s := if (72 <? length l0)%nat then take 72 l0 else l0) in *.
  exists s. split; [|split].
  - destruct s; [congruence | simpl in *; lia].
  - cbn [app]. apply first_line_join. exact Hn.
  - destruct rest as [|l1 rest']; [left; reflexivity|]. right.
    destruct (str_eqb l1 []) eqn:E1.
    + apply str_eqb_true in E1. subst l1.
      destruct rest' as [|l2 rest''].
      { simpl in Hx. injection Hx as <-. congruence. }
      exists (join nl (l2 :: rest'')). split; [|reflexivity].
      apply (join_last_nonempty _ x); [exact Hx | exact Hxn].
    + apply str_eqb_false in E1.
      exists (join nl (l1 :: rest')). split; [|reflexivity].
      apply join_nonempty. exact E1.
Qed.

Lemma normalized_message_layout_witness :
  exists subject,
    (0 < length subject <= 72)%nat /\
    first_line (py "fix: drop key" ++ nl ++ nl ++ py "- rotate it") = subject /\
    (py "fix: drop key" ++ nl ++ nl ++ py "- rotate it" = subject \/
     exists body, body <> [] /\
       py "fix: drop key" ++ nl ++ nl ++ py "- rotate it"
       = subject ++ nl ++ nl ++ body).
Proof.
  apply (normalized_message_layout
           (Some (py " fix: drop key  " ++ nl ++ py "- rotate it" ++ nl))).
  vm_compute. reflexivity.
Defined.

Lemma status_exclusive s :
  (Nat.b2n (upper_startswith "A" s) + Nat.b2n (upper_startswith "M" s)
   + Nat.b2n (upper_startswith "D" s) <= 1)%nat.
Proof.
  destruct s as [|c t]; [simpl; lia|]. unfold upper_startswith.
  change (ch "A") with 65. change (ch "M") with 77. change (ch "D") with 68.
  simpl N.eqb at 4 8 12.
  repeat match goal with
         | |- context [N.eqb ?a ?b] => destruct (N.eqb_spec a b)
         end; simpl; lia.
Qed.

(** X19: the three numbers of the [- files:] line of the fallback message
    count each staged entry at most once: together they are at most the
    number of staged entries. *)
Theorem fallback_counts_bounded (staged : list (str * str)) :
  (count_status "A" staged + count_status "M" staged
   + count_status "D" staged <= length staged)%nat.
Proof.
  unfold count_status. induction staged as [|[st p] t IH]; [simpl; lia|].
  pose proof (status_exclusive st) as H. simpl.
  destruct (upper_startswith "A" st), (upper_startswith "M" st),
    (upper_startswith "D" st); simpl in *; lia.
Qed.

(** ** The staged name/status list and the patch *)

Lemma lstrip_suffix s : exists w, s = w ++ lstrip s.
Proof.
  induction s as [|c t [w IH]]; [exists []; reflexivity|].
  simpl. destruct (is_space c).
  - exists (c :: w). simpl. rewrite <- IH. reflexivity.
  - exists []. reflexivity.
Qed.

Lemma rstrip_prefix s : exists w, s = rstrip s ++ w.
Proof.
  unfold rstrip. destruct (lstrip_suffix (rev s)) as [w H].
  exists (rev w). rewrite <- rev_app_distr, <- H, rev_involutive. reflexivity.
Qed.

(** [strip] is idempotent: what it returns has no white space at either
    end. *)
Lemma strip_idem s : strip (strip s) = strip s.
Proof.
  change (strip s) with (rstrip (lstrip s)).
  destruct (rstrip_cases (lstrip s)) as [E | (t & c & E & Hc)].
  { rewrite E. reflexivity. }
  assert (lstrip (rstrip (lstrip s)) = rstrip (lstrip s)) as Hl.
  { destruct (rstrip_prefix (lstrip s)) as [w Hw].
    destruct (lstrip_cases s) as [E0 | (c0 & t0 & E0 & Hc0)].
    - rewrite E0. reflexivity.
    - rewrite E0 in *. destruct (rstrip (c0 :: t0)) as [|c1 t1] eqn:Er.
      + reflexivity.
      + simpl in Hw. injection Hw as <- _. simpl. rewrite Hc0. reflexivity. }
  change (strip (rstrip (lstrip s)))
    with (rstrip (lstrip (rstrip (lstrip s)))).
  rewrite Hl, E. apply rstrip_keeps. exact Hc.
Qed.

Lemma splitlines_go_app l : forall cur rest,
  forallb no_break l = true ->
  splitlines_go cur (l ++ rest) = splitlines_go (rev l ++ cur) rest.
Proof.
  induction l as [|c l IH]; intros cur rest H; [reflexivity|].
  simpl in H. apply andb_true_iff in H as [Hc Hl].
  cbn [app splitlines_go].
  destruct (N.eqb_spec c 13) as [->|_]; [discriminate|].
  unfold no_break in Hc. apply negb_true_iff in Hc. rewrite Hc.
  rewrite IH by exact Hl. simpl. rewrite <- app_assoc. reflexivity.
Qed.

Lemma splitlines_go_newline cur rest :
  splitlines_go cur (nl ++ rest) = rev cur :: splitlines_go [] rest.
Proof. reflexivity. Qed.

(** Lines that hold no line boundary and are not empty, joined by newlines,
    are what [splitlines] gives back. *)
Lemma splitlines_join ls :
  Forall (fun l => forallb no_break l = true /\ l <> []) ls ->
  splitlines (join nl ls) = ls.
Proof.
  unfold splitlines. induction 1 as [|x ls [Hx Hn] Hls IH]; [reflexivity|].
  destruct ls as [|y ls].
  - simpl. pose proof (splitlines_go_app x [] [] Hx) as Hg.
    rewrite !app_nil_r in Hg. rewrite Hg. simpl.
    destruct (rev x) eqn:Er.
    + apply (f_equal (@rev N)) in Er. rewrite rev_involutive in Er.
      simpl in Er. congruence.
    + rewrite <- Er, rev_involutive. reflexivity.
  - change (join nl (x :: y :: ls)) with (x ++ nl ++ join nl (y :: ls)).
    rewrite splitlines_go_app by exact Hx.
    rewrite splitlines_go_newline, app_nil_r, rev_involutive, IH.
    reflexivity.
Qed.

Definition no_tab (c : N) : bool := negb (c =? 9).

Lemma split_tab_line st p :
  forallb no_tab st = true -> split_tab (st ++ [9] ++ p) = Some (st, p).
Proof.
  induction st as [|c st IH]; intros H; [reflexivity|].
  simpl in H. apply andb_true_iff in H as [Hc Hs]. simpl.
  unfold no_tab in Hc. apply negb_true_iff in Hc. rewrite Hc.
  simpl in IH. rewrite (IH Hs). reflexivity.
Qed.

Lemma split_tab_none s : forallb no_tab s = true -> split_tab s = None.
Proof.
  induction s as [|c s IH]; intros H; [reflexivity|].
  simpl in H. apply andb_true_iff in H as [Hc Hs]. simpl.
  unfold no_tab in Hc. apply negb_true_iff in Hc. rewrite Hc.
  rewrite (IH Hs). reflexivity.
Qed.

(** A status and a path as [git diff --name-status] prints them: no line
    boundary in either, no tab in the status, no white space at the ends. *)
Definition plain_entry (e : str * str) : bool :=
  forallb (fun c => no_tab c && no_break c) (fst e)
  && forallb no_break (snd e)
  && str_eqb (strip (fst e)) (fst e) && str_eqb (strip (snd e)) (snd e).

Definition status_line (e : str * str) : str := fst e ++ [9] ++ snd e.

(** X20: [_staged_name_status] reads back what git printed: for entries of
    a status and a path that hold no line boundary, no tab in the status
    and no white space at their ends, the lines [status TAB path] joined by
    newlines give the list of the entries. *)
Theorem staged_name_status_round_trip (entries : list (str * str)) :
  forallb plain_entry entries = true ->
  _staged_name_status (Some (join nl (map status_line entries))) = entries.
Proof.
  intros H. unfold _staged_name_status.
  rewrite splitlines_join.
  - induction entries as [|[st p] es IH]; [reflexivity|].
    simpl in H. apply andb_true_iff in H as [He Hes].
    unfold plain_entry in He. simpl in He.
    repeat (apply andb_true_iff in He as [He ?]).
    repeat match goal with
           | H : str_eqb _ _ = true |- _ => apply str_eqb_true in H
           end.
    cbn [map]. rewrite omap_step. unfold status_line at 1. cbn [fst snd].
    rewrite split_tab_line.
    + cbn [mbind option_bind fst snd]. rewrite IH by exact Hes. congruence.
    + eapply forallb_imp; [|exact He]. intros c Hc.
      apply andb_true_iff in Hc as [Hc _]. exact Hc.
  - apply Forall_forall. intros l Hl.
    apply list_elem_of_In, in_map_iff in Hl as ([st p] & <- & Hin).
    rewrite forallb_forall in H. apply H in Hin.
    unfold plain_entry in Hin. simpl in Hin.
    repeat (apply andb_true_iff in Hin as [Hin ?]).
    unfold status_line. simpl. split.
    + rewrite forallb_app. apply andb_true_iff. split.
      * eapply forallb_imp; [|exact Hin]. intros c Hc.
        apply andb_true_iff in Hc as [_ Hc]. exact Hc.
      * simpl. assumption.
    + destruct st; discriminate.
Qed.

Lemma staged_name_status_round_trip_witness :
  _staged_name_status
    (Some (join nl (map status_line
                      [(py "M", py "src/app.py"); (py "A", py "notes to self.md");
                       (py "R100", py "old.txt" ++ [9] ++ py "new.txt")])))
  = [(py "M", py "src/app.py"); (py "A", py "notes to self.md");
     (py "R100", py "old.txt" ++ [9] ++ py "new.txt")].
Proof.
  apply (staged_name_status_round_trip
           [(py "M", py "src/app.py"); (py "A", py "notes to self.md");
            (py "R100", py "old.txt" ++ [9] ++ py "new.txt")]).
  vm_compute. reflexivity.
Defined.

(** X21: every status and every path [_staged_name_status] returns has no
    white space at either end, and there is at most one entry for each line
    of the output of git; without output there is none. *)
Theorem staged_name_status_fields (diff : option str) :
  Forall (fun e => strip (fst e) = fst e /\ strip (snd e) = snd e)
         (_staged_name_status diff) /\
  (length (_staged_name_status diff)
   <= length (splitlines (default [] diff)))%nat.
Proof.
  destruct diff as [out|]; simpl; [|split; [constructor | lia]].
  split; [|apply length_omap_le].
  apply Forall_forall. intros [a b] H.
  apply list_elem_of_omap in H as (ln & _ & H).
  destruct (split_tab ln) as [[x y]|]; [|discriminate].
  simpl in H. injection H as <- <-. simpl. split; apply strip_idem.
Qed.

Lemma splitlines_go_forallb (P : N -> bool) : forall n s cur,
  (length s <= n)%nat -> forallb P cur = true -> forallb P s = true ->
  Forall (fun l => forallb P l = true) (splitlines_go cur s).
Proof.
  induction n as [|n IH]; intros s cur Hn Hc Hs.
  - destruct s; [|simpl in Hn; lia]. simpl.
    destruct cur; [constructor|]. repeat constructor.
    rewrite forallb_rev. exact Hc.
  - destruct s as [|c t].
    + simpl. destruct cur; [constructor|]. repeat constructor.
      rewrite forallb_rev. exact Hc.
    + simpl in Hn. simpl in Hs. apply andb_true_iff in Hs as [Hpc Ht].
      assert (forallb P (rev cur) = true) as Hr
          by (rewrite forallb_rev; exact Hc).
      cbn [splitlines_go].
      destruct (c =? 13).
      * destruct t as [|d t']; [repeat constructor; exact Hr|].
        simpl in Ht. apply andb_true_iff in Ht as [Hd Ht'].
        assert (Forall (fun l => forallb P l = true)
                       (splitlines_go [] t')) as H1.
        { apply IH; [simpl in Hn; lia | reflexivity | exact Ht']. }
        assert (Forall (fun l => forallb P l = true)
                       (splitlines_go [] (d :: t'))) as H2.
        { apply IH; [simpl in *; lia | reflexivity|].
          simpl. rewrite Hd, Ht'. reflexivity. }
        destruct d as [|p]; [constructor; assumption|].
        do 4 (destruct p; try (constructor; assumption)).
      * destruct (is_linebreak c).
        -- constructor; [exact Hr|]. apply IH; [lia | reflexivity | exact Ht].
        -- apply IH; [lia | simpl; rewrite Hpc; exact Hc | exact Ht].
Qed.

(** X22: when [git diff --cached --name-status] raises, or prints no tab,
    [_staged_name_status] returns the empty list and
    [generate_commit_message] returns the message for an empty staging
    area, whatever is staged and whatever the service replies. *)
Theorem no_name_status_no_op_message (diff : option str)
    (sanitized : option (list sanitized_entry))
    (llm_results : option (list llm_entry)) (reply : service_reply) :
  forallb no_tab (default [] diff) = true ->
  _staged_name_status diff = [] /\
  generate_commit_message (_staged_name_status diff) sanitized llm_results
    reply = py "chore: no-op (nothing staged)".
Proof.
  intros H.
  assert (_staged_name_status diff = []) as E; [|rewrite E; auto].
  destruct diff as [out|]; [|reflexivity]. simpl in *.
  pose proof (splitlines_go_forallb no_tab (length out) out []
                (Nat.le_refl _) eq_refl H) as Hl.
  fold (splitlines out) in Hl.
  induction Hl as [|ln ls Hn _ IH]; [reflexivity|].
  rewrite omap_step, (split_tab_none _ Hn). exact IH.
Qed.

Lemma no_name_status_no_op_message_witness :
  _staged_name_status (Some (py "fatal: bad revision")) = [] /\
  generate_commit_message (_staged_name_status (Some (py "fatal: bad revision")))
    None None (Replied (Some (py "feat: add parser")))
  = py "chore: no-op (nothing staged)".
Proof.
  apply (no_name_status_no_op_message (Some (py "fatal: bad revision"))
           None None (Replied (Some (py "feat: add parser")))).
  vm_compute. reflexivity.
Defined.

Lemma slice_0_take {A} (s : list A) (k : Z) :
  (0 <= k)%Z -> slice s 0 k = take (Z.to_nat k) s.
Proof.
  intros H. unfold slice.
  assert (clip (len s) 0 = 0%Z) as ->.
  { unfold clip. simpl. apply Z.min_l. unfold len. lia. }
  assert (clip (len s) k = Z.min k (len s)) as ->.
  { unfold clip. destruct (Z.ltb_spec k 0); [lia | reflexivity]. }
  rewrite Z.sub_0_r. change (Z.to_nat 0) with 0%nat. rewrite drop_0.
  destruct (Z.le_gt_cases k (len s)).
  - rewrite Z.min_l by lia. reflexivity.
  - rewrite Z.min_r by lia. rewrite !take_ge; [reflexivity| |];
      unfold len in *; lia.
Qed.

(** X23: for a limit that is not negative, [_staged_patch] returns at most
    [max_chars] characters of the patch and the 19 of the mark: a patch
    within the limit is returned whole, a longer one is cut after
    [max_chars] characters and marked. *)
Theorem staged_patch_bounded (diff : option str) (max_chars : Z) :
  (0 <= max_chars)%Z ->
  (len (_staged_patch diff max_chars) <= max_chars + 19)%Z /\
  forall patch, diff = Some patch ->
    ((len patch <= max_chars)%Z -> _staged_patch diff max_chars = patch) /\
    ((max_chars < len patch)%Z ->
     _staged_patch diff max_chars
     = take (Z.to_nat max_chars) patch ++ nl ++ nl ++ py "[PATCH TRUNCATED]").
Proof.
  intros H. split.
  - destruct diff as [patch|]; simpl; [|unfold len; simpl; lia].
    destruct (Z.leb_spec (len patch) max_chars); [lia|].
    rewrite slice_0_take by lia. unfold len in *.
    rewrite !length_app, length_take. simpl. lia.
  - intros patch ->. simpl.
    destruct (Z.leb_spec (len patch) max_chars); split; try lia; intros _.
    + reflexivity.
    + rewrite slice_0_take by lia. reflexivity.
Qed.

Lemma staged_patch_bounded_witness :
  (len (_staged_patch (Some (py "diff --git a/x b/x")) 4) <= 4 + 19)%Z /\
  forall patch, Some (py "diff --git a/x b/x") = Some patch ->
    ((len patch <= 4)%Z ->
     _staged_patch (Some (py "diff --git a/x b/x")) 4 = patch) /\
    ((4 < len patch)%Z ->
     _staged_patch (Some (py "diff --git a/x b/x")) 4
     = take (Z.to_nat 4) patch ++ nl ++ nl ++ py "[PATCH TRUNCATED]").
Proof.
  apply (staged_patch_bounded (Some (py "diff --git a/x b/x")) 4). lia.
Defined.

(** ** Decoding with replacement *)

Ltac use_ih IH Hn :=
  repeat match goal with
         | |- context [utf8_decode_replace ?x] =>
           lazymatch goal with
           | _ : (length (utf8_decode_replace x) <= length x)%nat |- _ => fail
           | _ => pose proof (IH x ltac:(simpl in Hn |- *; lia))
           end
         end.

Lemma utf8_decode_replace_length : forall n b,
  (length b <= n)%nat ->
  (length (utf8_decode_replace b) <= length b)%nat.
Proof.
  induction n as [|n IH]; intros b Hn.
  - destruct b; [simpl; lia | simpl in Hn; lia].
  - destruct b as [|b0 t]; [simpl; lia|].
    cbn [utf8_decode_replace].
    repeat match goal with
           | |- context [if ?c then _ else _] => destruct c
           | |- context [match ?l with [] => _ | _ :: _ => _ end] =>
             is_var l; destruct l
           end;
      use_ih IH Hn; simpl in *; lia.
Qed.

(** X24: for a limit that is not negative, [_read_small_file] returns at
    most [limit] characters of the file and the 13 of the mark, whatever
    bytes the file holds: decoding with replacement gives at most one
    character for each byte. *)
Theorem read_small_file_bounded (file : option bytes) (limit : Z) :
  (0 <= limit)%Z ->
  (len (_read_small_file file limit) <= limit + 13)%Z /\
  (forall data, file = Some data -> (len data <= limit)%Z ->
     _read_small_file file limit = utf8_decode_replace data).
Proof.
  intros H. split.
  - destruct file as [data|]; simpl; [|unfold len; simpl; lia].
    destruct (Z.ltb_spec limit (len data)).
    + rewrite slice_0_take by lia. unfold len in *.
      rewrite !length_app. simpl.
      pose proof (utf8_decode_replace_length _
                    (take (Z.to_nat limit) data) (Nat.le_refl _)) as L.
      rewrite length_take in L. lia.
    + pose proof (utf8_decode_replace_length _ data (Nat.le_refl _)) as L.
      unfold len in *. lia.
  - intros data -> Hl. simpl.
    destruct (Z.ltb_spec limit (len data)); [lia | reflexivity].
Qed.

(** A file with the three bytes of a euro sign and a byte that is not
    UTF-8. *)
Definition broken_file : bytes := py "key" ++ [226; 130; 172; 255].

Lemma read_small_file_bounded_witness :
  (len (_read_small_file (Some broken_file) 5) <= 5 + 13)%Z /\
  (forall data, Some broken_file = Some data -> (len data <= 5)%Z ->
     _read_small_file (Some broken_file) 5 = utf8_decode_replace data).
Proof.
  apply (read_small_file_bounded (Some broken_file) 5). lia.
Defined.

Lemma utf8_decode_replace_strict : forall n b s,
  (length b <= n)%nat -> utf8_decode b = Some s -> utf8_decode_replace b = s.
Proof.
  induction n as [|n IH]; intros b s Hn H.
  - destruct b; [simpl in *; congruence | simpl in Hn; lia].
  - destruct b as [|b0 t]; [simpl in *; congruence|].
    cbn [utf8_decode] in H. cbn [utf8_decode_replace].
    destruct (b0 <? 128).
    { destruct (utf8_decode t) as [s'|] eqn:E; [|discriminate].
      simpl in H. injection H as <-. f_equal.
      apply (IH t); [simpl in Hn; lia | exact E]. }
    destruct ((194 <=? b0) && (b0 <=? 223)).
    { destruct t as [|b1 t1]; [discriminate|].
      destruct (cont b1); [|discriminate].
      destruct (utf8_decode t1) as [s'|] eqn:E; [|discriminate].
      simpl in H. injection H as <-. f_equal.
      apply (IH t1); [simpl in Hn; lia | exact E]. }
    destruct ((224 <=? b0) && (b0 <=? 239)) eqn:E3.
    { destruct t as [|b1 [|b2 t2]]; try discriminate.
      destruct (cont b1 && cont b2
                && (2048 <=? (b0 - 224) * 4096 + (b1 - 128) * 64 + (b2 - 128))
                && negb (surrogate ((b0 - 224) * 4096 + (b1 - 128) * 64
                                    + (b2 - 128)))) eqn:Ec; [|discriminate].
      destruct (utf8_decode t2) as [s'|] eqn:E; [|discriminate].
      simpl in H. injection H as <-.
      apply andb_true_iff in Ec as [Ec Hsur].
      apply andb_true_iff in Ec as [Ec Hlow].
      apply andb_true_iff in Ec as [Hc1 Hc2].
      rewrite Hc1, Hc2. cbn [negb orb].
      assert ((if b1 <? 160 then b0 =? 224 else b0 =? 237) = false) as ->.
      { unfold cont, surrogate in *.
        apply andb_true_iff in E3 as [E3a E3b].
        apply andb_true_iff in Hc1 as [Hc1a Hc1b].
        apply andb_true_iff in Hc2 as [Hc2a Hc2b].
        apply negb_true_iff, andb_false_iff in Hsur.
        rewrite !N.leb_le in *. rewrite !N.leb_gt in Hsur.
        destruct (N.ltb_spec b1 160);
          [destruct (N.eqb_spec b0 224) | destruct (N.eqb_spec b0 237)];
          try reflexivity; exfalso; lia. }
      f_equal. apply (IH t2); [simpl in Hn; lia | exact E]. }
    destruct ((240 <=? b0) && (b0 <=? 244)) eqn:E4; [|discriminate].
    destruct t as [|b1 [|b2 [|b3 t3]]]; try discriminate.
    destruct (cont b1 && cont b2 && cont b3
              && (65536 <=? (b0 - 240) * 262144 + (b1 - 128) * 4096
                            + (b2 - 128) * 64 + (b3 - 128))
              && ((b0 - 240) * 262144 + (b1 - 128) * 4096
                  + (b2 - 128) * 64 + (b3 - 128) <=? 1114111)) eqn:Ec;
      [|discriminate].
    destruct (utf8_decode t3) as [s'|] eqn:E; [|discriminate].
    simpl in H. injection H as <-.
    apply andb_true_iff in Ec as [Ec Hhigh].
    apply andb_true_iff in Ec as [Ec Hlow].
    apply andb_true_iff in Ec as [Ec Hc3].
    apply andb_true_iff in Ec as [Hc1 Hc2].
    rewrite Hc1, Hc2, Hc3. cbn [negb orb].
    assert ((if b1 <? 144 then b0 =? 240 else b0 =? 244) = false) as ->.
    { unfold cont in *.
      apply andb_true_iff in E4 as [E4a E4b].
      apply andb_true_iff in Hc1 as [Hc1a Hc1b].
      apply andb_true_iff in Hc2 as [Hc2a Hc2b].
      apply andb_true_iff in Hc3 as [Hc3a Hc3b].
      rewrite !N.leb_le in *.
      destruct (N.ltb_spec b1 144);
        [destruct (N.eqb_spec b0 240) | destruct (N.eqb_spec b0 244)];
        try reflexivity; exfalso; lia. }
    f_equal. apply (IH t3); [simpl in Hn; lia | exact E].
Qed.

(** X25: on data that [_is_probably_text] accepts, decoding with
    [errors="replace"] replaces nothing: it gives the text that strict
    decoding gives, the text on which both passes work. *)
Theorem accepted_data_decodes_strictly (data : bytes) :
  _is_probably_text data = true ->
  utf8_decode_replace data = decode_replace data /\
  utf8_decode data = Some (utf8_decode_replace data).
Proof.
  intros H. apply probably_text_decode in H.
  rewrite (utf8_decode_replace_strict _ _ _ (Nat.le_refl _) H).
  split; [reflexivity | exact H].
Qed.

Lemma accepted_data_decodes_strictly_witness :
  utf8_decode_replace (py "price " ++ [226; 130; 172])
  = decode_replace (py "price " ++ [226; 130; 172]) /\
  utf8_decode (py "price " ++ [226; 130; 172])
  = Some (utf8_decode_replace (py "price " ++ [226; 130; 172])).
Proof.
  apply (accepted_data_decodes_strictly (py "price " ++ [226; 130; 172])).
  vm_compute. reflexivity.
Defined.

(** ** The commit message: code fences *)

(** [s] holds a code fence somewhere. *)
Definition has_fence (s : str) : Prop := exists a b, s = a ++ fence ++ b.

Lemma contains_has_fence s : contains fence s = true <-> has_fence s.
Proof.
  unfold contains. split.
  - destruct (find_at fence s) as [k|] eqn:E; [|discriminate]. intros _.
    apply find_at_Some in E as (H & _ & _). unfold occurs_at in H.
    exists (take k s), (drop 3 (drop k s)).
    rewrite <- H at 1. simpl length. rewrite (take_drop 3), take_drop.
    reflexivity.
  - intros (a & b & ->).
    destruct (find_at fence (a ++ fence ++ b)) as [k|] eqn:E; [reflexivity|].
    exfalso. apply (find_at_None _ _ E (length a)). unfold occurs_at.
    rewrite drop_app_length. reflexivity.
Qed.

Lemma has_fence_inside a x b : has_fence x -> has_fence (a ++ x ++ b).
Proof.
  intros (u & v & ->). exists (a ++ u), (v ++ b).
  rewrite <- !app_assoc. reflexivity.
Qed.

Lemma has_fence_part x y :
  (exists a b, y = a ++ x ++ b) -> has_fence x -> has_fence y.
Proof. intros (a & b & ->). apply has_fence_inside. Qed.

Lemma has_fence_nil : ~ has_fence [].
Proof.
  intros (a & b & H). apply (f_equal length) in H.
  rewrite !length_app in H. simpl in H. lia.
Qed.

(** A fence does not reach across a newline. *)
Lemma has_fence_newline x : forall a b y,
  a ++ fence ++ b = x ++ nl ++ y -> has_fence x \/ has_fence y.
Proof.
  induction x as [|x0 x' IH]; intros a b y H.
  - destruct a as [|a0 a']; simpl in H; [discriminate|].
    injection H as _ H. right. exists a', b. rewrite <- H. reflexivity.
  - destruct a as [|a0 a'].
    + simpl in H. injection H as <- H.
      destruct x' as [|x1 x'']; [discriminate|]. simpl in H.
      injection H as <- H.
      destruct x'' as [|x2 x''']; [discriminate|]. simpl in H.
      injection H as <- H. left. exists [], x'''. reflexivity.
    + simpl in H. injection H as <- H.
      destruct (IH a' b y H) as [(u & v & ->) | Hy]; [|right; exact Hy].
      left. exists (a0 :: u), v. reflexivity.
Qed.

Lemma has_fence_join ls :
  has_fence (join nl ls) -> exists l, l ∈ ls /\ has_fence l.
Proof.
  induction ls as [|x [|y ls] IH]; simpl.
  - intros H. exfalso. apply (has_fence_nil H).
  - intros H. exists x. split; [left | exact H].
  - intros (a & b & H). symmetry in H.
    apply has_fence_newline in H as [H | H].
    + exists x. split; [left | exact H].
    + destruct (IH H) as (l & Hl & Hf). exists l. split; [right|]; assumption.
Qed.

(** Each line of [splitlines] is a part of the text. *)
Lemma splitlines_go_part : forall n s cur,
  (length s <= n)%nat ->
  forall l, l ∈ splitlines_go cur s ->
  exists a b, rev cur ++ s = a ++ l ++ b.
Proof.
  induction n as [|n IH]; intros s cur Hn l Hl.
  - destruct s; [|simpl in Hn; lia]. simpl in Hl.
    destruct cur as [|c0 cur']; [apply elem_of_nil in Hl; contradiction|].
    apply list_elem_of_singleton in Hl as ->.
    exists [], []. rewrite !app_nil_r. reflexivity.
  - destruct s as [|c t].
    { simpl in Hl.
      destruct cur as [|c0 cur']; [apply elem_of_nil in Hl; contradiction|].
      apply list_elem_of_singleton in Hl as ->.
      exists [], []. rewrite !app_nil_r. reflexivity. }
    simpl in Hn. cbn [splitlines_go] in Hl.
    assert (forall t', (length t' <= n)%nat ->
              (exists w, t = w ++ t') ->
              l ∈ rev cur :: splitlines_go [] t' ->
              exists a b, rev cur ++ c :: t = a ++ l ++ b) as Hbreak.
    { intros t' Ht' (w & ->) Hin. apply elem_of_cons in Hin as [->|Hin].
      - exists [], (c :: w ++ t'). reflexivity.
      - destruct (IH t' [] Ht' l Hin) as (a & b & E). simpl in E.
        exists (rev cur ++ c :: w ++ a), b. rewrite E.
        rewrite <- !app_assoc. simpl. rewrite <- !app_assoc. reflexivity. }
    destruct (c =? 13).
    + destruct t as [|d t'].
      * apply (Hbreak []); [simpl; lia | exists []; reflexivity | exact Hl].
      * destruct (N.eq_dec d 10) as [->|Hd].
        -- apply (Hbreak t'); [simpl in Hn; lia | exists [10]; reflexivity|].
           exact Hl.
        -- assert (forall X Y : list str,
                     match d with 10 => X | _ => Y end = Y) as Hm.
           { intros X Y. destruct d as [|p]; [reflexivity|].
             do 4 (destruct p; try reflexivity). congruence. }
           rewrite Hm in Hl.
           apply (Hbreak (d :: t')); [simpl in *; lia | exists []; reflexivity|].
           exact Hl.
    + destruct (is_linebreak c).
      * apply (Hbreak t); [lia | exists []; reflexivity | exact Hl].
      * destruct (IH t (c :: cur) ltac:(lia) l Hl) as (a & b & E).
        exists a, b. rewrite <- E. simpl. rewrite <- app_assoc. reflexivity.
Qed.

Lemma strip_part s : exists a b, s = a ++ strip s ++ b.
Proof.
  destruct (lstrip_suffix s) as [a Ha].
  destruct (rstrip_prefix (lstrip s)) as [b Hb].
  exists a, b. change (strip s) with (rstrip (lstrip s)).
  rewrite <- Hb. exact Ha.
Qed.

Lemma remove_fences_fence t : remove_fences (fence ++ t) = remove_fences t.
Proof. reflexivity. Qed.

Lemma remove_fences_other c t :
  take 3 (c :: t) <> fence ->
  remove_fences (c :: t) = c :: remove_fences t.
Proof.
  intros H.
  destruct (N.eq_dec c 96) as [->|Hc].
  2:{ destruct c as [|p]; [reflexivity|].
      do 7 (destruct p; try reflexivity). congruence. }
  destruct t as [|c1 t1]; [reflexivity|].
  destruct (N.eq_dec c1 96) as [->|Hc1].
  2:{ destruct c1 as [|p]; [reflexivity|].
      do 7 (destruct p; try reflexivity). congruence. }
  destruct t1 as [|c2 t2]; [reflexivity|].
  destruct (N.eq_dec c2 96) as [->|Hc2].
  2:{ destruct c2 as [|p]; [reflexivity|].
      do 7 (destruct p; try reflexivity). congruence. }
  exfalso. apply H. reflexivity.
Qed.

Lemma remove_fences_head t :
  head (remove_fences t) = Some 96 -> head t = Some 96.
Proof.
  destruct t as [|c t]; [discriminate|].
  destruct (decide (take 3 (c :: t) = fence)) as [E|E].
  - intros _. unfold fence in E.
    destruct t as [|? [|? ?]]; simpl in E; simpl; congruence.
  - rewrite (remove_fences_other _ _ E). simpl. congruence.
Qed.

(** What [replace] leaves holds no fence. *)
Lemma remove_fences_clean : forall n s,
  (length s <= n)%nat -> ~ has_fence (remove_fences s).
Proof.
  induction n as [|n IH]; intros s Hn.
  - destruct s; [apply has_fence_nil | simpl in Hn; lia].
  - destruct s as [|c t]; [apply has_fence_nil|]. simpl in Hn.
    destruct (decide (take 3 (c :: t) = fence)) as [E|E].
    + unfold fence in E.
      destruct t as [|c1 [|c2 t2]]; simpl in E; try discriminate.
      injection E as -> -> ->.
      change (remove_fences (96 :: 96 :: 96 :: t2)) with (remove_fences t2).
      apply IH. simpl in Hn. lia.
    + rewrite (remove_fences_other _ _ E).
      intros (a & b & H). destruct a as [|a0 a'].
      * simpl in H. injection H as -> H.
        assert (head (remove_fences t) = Some 96) as H1 by (rewrite H; reflexivity).
        apply remove_fences_head in H1.
        destruct t as [|c1 t1]; [discriminate|]. simpl in H1.
        injection H1 as ->.
        destruct (decide (take 3 (96 :: t1) = fence)) as [E1|E1].
        -- unfold fence in E1.
           destruct t1 as [|c2 [|c3 t3]]; simpl in E1; try discriminate.
           injection E1 as -> ->. apply E. reflexivity.
        -- rewrite (remove_fences_other _ _ E1) in H. injection H as H.
           assert (head (remove_fences t1) = Some 96) as H2
             by (rewrite H; reflexivity).
           apply remove_fences_head in H2.
           destruct t1 as [|c2 t2]; [discriminate|]. simpl in H2.
           injection H2 as ->. apply E. reflexivity.
      * simpl in H. injection H as _ H.
        apply (IH t ltac:(lia)). exists a', b. exact H.
Qed.

(** X26: a reply that [generate_commit_message] accepts is returned
    without code fences: the message holds no run of three backticks. *)
Theorem normalized_message_has_no_fence (text : option str) (msg : str) :
  normalize_reply text = Some msg -> contains fence msg = false.
Proof.
  unfold normalize_reply.
  destruct (str_eqb (strip (default [] text)) []); [discriminate|].
  set (msg1 := strip (default [] text)).
  assert (~ has_fence (if contains fence msg1
                       then strip (remove_fences msg1) else msg1)) as Hclean.
  { destruct (contains fence msg1) eqn:Ec.
    - intros Hf. apply (remove_fences_clean _ msg1 (Nat.le_refl _)).
      apply (has_fence_part (strip (remove_fences msg1))); [|exact Hf].
      apply strip_part.
    - intros Hf. apply contains_has_fence in Hf. congruence. }
  set (msg0 := if contains fence msg1 then strip (remove_fences msg1)
               else msg1) in *.
  destruct (map rstrip (splitlines msg0)) as [|l0 rest] eqn:El; [discriminate|].
  destruct (str_eqb l0 []); [discriminate|]. intros Hm.
  assert (msg = normalized l0 rest) as ->
    by (unfold normalized; congruence).
  apply not_true_is_false. intros Ec. unfold normalized in Ec.
  apply contains_has_fence, has_fence_join in Ec as (l & Hl & Hf).
  assert (forall x, x ∈ l0 :: rest -> has_fence x -> False) as Hline.
  { intros x Hx Hfx. rewrite <- El in Hx.
    apply list_elem_of_fmap in Hx as (ln & -> & Hln).
    destruct (splitlines_go_part _ msg0 [] (Nat.le_refl _) ln Hln)
      as (a & b & E). simpl in E.
    destruct (rstrip_prefix ln) as [w Hw].
    apply Hclean. apply (has_fence_part ln); [eauto|].
    apply (has_fence_part (rstrip ln)); [exists [], w; exact Hw | exact Hfx]. }
  rewrite !elem_of_app in Hl. destruct Hl as [Hl | [Hl | Hl]].
  - apply list_elem_of_singleton in Hl as ->.
    apply (Hline l0 ltac:(left)).
    destruct (72 <? length l0)%nat; [|exact Hf].
    apply (has_fence_part (take 72 l0)); [|exact Hf].
    exists [], (drop 72 l0). symmetry. apply take_drop.
  - destruct rest as [|l1 rest']; [apply elem_of_nil in Hl; contradiction|].
    destruct (str_eqb l1 []); [apply elem_of_nil in Hl; contradiction|].
    apply list_elem_of_singleton in Hl as ->. apply (has_fence_nil Hf).
  - apply (Hline l); [right; exact Hl | exact Hf].
Qed.

Lemma normalized_message_has_no_fence_witness :
  contains fence (py "fix: drop key" ++ nl ++ nl ++ py "- rotate it") = false.
Proof.
  apply (normalized_message_has_no_fence
           (Some (fence ++ nl ++ py "fix: drop key" ++ nl
                  ++ py "- rotate it" ++ nl ++ fence))).
  vm_compute. reflexivity.
Defined.

(** ** The primary language: the extension counted most often *)

Section PrimaryLanguageFacts.

Variable suffix_lower : str -> str.

Local Abbreviation counted' := (counted suffix_lower).

(** The number of entries counted under [ext]. *)
Definition occ (ext : str) (entries : list dir_entry) : nat :=
  length (List.filter (fun e => bool_decide (counted' e = Some ext)) entries).

(** [exts.get(ext, 0)] *)
Fixpoint ext_count (ext : str) (exts : list (str * nat)) : nat :=
  match exts with
  | [] => 0
  | (k, n) :: t => if str_eqb k ext then n else ext_count ext t
  end.

Lemma ext_count_bump k ext exts :
  ext_count k (bump ext exts)
  = (ext_count k exts + if str_eqb ext k then 1 else 0)%nat.
Proof.
  induction exts as [|[k' n] t IH]; simpl.
  - destruct (str_eqb ext k); reflexivity.
  - destruct (str_eqb k' ext) eqn:E1; simpl.
    + apply str_eqb_true in E1. subst k'.
      destruct (str_eqb ext k); lia.
    + destruct (str_eqb k' k) eqn:E2; [|exact IH].
      apply str_eqb_true in E2. subst k'.
      apply str_eqb_false in E1.
      assert (str_eqb ext k = false) as -> by (apply str_eqb_false; congruence).
      lia.
Qed.

Lemma bump_keys ext exts x :
  x ∈ (bump ext exts).*1 -> x = ext \/ x ∈ exts.*1.
Proof.
  induction exts as [|[k n] t IH]; simpl.
  - rewrite list_elem_of_singleton. auto.
  - destruct (str_eqb k ext); simpl; rewrite !elem_of_cons; [tauto|].
    intros [->|H]; [tauto|]. apply IH in H. tauto.
Qed.

Lemma bump_NoDup ext exts : NoDup exts.*1 -> NoDup (bump ext exts).*1.
Proof.
  induction exts as [|[k n] t IH]; simpl; intros H.
  - repeat constructor. apply not_elem_of_nil.
  - apply NoDup_cons in H as [Hk Ht].
    destruct (str_eqb k ext) eqn:E; simpl.
    + apply NoDup_cons. auto.
    + apply NoDup_cons. split; [|auto].
      intros Hin. apply bump_keys in Hin as [->|Hin]; [|contradiction].
      rewrite str_eqb_refl in E. discriminate.
Qed.

Lemma bump_positive ext exts :
  Forall (fun p => (0 < snd p)%nat) exts ->
  Forall (fun p => (0 < snd p)%nat) (bump ext exts).
Proof.
  induction 1 as [|[k n] t Hn Ht IH]; simpl.
  - repeat constructor.
  - destruct (str_eqb k ext); constructor; simpl in *; auto; lia.
Qed.

Lemma ext_count_absent k exts : k ∉ exts.*1 -> ext_count k exts = 0%nat.
Proof.
  induction exts as [|[k' n] t IH]; simpl; [reflexivity|].
  rewrite not_elem_of_cons. intros [H1 H2].
  destruct (str_eqb k' k) eqn:E; [|auto].
  apply str_eqb_true in E. congruence.
Qed.

Lemma ext_count_present k n exts :
  NoDup exts.*1 -> (k, n) ∈ exts -> ext_count k exts = n.
Proof.
  induction exts as [|[k' n'] t IH]; simpl; intros Hd Hin.
  - apply elem_of_nil in Hin. contradiction.
  - apply NoDup_cons in Hd as [Hk Ht].
    apply elem_of_cons in Hin as [[= <- <-]|Hin].
    + rewrite str_eqb_refl. reflexivity.
    + destruct (str_eqb k' k) eqn:E; [|auto].
      apply str_eqb_true in E. subst k'. exfalso. apply Hk.
      apply list_elem_of_fmap. exists (k, n). auto.
Qed.

Lemma occ_cons ext e entries :
  occ ext (e :: entries)
  = ((if bool_decide (counted' e = Some ext) then 1 else 0)
     + occ ext entries)%nat.
Proof.
  unfold occ. simpl. destruct (bool_decide (counted' e = Some ext)); reflexivity.
Qed.

(** What the dictionary holds after the loop. *)
Lemma count_loop entries : forall acc,
  NoDup acc.*1 -> Forall (fun p => (0 < snd p)%nat) acc ->
  let r := fold_left (fun exts e =>
                        match counted' e with
                        | Some ext => bump ext exts
                        | None => exts
                        end) entries acc in
  NoDup r.*1 /\ Forall (fun p => (0 < snd p)%nat) r /\
  forall k, ext_count k r = (ext_count k acc + occ k entries)%nat.
Proof.
  induction entries as [|e es IH]; intros acc Hd Hp; simpl.
  - split; [exact Hd|]. split; [exact Hp|]. intros k. unfold occ. simpl. lia.
  - destruct (counted' e) as [ext|] eqn:Ec.
    + destruct (IH (bump ext acc) (bump_NoDup _ _ Hd) (bump_positive _ _ Hp))
        as (H1 & H2 & H3).
      split; [exact H1|]. split; [exact H2|]. intros k.
      rewrite H3, ext_count_bump, occ_cons, Ec.
      destruct (str_eqb ext k) eqn:E.
      * apply str_eqb_true in E. subst k.
        rewrite bool_decide_eq_true_2 by reflexivity. lia.
      * apply str_eqb_false in E.
        rewrite bool_decide_eq_false_2 by congruence. lia.
    + destruct (IH acc Hd Hp) as (H1 & H2 & H3).
      split; [exact H1|]. split; [exact H2|]. intros k.
      rewrite H3, occ_cons, Ec.
      rewrite bool_decide_eq_false_2 by discriminate. lia.
Qed.

Lemma max_first_spec : forall l best,
  max_first best l ∈ best :: l /\
  forall x, x ∈ best :: l -> (snd x <= snd (max_first best l))%nat.
Proof.
  induction l as [|y t IH]; intros best; simpl.
  - split; [left|]. intros x Hx. apply list_elem_of_singleton in Hx as ->. lia.
  - destruct (Nat.ltb_spec (snd best) (snd y)) as [Hlt|Hge].
    + destruct (IH y) as [H1 H2]. split.
      * right. exact H1.
      * intros x Hx. apply elem_of_cons in Hx as [->|Hx].
        -- specialize (H2 y ltac:(left)). lia.
        -- apply H2. exact Hx.
    + destruct (IH best) as [H1 H2]. split.
      * apply elem_of_cons in H1 as [H1|H1];
          [rewrite H1; left | right; right; exact H1].
      * intros x Hx. apply elem_of_cons in Hx as [->|Hx]; [apply H2; left|].
        apply elem_of_cons in Hx as [->|Hx].
        -- specialize (H2 best ltac:(left)). lia.
        -- apply H2. right. exact Hx.
Qed.

Lemma lstrip_dots_head s : head (lstrip_dots s) <> Some (ch ".").
Proof.
  induction s as [|c t IH]; [discriminate|]. cbn [lstrip_dots].
  destruct (c =? ch ".") eqn:E; [exact IH|].
  apply N.eqb_neq in E. cbn [head]. congruence.
Qed.

(** X27: [_primary_language] returns [unknown] when no entry is counted
    (a file, not hidden, below 2,000,000 bytes, with an extension);
    otherwise it returns the language of an extension that is counted at
    least once and at least as often as every other extension.  What it
    returns never begins with a dot. *)
Theorem primary_language_majority (entries : list dir_entry) :
  ((forall e, e ∈ entries -> counted' e = None) ->
   _primary_language suffix_lower entries = py "unknown") /\
  (forall e ext0, e ∈ entries -> counted' e = Some ext0 ->
   exists ext,
     _primary_language suffix_lower entries = language_of ext /\
     (0 < occ ext entries)%nat /\
     forall ext', (occ ext' entries <= occ ext entries)%nat) /\
  head (_primary_language suffix_lower entries) <> Some (ch ".").
Proof.
  destruct (count_loop entries [] ltac:(constructor) ltac:(constructor))
    as (Hd & Hp & Hg).
  fold (count_exts suffix_lower entries) in Hd, Hp, Hg.
  unfold _primary_language. split; [|split].
  - intros Hn. destruct (count_exts suffix_lower entries) as [|[k n] t] eqn:Ec;
      [reflexivity|].
    exfalso. specialize (Hg k). simpl in Hg. rewrite str_eqb_refl in Hg.
    apply Forall_cons in Hp as [Hpos _]. simpl in Hpos.
    assert (occ k entries = 0%nat) as Ho; [|lia].
    unfold occ. clear -Hn. induction entries as [|e es IH]; [reflexivity|].
    simpl. rewrite (Hn e ltac:(left)).
    rewrite bool_decide_eq_false_2 by discriminate.
    apply IH. intros e' He'. apply Hn. right. exact He'.
  - intros e ext0 He Hc.
    assert (0 < occ ext0 entries)%nat as Hocc.
    { unfold occ. clear -He Hc. induction entries as [|e' es IH].
      - apply elem_of_nil in He. contradiction.
      - simpl. apply elem_of_cons in He as [<-|He].
        + rewrite bool_decide_eq_true_2 by exact Hc. simpl. lia.
        + specialize (IH He).
          destruct (bool_decide (counted' e' = Some ext0)); simpl; lia. }
    destruct (count_exts suffix_lower entries) as [|x t] eqn:Ec.
    { specialize (Hg ext0). simpl in Hg. lia. }
    assert (forall k, occ k entries = ext_count k (x :: t)) as Hg'.
    { intros k. rewrite Hg. reflexivity. }
    destruct (max_first_spec t x) as [Hin Hmax].
    destruct (max_first x t) as [k n] eqn:Em.
    exists k. split; [reflexivity|].
    pose proof (ext_count_present k n _ Hd Hin) as Hk.
    assert (forall ext', (occ ext' entries <= n)%nat) as Hall.
    { intros ext'. rewrite Hg'.
      destruct (decide (ext' ∈ (x :: t).*1)) as [Hi|Hi].
      - apply list_elem_of_fmap in Hi as ([k' n'] & -> & Hi). cbn [fst].
        rewrite (ext_count_present k' n' _ Hd Hi).
        apply (Hmax (k', n') Hi).
      - rewrite (ext_count_absent _ _ Hi). lia. }
    rewrite (Hg' k), Hk. split.
    + specialize (Hall ext0). lia.
    + exact Hall.
  - destruct (count_exts suffix_lower entries) as [|x t]; [discriminate|].
    unfold language_of.
    destruct (assoc (max_first x t).1 language_table) as [v|] eqn:Ea.
    + simpl. unfold language_table in Ea. simpl in Ea.
      repeat match type of Ea with
             | (if ?c then _ else _) = _ =>
               destruct c; [injection Ea as <-; discriminate|]
             end.
      discriminate.
    + simpl. apply lstrip_dots_head.
Qed.

End PrimaryLanguageFacts.

(** ** The workflow: the order of the git commands and the result *)

Definition is_error (d : detail) : bool :=
  match d with Error _ => true | _ => false end.

Ltac solve_sublist :=
  repeat first [ apply sublist_nil | apply sublist_skip | apply sublist_cons ].

Ltac in_cases H :=
  repeat (destruct H as [H | H]; try discriminate H); try contradiction.

(** X28: [auto_commit] issues its git commands in the order fetch, add,
    commit, push, each at most once; it commits only after staging, when
    something is staged, and pushes only after a commit that succeeded. *)
Theorem auto_commit_steps (w : world) (p : option str) :
  fst (auto_commit w p) `sublist_of` [Fetch; AddAll; Commit; Push] /\
  (In Commit (fst (auto_commit w p)) ->
   In AddAll (fst (auto_commit w p)) /\ w_add_raises w = false /\
   w_anything_staged w = true) /\
  (In Push (fst (auto_commit w p)) ->
   In Commit (fst (auto_commit w p)) /\ w_commit w = None).
Proof.
  unfold auto_commit.
  destruct p as [[|c p]|];
    [simpl; split; [solve_sublist | split; intros []] | |
     simpl; split; [solve_sublist | split; intros []]].
  destruct (w_is_repo w); cbn [negb];
    [|simpl; split; [solve_sublist | split; intros []]].
  destruct (w_remotes w) as [|rm rms], (w_fetch w), (w_add_raises w),
    (w_anything_staged w), (w_commit w); cbn [negb app fst];
    try destruct (w_push w); cbn [app fst];
    (split; [solve_sublist | split; intros H; in_cases H; simpl; auto 6]).
Qed.

(** X29: the dictionary [auto_commit] returns carries the path it was
    given; it has [ok = False] exactly when it has the key [error], and that
    is when no path was given, when the path is not inside a repository, or
    when the commit was attempted and raised: a fetch or a push that fails
    leaves [ok = True]. *)
Theorem auto_commit_result (w : world) (p : option str) (r : result) :
  snd (auto_commit w p) = Some r ->
  path r = p /\ is_error (what r) = negb (ok r) /\
  (ok r = false <->
   p = None \/ p = Some [] \/ w_is_repo w = false \/
   (In Commit (fst (auto_commit w p)) /\ w_commit w <> None)).
Proof.
  unfold auto_commit.
  destruct p as [[|c p]|].
  - simpl. intros [= <-]. simpl. tauto.
  - destruct (w_is_repo w) eqn:Er; cbn [negb].
    + destruct (w_remotes w) as [|rm rms], (w_fetch w), (w_add_raises w),
        (w_anything_staged w), (w_commit w); cbn [negb app fst snd];
        try destruct (w_push w); cbn [app fst snd];
        intros Hr;
        first
          [ discriminate Hr
          | injection Hr as <-; simpl;
            split; [reflexivity|]; split; [reflexivity|];
            split;
            [ first [ discriminate
                    | intros _; right; right; right;
                      split; [auto | discriminate] ]
            | intros [H | [H | [H | [H1 H2]]]];
              first [ discriminate | congruence | in_cases H1 ] ] ].
    + simpl. intros [= <-]. simpl. tauto.
  - simpl. intros [= <-]. simpl. tauto.
Qed.

(** A repository with a remote that rejects the push. *)
Definition push_rejected : world :=
  World true [py "origin"] FetchDone false true [] []
        (py "chore: commit staged changes") None
        (PushErrorFlag (py "[rejected] main -> main (fetch first)")).

Lemma auto_commit_result_witness :
  exists r,
    snd (auto_commit push_rejected (Some (py "/w"))) = Some r /\
    path r = Some (py "/w") /\ is_error (what r) = negb (ok r) /\
    (ok r = false <->
     Some (py "/w") = None \/ Some (py "/w") = Some [] \/
     w_is_repo push_rejected = false \/
     (In Commit (fst (auto_commit push_rejected (Some (py "/w")))) /\
      w_commit push_rejected <> None)).
Proof.
  eexists. split; [reflexivity|].
  apply (auto_commit_result push_rejected (Some (py "/w"))). reflexivity.
Defined.

(** ** What is staged, for the workflow and for the passes *)

Lemma splitlines_go_nil cur s : splitlines_go cur s = [] <-> cur = [] /\ s = [].
Proof.
  split.
  - revert cur. induction s as [|c t IH]; intros cur H.
    + simpl in H. destruct cur; [auto | discriminate].
    + exfalso. cbn [splitlines_go] in H.
      destruct (c =? 13).
      * destruct t as [|d t']; [discriminate|].
        destruct d as [|p]; [discriminate|].
        do 4 (destruct p; try discriminate).
      * destruct (is_linebreak c); [discriminate|].
        apply IH in H as [H _]. discriminate.
  - intros [-> ->]. reflexivity.
Qed.

(** X30: [anything_staged] and the two passes read the same list:
    with the output of [git diff --cached --name-only] at hand,
    [anything_staged] is [True] exactly when the output is not empty, and,
    the passes falling back on the paths of the index as [anything_staged]
    does on its entries, exactly when the passes have a path to go
    through. *)
Theorem anything_staged_iff_paths (E : env) (r : repo) (diff : option str) :
  diff_names E = splitlines <$> diff ->
  (anything_staged diff (negb (bool_decide (repo_index r = ∅))) = true
   <-> staged_paths E r <> []) /\
  (forall out, diff = Some out ->
     (anything_staged diff (negb (bool_decide (repo_index r = ∅))) = true
      <-> out <> [])).
Proof.
  intros Hd. unfold staged_paths. rewrite Hd. split.
  - destruct diff as [out|]; simpl.
    + destruct (splitlines out); split; congruence.
    + rewrite negb_true_iff, bool_decide_eq_false.
      rewrite <- (map_to_list_empty_iff (repo_index r)).
      destruct (map_to_list (repo_index r)); simpl; split; congruence.
  - intros out ->. simpl. unfold splitlines.
    pose proof (splitlines_go_nil [] out) as H.
    destruct (splitlines_go [] out); split; intros H1; try congruence.
    + exfalso. apply H1. apply H. reflexivity.
    + intros ->. destruct H as [_ H]. discriminate H. auto.
Qed.

Lemma anything_staged_iff_paths_witness :
  (anything_staged (Some (py "key.env"))
     (negb (bool_decide (repo_index (one_file key_file secret_line) = ∅)))
   = true
   <-> staged_paths (Env (Some [py "key.env"]) (fun _ => true) (fun _ => true)
                         no_findings)
         (one_file key_file secret_line) <> []) /\
  (forall out, Some (py "key.env") = Some out ->
     (anything_staged (Some (py "key.env"))
        (negb (bool_decide (repo_index (one_file key_file secret_line) = ∅)))
      = true
      <-> out <> [])).
Proof.
  apply (anything_staged_iff_paths
           (Env (Some [py "key.env"]) (fun _ => true) (fun _ => true)
                no_findings)
           (one_file key_file secret_line) (Some (py "key.env"))).
  reflexivity.
Defined.
